(** * The XLA reproducer driver (tensorflow/compiler/xla/tools/driver.cc)

    A shallow embedding of the driver: the shape model, the buffer-assignment
    parser, the typed generator ([Fill]), the typed printer ([Display]) and
    [main], followed by the properties of the driver that are checked
    against it.

    Conventions of the embedding.
    - [std::string] is [list ascii]; a [char] buffer is a [list ascii] too.
    - [int] is a [Z] kept in the 32-bit range; the one place where the
      source multiplies ints ([GetNumElements]) wraps around explicitly.
    - A run of the program is a value of [M A]: an [outcome] together with
      the text it wrote, in order, to [std::cout] and [std::cerr].
    - The environment variable VERBOSE is the boolean argument [verbose]
      of every function that logs.
    - What the standard library leaves to the implementation (the random
      engine and distributions, the text of a floating-point number, the
      message of the terminate handler) and the linked [EntryModule] are
      the fields of the class [Platform]. *)

From Stdlib Require Import ZArith List Ascii String Lia Bool.
From stdpp Require Import gmap list.
Import ListNotations.

Local Open Scope Z_scope.

(** ** Text *)

Abbreviation text := (list ascii).

Definition str (s : string) : text := list_ascii_of_string s.

Definition ascii_eqb (a b : ascii) : bool := Ascii.eqb a b.

Fixpoint text_eqb (a b : text) : bool :=
  match a, b with
  | [], [] => true
  | x :: a', y :: b' => ascii_eqb x y && text_eqb a' b'
  | _, _ => false
  end.

Definition endl : text := str (String "010" EmptyString).

(** [s.find(c) != npos] *)
Fixpoint contains (c : ascii) (s : text) : bool :=
  match s with
  | [] => false
  | x :: s' => ascii_eqb x c || contains c s'
  end.

(** ** Outcomes of a run and the output it leaves *)

Inductive exception := invalid_argument | out_of_range.

(** [Ret a]: normal return.  [Exit n]: [exit(n)] was called.  [Throw e]: an
    exception was thrown and is not caught (the driver has no handler).
    [Undefined]: the run reached behaviour the language leaves undefined
    (an index out of bounds, a read outside a buffer).

    The events of a run are what the statements of the driver write.  What
    the C++ runtime writes when an exception leaves [main] is not among
    them: it is added by [terminate], which [program] applies to [main]. *)
Inductive outcome (A : Type) :=
| Ret (a : A)
| Exit (status : Z)
| Throw (e : exception)
| Undefined.
Arguments Ret {A} a.
Arguments Exit {A} status.
Arguments Throw {A} e.
Arguments Undefined {A}.

Inductive event :=
| cout (s : text)
| cerr (s : text).

Definition M (A : Type) : Type := outcome A * list event.

Definition ret {A} (a : A) : M A := (Ret a, []).
(** A [throw] expression: nothing is written where the exception is
    raised. *)
Definition throw {A} (e : exception) : M A := (Throw e, []).
Definition undefined {A} : M A := (Undefined, []).
Definition print (e : event) : M unit := (Ret tt, [e]).

Definition bind {A B} (m : M A) (f : A -> M B) : M B :=
  match m with
  | (Ret a, t) => let (r, t') := f a in (r, t ++ t')
  | (Exit n, t) => (Exit n, t)
  | (Throw e, t) => (Throw e, t)
  | (Undefined, t) => (Undefined, t)
  end.

Notation "'let*' x ':=' m 'in' k" := (bind m (fun x => k))
  (at level 10, x pattern, m at level 100, k at level 200).
Notation "m ';;' k" := (bind m (fun _ => k))
  (at level 100, k at level 200, right associativity).

Fixpoint mapM {A B} (f : A -> M B) (l : list A) : M (list B) :=
  match l with
  | [] => ret []
  | x :: l' => let* y := f x in let* ys := mapM f l' in ret (y :: ys)
  end.

Fixpoint foldM {A S} (f : S -> A -> M S) (s : S) (l : list A) : M S :=
  match l with
  | [] => ret s
  | x :: l' => let* s' := f s x in foldM f s' l'
  end.

Definition of_option {A} (o : option A) : M A :=
  match o with Some a => ret a | None => undefined end.

Fixpoint stdout_of (t : list event) : text :=
  match t with
  | [] => []
  | cout s :: t' => s ++ stdout_of t'
  | cerr _ :: t' => stdout_of t'
  end.

Fixpoint stderr_of (t : list event) : text :=
  match t with
  | [] => []
  | cout _ :: t' => stderr_of t'
  | cerr s :: t' => s ++ stderr_of t'
  end.

(** ** The pieces of the standard library the driver calls *)

Definition INT_MAX : Z := 2147483647.
Definition INT_MIN : Z := -2147483648.

(** Two's complement wrap-around of an [int]. *)
Definition wrap_int (z : Z) : Z := (z + 2 ^ 31) mod 2 ^ 32 - 2 ^ 31.

Definition is_digit (c : ascii) : bool :=
  let n := N_of_ascii c in (48 <=? n)%N && (n <=? 57)%N.

Definition digit_val (c : ascii) : Z := Z.of_N (N_of_ascii c) - 48.

Definition digit_char (d : Z) : ascii := ascii_of_N (Z.to_N (d + 48)).

(** [isspace] in the C locale. *)
Definition is_space (c : ascii) : bool :=
  let n := N_of_ascii c in (n =? 32)%N || ((9 <=? n)%N && (n <=? 13)%N).

Fixpoint skip_spaces (s : text) : text :=
  match s with
  | c :: s' => if is_space c then skip_spaces s' else s
  | [] => []
  end.

(** The value of the longest prefix of decimal digits, [None] if empty. *)
Fixpoint digits_value (acc : option Z) (s : text) : option Z :=
  match s with
  | c :: s' =>
      if is_digit c
      then digits_value (Some (10 * default 0 acc + digit_val c)) s'
      else acc
  | [] => acc
  end.

(** [std::stoi(s)]: leading white space, an optional sign, then as many
    decimal digits as there are; whatever follows is ignored.  No digit:
    [std::invalid_argument]; a value outside [int]: [std::out_of_range]. *)
Definition stoi (s : text) : M Z :=
  let s1 := skip_spaces s in
  let '(neg, s2) :=
    match s1 with
    | c :: r => if ascii_eqb c "-" then (true, r)
                else if ascii_eqb c "+" then (false, r) else (false, s1)
    | [] => (false, s1)
    end in
  match digits_value None s2 with
  | None => throw invalid_argument
  | Some v =>
      let v := if neg then - v else v in
      if (INT_MIN <=? v) && (v <=? INT_MAX) then ret v else throw out_of_range
  end.

Fixpoint digits_of (fuel : nat) (n : Z) (acc : text) : text :=
  match fuel with
  | O => acc
  | S fuel' =>
      let acc' := digit_char (n mod 10) :: acc in
      if n <? 10 then acc' else digits_of fuel' (n / 10) acc'
  end.

(** [std::to_string] of an integer, also what [operator<<] prints for one. *)
Definition to_string (n : Z) : text :=
  let digits m := digits_of (S (Z.to_nat (Z.log2 m))) m [] in
  if n <? 0 then "-"%char :: digits (- n) else digits n.

(** [while (std::getline(stream, tok, delim))]: the successive tokens.  A
    token ends at [delim] or at the end of the text; reading at the end of
    the text with nothing extracted fails and ends the loop, so a final
    [delim] does not produce an empty last token. *)
Fixpoint getlines_from (delim : ascii) (cur : text) (started : bool) (s : text)
  : list text :=
  match s with
  | [] => if started then [rev cur] else []
  | c :: s' =>
      if ascii_eqb c delim then rev cur :: getlines_from delim [] false s'
      else getlines_from delim (c :: cur) true s'
  end.

Definition getlines (delim : ascii) (s : text) : list text :=
  getlines_from delim [] false s.

(** A difference of sizes, [size - k] in [size_t].  When [k] exceeds
    [size] the difference wraps around to a number larger than the size of
    any string; [None] stands for such a count. *)
Definition size_minus (size k : nat) : option nat :=
  if (k <=? size)%nat then Some (size - k)%nat else None.

(** [s.substr(pos, n)]: at most [n] characters from [pos] on, and
    [std::out_of_range] when [pos] is beyond the end. *)
Definition substr (pos : nat) (n : option nat) (s : text) : M text :=
  if (pos <=? length s)%nat
  then ret (match n with
            | Some n => take n (drop pos s)
            | None => drop pos s
            end)
  else throw out_of_range.

(** *** [std::regex], ECMAScript grammar, as far as the driver uses it

    The four patterns of the driver are sequences of single characters,
    character classes, [+] and [*] applied to a class, and groups that are
    not nested.  [x+] is [x] followed by [x*].  Matching is the
    backtracking search of ECMAScript: [*] is greedy and gives characters
    back one at a time, the first success wins. *)

Inductive cclass :=
| Lit (c : ascii)                (* the character itself *)
| Dot                            (* [.]: anything but a line terminator *)
| Between (lo hi : ascii)        (* [[lo-hi]] *)
| NotLit (c : ascii).            (* [[^c]] *)

Definition accepts (k : cclass) (c : ascii) : bool :=
  match k with
  | Lit x => ascii_eqb c x
  | Dot => negb (ascii_eqb c "010" || ascii_eqb c "013")
  | Between lo hi =>
      (N_of_ascii lo <=? N_of_ascii c)%N && (N_of_ascii c <=? N_of_ascii hi)%N
  | NotLit x => negb (ascii_eqb c x)
  end.

Inductive node :=
| One (k : cclass)
| Star (k : cclass)
| Open
| Close.

Definition regex := list node.

Definition lit (s : string) : regex := map (fun c => One (Lit c)) (str s).
Definition plus (k : cclass) : regex := [One k; Star k].
Definition group (r : regex) : regex := Open :: r ++ [Close].

(** [cur] holds, reversed, the characters of the group that is open. *)
Definition push (c : ascii) (cur : option text) : option text :=
  match cur with Some g => Some (c :: g) | None => None end.

Definition pushes (u : text) (cur : option text) : option text :=
  fold_left (fun cur c => push c cur) u cur.

Fixpoint exec (whole : bool) (r : regex) (s : text) (cur : option text)
  (caps : list text) {struct r} : option (list text) :=
  match r with
  | [] =>
      if whole then match s with [] => Some (rev caps) | _ => None end
      else Some (rev caps)
  | One k :: r' =>
      match s with
      | c :: s' => if accepts k c then exec whole r' s' (push c cur) caps else None
      | [] => None
      end
  | Star k :: r' =>
      (fix loop (s : text) (cur : option text) {struct s} : option (list text) :=
         match s with
         | c :: s' =>
             if accepts k c then
               match loop s' (push c cur) with
               | Some m => Some m
               | None => exec whole r' s cur caps
               end
             else exec whole r' s cur caps
         | [] => exec whole r' s cur caps
         end) s cur
  | Open :: r' => exec whole r' s (Some []) caps
  | Close :: r' => exec whole r' s None (rev (default [] cur) :: caps)
  end.

(** The boolean a call of [regex_match] or [regex_search] returns. *)
Definition matched {A} (m : option A) : bool :=
  match m with Some _ => true | None => false end.

(** [std::regex_match]: the whole text; the result is the list of groups. *)
Definition regex_match (r : regex) (s : text) : option (list text) :=
  exec true r s None [].

(** [std::regex_search]: the leftmost position where the pattern matches. *)
Fixpoint regex_search (r : regex) (s : text) : option (list text) :=
  match exec false r s None [] with
  | Some m => Some m
  | None => match s with [] => None | _ :: s' => regex_search r s' end
  end.

(** ** Diagnostics *)

Definition ExitWithMsg {A} (msg : text) : M A := (Exit 1, [cerr (msg ++ endl)]).

Definition Check (cond : bool) (msg : text) : M unit :=
  if cond then ret tt else ExitWithMsg msg.

(** [IsVerbose()] is the argument [verbose]. *)
Definition Log (verbose : bool) (msg : text) : M unit :=
  if verbose then print (cerr (msg ++ endl)) else ret tt.

(** ** Shape model *)

Inductive PrimitiveType :=
| S16 | S32 | S64 | U8 | U16 | U32 | U64 | F16 | BF16 | F32 | F64 | C64 | C128.

Definition enumerators : list PrimitiveType :=
  [S16; S32; S64; U8; U16; U32; U64; F16; BF16; F32; F64; C64; C128].

(** The value of an enumerator ([S16 = 0], then one more each). *)
Definition enum_value (t : PrimitiveType) : nat :=
  match t with
  | S16 => 0 | S32 => 1 | S64 => 2 | U8 => 3 | U16 => 4 | U32 => 5 | U64 => 6
  | F16 => 7 | BF16 => 8 | F32 => 9 | F64 => 10 | C64 => 11 | C128 => 12
  end%nat.

(** An object of the enumeration type holds an integer; this is the
    enumerator it denotes, if any ([switch] selects a [case] by it). *)
Definition enumerator (v : nat) : option PrimitiveType := nth_error enumerators v.

Definition primitive_strings : list text :=
  map str ["s16"; "s32"; "s64"; "u8"; "u16"; "u32"; "u64"; "f16"; "bf16"; "f32";
           "f64"; "c64"; "c128"]%string.

(** [primitive_strings()[type]]: indexing past the end is undefined. *)
Definition ToString (type : nat) : M text :=
  of_option (nth_error primitive_strings type).

(** [std::distance(vec.begin(), std::find(vec.begin(), vec.end(), s))] *)
Fixpoint find_index (s : text) (vec : list text) : nat :=
  match vec with
  | [] => O
  | x :: vec' => if text_eqb x s then O else S (find_index s vec')
  end.

(** The [static_cast] keeps the distance as it is: 13 when [s] is absent. *)
Definition PrimitiveTypeFromString (s : text) : nat :=
  find_index s primitive_strings.

Definition ByteSize (type : nat) : M Z :=
  let* s := ToString type in
  let* s := substr 1 (Some (length s)) s in
  let* n := stoi s in
  ret (n ÷ 8).

Record ArrayShape := {
  type : nat;                 (* a PrimitiveType object, by its value *)
  dimensions : list Z
}.

Record TupleShape := {
  elements : list ArrayShape
}.

(** The texts of [l] with [sep] between them (none after the last). *)
Fixpoint join (sep : text) (l : list text) : text :=
  match l with
  | [] => []
  | [x] => x
  | x :: l' => x ++ sep ++ join sep l'
  end.

Definition ArrayShapeToString (shape : ArrayShape) : M text :=
  let* t := ToString (type shape) in
  ret (t ++ str "[" ++ join (str ",") (map to_string (dimensions shape)) ++ str "]").

(** The pattern of [ArrayShapeFromString]: group 1 is one or more characters
    other than an opening square bracket, then an opening square bracket,
    group 2 is any run of characters (a dot under a star), then a closing
    square bracket. *)
Definition shape_r : regex :=
  group (plus (NotLit "[")) ++ lit "[" ++ group [Star Dot] ++ lit "]".

Definition ArrayShapeFromString (verbose : bool) (s : text) : M ArrayShape :=
  Log verbose (str "Array shape from string: " ++ s);;
  Check (negb (contains "(" s)) (str "Tuple shape is not supported");;
  let m := regex_match shape_r s in
  Check (matched m) (str "Shape not found");;
  let m := default [] m in
  let type := nth 0 m [] in
  let dims := nth 1 m [] in
  let ptype := PrimitiveTypeFromString type in
  let* dimensions := mapM stoi (getlines "," dims) in
  ret {| type := ptype; dimensions := dimensions |}.

(** [subshape[subshape.size() - 1]]: undefined on the empty text. *)
Definition last_char (s : text) : M ascii := of_option (last s).

(** The body of the [while] loop of [TupleShapeFromString], lines 172-175. *)
Definition ParseSubshape (verbose : bool) (subshape : text) : M ArrayShape :=
  let* c := last_char subshape in
  let* subshape :=
    if ascii_eqb c ","
    then substr 0 (size_minus (length subshape) 1) subshape
    else ret subshape in
  ArrayShapeFromString verbose subshape.

Definition TupleShapeFromString (verbose : bool) (s : text) : M TupleShape :=
  Log verbose (str "Tuple shape from string: " ++ s);;
  match s with
  | "("%char :: _ =>
      let* s := substr 1 (size_minus (length s) 2) s in
      let* out := mapM (ParseSubshape verbose) (getlines " " s) in
      ret {| elements := out |}
  | _ =>
      let* a := ArrayShapeFromString verbose s in
      ret {| elements := [a] |}
  end.

Definition TupleShapeToString (shape : TupleShape) : M text :=
  match elements shape with
  | [e] => ArrayShapeToString e
  | es =>
      let* parts := mapM ArrayShapeToString es in
      ret (str "(" ++ join (str ", ") parts ++ str ")")
  end.

(** ** Assignment parser *)

Record BufferAssignment := {
  buffers_size : list Z;
  buffers_shape : gmap Z TupleShape;
  params_idx : list Z;
  output_idx : Z
}.

Definition empty_assignment : BufferAssignment :=
  {| buffers_size := []; buffers_shape := ∅; params_idx := []; output_idx := -1 |}.

Definition set_buffers_size (a : BufferAssignment) v : BufferAssignment :=
  {| buffers_size := v; buffers_shape := buffers_shape a;
     params_idx := params_idx a; output_idx := output_idx a |}.
Definition set_buffers_shape (a : BufferAssignment) v : BufferAssignment :=
  {| buffers_size := buffers_size a; buffers_shape := v;
     params_idx := params_idx a; output_idx := output_idx a |}.
Definition set_params_idx (a : BufferAssignment) v : BufferAssignment :=
  {| buffers_size := buffers_size a; buffers_shape := buffers_shape a;
     params_idx := v; output_idx := output_idx a |}.
Definition set_output_idx (a : BufferAssignment) v : BufferAssignment :=
  {| buffers_size := buffers_size a; buffers_shape := buffers_shape a;
     params_idx := params_idx a; output_idx := v |}.

(** The pattern [allocation ([0-9]): .+, size ([0-9]+), (.+)] *)
Definition allocation_line_r : regex :=
  lit "allocation " ++ group [One (Between "0" "9")] ++ lit ": " ++ plus Dot
  ++ lit ", size " ++ group (plus (Between "0" "9")) ++ lit ", "
  ++ group (plus Dot).

(** The pattern [output shape is \|([^\|]+)\|,] (a bar is escaped). *)
Definition output_r : regex :=
  lit "output shape is |" ++ group (plus (NotLit "|")) ++ lit "|,".

(** The pattern [parameter ([0-9]+), shape \|([^\|]+)\|] *)
Definition parameter_r : regex :=
  lit "parameter " ++ group (plus (Between "0" "9")) ++ lit ", shape |"
  ++ group (plus (NotLit "|")) ++ lit "|".

(** The output marker of an allocation line, lines 275-286. *)
Definition ParseOutputMarker (verbose : bool) (allocation_idx : Z) (postfix : text)
  (assignment : BufferAssignment) : M BufferAssignment :=
  match regex_search output_r postfix with
  | Some output_match =>
      Log verbose (str "Matched out parameter: " ++ postfix);;
      Check (output_idx assignment =? -1) (str "Multiple out-parameters");;
      let assignment := set_output_idx assignment allocation_idx in
      let output_shape := nth 0 output_match [] in
      Log verbose (str "output shape = " ++ output_shape);;
      let* shape := TupleShapeFromString verbose output_shape in
      let assignment :=
        set_buffers_shape assignment
          (<[output_idx assignment := shape]> (buffers_shape assignment)) in
      let* shown := TupleShapeToString shape in
      Log verbose (str "parsed output shape = " ++ shown);;
      ret assignment
  | None => ret assignment
  end.

(** The parameter marker of an allocation line, lines 288-299. *)
Definition ParseParameterMarker (verbose : bool) (allocation_idx : Z) (postfix : text)
  (assignment : BufferAssignment) : M BufferAssignment :=
  match regex_search parameter_r postfix with
  | Some param_match =>
      Log verbose (str "Matched parameter description: " ++ postfix);;
      let* param_idx := stoi (nth 0 param_match []) in
      let assignment :=
        set_params_idx assignment (params_idx assignment ++ [param_idx]) in
      let param_shape := nth 1 param_match [] in
      let* shape := TupleShapeFromString verbose param_shape in
      let assignment :=
        set_buffers_shape assignment
          (<[allocation_idx := shape]> (buffers_shape assignment)) in
      let* shown := TupleShapeToString shape in
      Log verbose (str "parsed parameter shape = " ++ shown);;
      ret assignment
  | None => ret assignment
  end.

(** The body of the [while] loop, lines 263-300. *)
Definition ParseLine (verbose : bool) (assignment : BufferAssignment) (line : text)
  : M BufferAssignment :=
  match regex_search allocation_line_r line with
  | Some m =>
      Log verbose (str "Matched allocation description: " ++ line);;
      let* allocation_idx := stoi (nth 0 m []) in
      let* size := stoi (nth 1 m []) in
      Log verbose (str "Allocation size = " ++ to_string size);;
      let postfix := nth 2 m [] in
      Check (allocation_idx =? Z.of_nat (length (buffers_size assignment)))
            (str "Unordered allocations in input");;
      let assignment :=
        set_buffers_size assignment (buffers_size assignment ++ [size]) in
      let* assignment := ParseOutputMarker verbose allocation_idx postfix assignment in
      ParseParameterMarker verbose allocation_idx postfix assignment
  | None => ret assignment
  end.

(** [infile] is the content of the file (nothing when it cannot be opened:
    the stream is then in a failed state and no line is read). *)
Definition ParseBufferAssignment (verbose : bool) (infile : text) : M BufferAssignment :=
  let* assignment :=
    foldM (ParseLine verbose) empty_assignment (getlines "010" infile) in
  Check (negb (output_idx assignment =? -1)) (str "Output not set");;
  ret assignment.

(** ** Buffers *)

Definition kSeed : Z := 42.
Definition kUpperBound : Z := 100.
Definition kLowerBound : Z := -100.

Definition GetNumElements (shape : ArrayShape) : Z :=
  fold_left (fun num_elements dim => wrap_int (num_elements * dim))
            (dimensions shape) 1.

(** The integral types [FillIntT] and [DisplayT] are instantiated at. *)
Record IntT := { is_signed : bool; width : nat }.

Definition short : IntT := {| is_signed := true; width := 2 |}.
Definition int : IntT := {| is_signed := true; width := 4 |}.
Definition long_long : IntT := {| is_signed := true; width := 8 |}.
Definition unsigned_char : IntT := {| is_signed := false; width := 1 |}.
Definition unsigned_short : IntT := {| is_signed := false; width := 2 |}.
Definition unsigned_int : IntT := {| is_signed := false; width := 4 |}.
Definition unsigned_long_long : IntT := {| is_signed := false; width := 8 |}.

Definition bits (T : IntT) : Z := 8 * Z.of_nat (width T).

(** The value of type [T] an unsigned bit pattern stands for. *)
Definition of_bits (T : IntT) (u : Z) : Z :=
  if is_signed T && (2 ^ (bits T - 1) <=? u) then u - 2 ^ bits T else u.

(** Conversion of an integer to [T]: modulo [2 ^ bits T]. *)
Definition cast (T : IntT) (z : Z) : Z := of_bits T (z mod 2 ^ bits T).

(** Little-endian object representation, [w] bytes. *)
Fixpoint encode_le (w : nat) (v : Z) : text :=
  match w with
  | O => []
  | S w' => ascii_of_N (Z.to_N (v mod 256)) :: encode_le w' (v / 256)
  end.

Fixpoint decode_le (b : text) : Z :=
  match b with
  | [] => 0
  | c :: b' => Z.of_N (N_of_ascii c) + 256 * decode_le b'
  end.

(** [casted[i] = v] for elements of [w] bytes; outside the block the
    behaviour is undefined. *)
Definition store (w i : nat) (v : Z) (buffer : text) : M text :=
  if (i * w + w <=? length buffer)%nat
  then ret (take (i * w) buffer ++ encode_le w v ++ drop (i * w + w) buffer)
  else undefined.

(** [casted[i]], as an unsigned bit pattern. *)
Definition load (w i : nat) (buffer : text) : M Z :=
  if (i * w + w <=? length buffer)%nat
  then ret (decode_le (take w (drop (i * w) buffer)))
  else undefined.

(** What the C++ standard library and the linked object provide.
    - [mt19937_seed s] is [std::mt19937 generator(s)].
    - [uniform_int_distribution T a b g] is one call [distr(generator)] of a
      [std::uniform_int_distribution<T> distr(a, b)]: the value drawn and
      the generator after the call.  The standard promises a value between
      [a] and [b] when [a <= b] and nothing otherwise; a theorem that needs
      the promise takes it as a hypothesis ([draws_in_range]).
    - [uniform_real_distribution w a b g] is the same for
      [std::uniform_real_distribution] at [float] ([w = 4]) and [double]
      ([w = 8]); the value drawn is given by its bit pattern.
    - [show_real w u] is what [operator<<] prints for the [float] or
      [double] of bit pattern [u].
    - [garbage i k] is byte [k] of block [i] as [malloc] returns it.
    - [EntryModule] maps the contents of the blocks of the buffer table to
      their contents after the call, with what each address that may be
      stored in a tuple buffer points to.
    - [terminate_handler e] is what the default handler of
      [std::terminate] writes to the error stream before it aborts, when
      the exception [e] leaves [main]; the text is the implementation's. *)
Class Platform := {
  mt19937 : Type;
  mt19937_seed : Z -> mt19937;
  uniform_int_distribution : IntT -> Z -> Z -> mt19937 -> Z * mt19937;
  uniform_real_distribution : nat -> Z -> Z -> mt19937 -> Z * mt19937;
  show_real : nat -> Z -> text;
  garbage : nat -> nat -> ascii;
  EntryModule : list text -> list text * (Z -> option text);
  terminate_handler : exception -> text
}.

Section Driver.
Context `{Platform}.

(** [BufferTable]: one block of [malloc] per entry of [buffers_size]. *)
Definition BufferTable (assignment : BufferAssignment) : list text :=
  imap (fun buffer_idx size => map (garbage buffer_idx) (seq 0 (Z.to_nat size)))
       (buffers_size assignment).

(** ** Typed generator *)

(** The [for] loop of [FillIntT] and [FillFloatT]: [todo] iterations are
    left, [i] is the loop counter. *)
Fixpoint fill_loop (distr : mt19937 -> Z * mt19937) (w : nat) (todo i : nat)
  (generator : mt19937) (buffer : text) : M text :=
  match todo with
  | O => ret buffer
  | S todo' =>
      let (v, generator) := distr generator in
      let* buffer := store w i v buffer in
      fill_loop distr w todo' (S i) generator buffer
  end.

Definition FillIntT (T : IntT) (buffer : text) (num_elements : Z) : M text :=
  let generator := mt19937_seed kSeed in
  let distr := uniform_int_distribution T (cast T kLowerBound) (cast T kUpperBound) in
  fill_loop distr (width T) (Z.to_nat num_elements) 0 generator buffer.

Definition FillFloatT (w : nat) (buffer : text) (num_elements : Z) : M text :=
  let generator := mt19937_seed kSeed in
  let distr := uniform_real_distribution w kLowerBound kUpperBound in
  fill_loop distr w (Z.to_nat num_elements) 0 generator buffer.

(** A [switch] over a value that is no enumerator selects no [case]. *)
Definition Fill (verbose : bool) (buffer : text) (shape : ArrayShape) : M text :=
  let num_elements := GetNumElements shape in
  Log verbose (str "Number of elements = " ++ to_string num_elements);;
  let* name := ToString (type shape) in
  Log verbose (str "Shape type = " ++ name);;
  match enumerator (type shape) with
  | Some S16 => FillIntT short buffer num_elements
  | Some S32 => FillIntT int buffer num_elements
  | Some S64 => FillIntT long_long buffer num_elements
  | Some U8 => FillIntT unsigned_char buffer num_elements
  | Some U16 => FillIntT unsigned_short buffer num_elements
  | Some U32 => FillIntT unsigned_int buffer num_elements
  | Some U64 => FillIntT unsigned_long_long buffer num_elements
  | Some F32 => FillFloatT 4 buffer num_elements
  | Some F64 => FillFloatT 8 buffer num_elements
  | Some F16 | Some BF16 | Some C64 | Some C128 =>
      let* name := ToString (type shape) in
      ExitWithMsg (str "Unsupported type: " ++ name)
  | None => ret buffer
  end.

(** ** Typed printer *)

(** The [for] loop of [DisplayT]; [show] is [operator<<] at the element
    type, applied to the bit pattern read. *)
Fixpoint display_loop (show : Z -> text) (w : nat) (num_elements : Z)
  (todo i : nat) (buffer : text) : M unit :=
  match todo with
  | O => ret tt
  | S todo' =>
      let* u := load w i buffer in
      print (cout (show u));;
      (if negb (Z.of_nat i =? num_elements - 1)
       then print (cout (str ", ")) else ret tt);;
      display_loop show w num_elements todo' (S i) buffer
  end.

Definition DisplayT (show : Z -> text) (w : nat) (buffer : text)
  (num_elements : Z) : M unit :=
  display_loop show w num_elements (Z.to_nat num_elements) 0 buffer;;
  print (cout endl).

(** [operator<<] prints an [unsigned char] as the character it is, every
    other integer in decimal. *)
Definition show_int (T : IntT) (u : Z) : text :=
  if (width T =? 1)%nat then [ascii_of_N (Z.to_N u)] else to_string (of_bits T u).

Definition DisplayIntT (T : IntT) := DisplayT (show_int T) (width T).

Definition Display (buffer : text) (shape : ArrayShape) : M unit :=
  let num_elements := GetNumElements shape in
  match enumerator (type shape) with
  | Some S16 => DisplayIntT short buffer num_elements
  | Some S32 => DisplayIntT int buffer num_elements
  | Some S64 => DisplayIntT long_long buffer num_elements
  | Some U8 => DisplayIntT unsigned_char buffer num_elements
  | Some U16 => DisplayIntT unsigned_short buffer num_elements
  | Some U32 => DisplayIntT unsigned_int buffer num_elements
  | Some U64 => DisplayIntT unsigned_long_long buffer num_elements
  | Some F32 => DisplayT (show_real 4) 4 buffer num_elements
  | Some F64 => DisplayT (show_real 8) 8 buffer num_elements
  | Some F16 | Some BF16 | Some C64 | Some C128 =>
      let* name := ToString (type shape) in
      ExitWithMsg (str "Unsupported type: " ++ name)
  | None => ret tt
  end.

(** The [for] loop of the tuple printer; [casted[tuple_idx]] is a pointer
    of 8 bytes read from the tuple's block, [pointee] what it points to. *)
Fixpoint display_elements (pointee : Z -> option text) (buffer : text)
  (size : nat) (tuple_idx : nat) (shapes : list ArrayShape) : M unit :=
  match shapes with
  | [] => ret tt
  | array_shape :: shapes' =>
      let* p := load 8 tuple_idx buffer in
      let* element := of_option (pointee p) in
      Display element array_shape;;
      (if negb (tuple_idx =? size - 1)%nat
       then print (cout (str ", " ++ endl)) else ret tt);;
      display_elements pointee buffer size (S tuple_idx) shapes'
  end.

Definition DisplayTuple (pointee : Z -> option text) (buffer : text)
  (shape : TupleShape) : M unit :=
  match elements shape with
  | [e] => Display buffer e
  | es =>
      print (cout (str "(" ++ endl));;
      display_elements pointee buffer (length es) 0 es;;
      print (cout (str ")" ++ endl))
  end.

(** ** [main] *)

Definition kUsageString : text := str "
Driver for executing an HLO reproducer in object form in order to let OSS
users reproduce the miscompiles.

Expected workflow:

1) In the .hlo file, rename the root computation to `EntryModule`.
2) Run the .hlo file with XLA_FLAGS=--xla_dump_to set, to obtain the .ll file.
3) Compile and link this file with the object file from step (2).
4) Run the resulting file with the buffer assignment table as an argument,
taken from step 2. The driver will print the output to stderr.
5) Compare the output with optimized and non-optimized .ll file from step (2).
If the outputs differ, there is a miscompile.

Run with an environment variable VERBOSE set to see logging.
".

(** [assignment.buffers_shape[idx]]: [operator[]] of [std::map] gives a
    fresh empty [TupleShape] for an absent key.  (It also inserts it; no
    later lookup can tell, since an empty shape stops the run at once.) *)
Definition shape_at (assignment : BufferAssignment) (idx : Z) : TupleShape :=
  default {| elements := [] |} (buffers_shape assignment !! idx).

(** [v[idx]] of a [std::vector] or array: undefined out of bounds. *)
Definition at_index {A} (v : list A) (idx : Z) : M A :=
  if idx <? 0 then undefined else of_option (v !! Z.to_nat idx).

(** The size check of the parameter loop, lines 450-452. *)
Definition CheckNumElements (assignment : BufferAssignment) (param_idx : Z)
  (shape : ArrayShape) : M unit :=
  let* size := at_index (buffers_size assignment) param_idx in
  let* bytes := ByteSize (type shape) in
  Check (GetNumElements shape =? size ÷ bytes)
        (str "Unexpected number of elements").

(** The body of the parameter loop, lines 446-460. *)
Definition FillParameter (verbose : bool) (assignment : BufferAssignment)
  (table : list text) (param_idx : Z) : M (list text) :=
  let tuple_shape := shape_at assignment param_idx in
  Check (length (elements tuple_shape) =? 1)%nat
        (str "Parameters can not be tuples");;
  let* shape := of_option (elements tuple_shape !! 0%nat) in
  CheckNumElements assignment param_idx shape;;
  let* block := at_index table param_idx in
  let* block := Fill verbose block shape in
  let table := <[Z.to_nat param_idx := block]> table in
  (if verbose then
     print (cout (str "Filled parameter buffer for param " ++ to_string param_idx
                  ++ str ": " ++ endl));;
     Display block shape
   else ret tt);;
  ret table.

(** [argv] holds the arguments after the program's name, [fs] the content
    of the files that can be opened. *)
Definition main (verbose : bool) (argv : list text) (fs : text -> option text)
  : M Z :=
  match argv with
  | [] =>
      ExitWithMsg (str "Please provide buffer table filename as an argument, "
                   ++ str "or invoke with --help for usage instructions.")
  | arg :: _ =>
      if text_eqb arg (str "--help") then
        print (cout (kUsageString ++ endl));;
        ret 0
      else
        let* assignment := ParseBufferAssignment verbose (default [] (fs arg)) in
        let table := BufferTable assignment in
        let* table :=
          foldM (FillParameter verbose assignment) table (params_idx assignment) in
        Log verbose (str "Launching module");;
        let (table, pointee) := EntryModule table in
        print (cout (str "Output:" ++ endl));;
        let* shown :=
          TupleShapeToString (shape_at assignment (output_idx assignment)) in
        Log verbose (str "Output shape: " ++ shown);;
        let* block := at_index table (output_idx assignment) in
        DisplayTuple pointee block (shape_at assignment (output_idx assignment));;
        ret 0
  end.

(** An exception that leaves [main] reaches [std::terminate]: the default
    handler writes its message to the error stream and aborts. *)
Definition terminate {A} (m : M A) : M A :=
  match fst m with
  | Throw e => (Throw e, snd m ++ [cerr (terminate_handler e)])
  | _ => m
  end.

(** The process: [main] under the C++ runtime. *)
Definition program (verbose : bool) (argv : list text) (fs : text -> option text)
  : M Z :=
  terminate (main verbose argv fs).

End Driver.

(** ** Notions used to state the properties *)

(** [sizeof] of the C++ type at which [Fill] and [Display] instantiate
    their templates for an enumerator; none for the unsupported ones. *)
Definition sizeof_element (t : PrimitiveType) : option nat :=
  match t with
  | S16 => Some 2 | S32 => Some 4 | S64 => Some 8
  | U8 => Some 1 | U16 => Some 2 | U32 => Some 4 | U64 => Some 8
  | F32 => Some 4 | F64 => Some 8
  | F16 | BF16 | C64 | C128 => None
  end%nat.

(** The integral type of the signed enumerators. *)
Definition signed_type (t : PrimitiveType) : option IntT :=
  match t with
  | S16 => Some short | S32 => Some int | S64 => Some long_long
  | _ => None
  end.

(** The values a distribution yields in [todo] successive calls. *)
Fixpoint drawn {G} (distr : G -> Z * G) (todo : nat) (generator : G) : list Z :=
  match todo with
  | O => []
  | S todo' => let (v, generator) := distr generator in
               v :: drawn distr todo' generator
  end.

(** Their object representations, one after the other. *)
Definition encode_all (w : nat) (vs : list Z) : text :=
  concat (map (encode_le w) vs).

Definition digits10 : text := str "0123456789".

(** The canonical token of an enumerator. *)
Definition token (t : PrimitiveType) : text :=
  nth (enum_value t) primitive_strings [].

(** The value of a run of decimal digits. *)
Definition decimal (d : text) : Z :=
  fold_left (fun acc c => 10 * acc + digit_val c) d 0.

(** The array-shape grammar in the words of the specification: a type
    token, then, between square brackets, the dimensions separated by
    commas, none for a scalar; a dimension is a non-negative decimal
    integer, that is a non-empty run of decimal digits. *)
Definition grammar_dim (d : text) : Prop :=
  d <> [] /\ forallb is_digit d = true.

Definition grammar_array_text (s : text) : Prop :=
  exists t dims,
    Forall grammar_dim dims /\
    s = token t ++ str "[" ++ join (str ",") dims ++ str "]".

(** A dimension of more than one digit that starts with a zero. *)
Definition leading_zero (d : text) : bool :=
  match d with
  | "0"%char :: _ :: _ => true
  | _ => false
  end.

(** The dimensions that come back as they were written: no leading zero,
    and a value that fits an [int]. *)
Definition canonical_dim (d : text) : Prop :=
  grammar_dim d /\ leading_zero d = false /\ decimal d <= INT_MAX.

(** The texts of the grammar all of whose dimensions are canonical. *)
Definition canonical_array_text (s : text) : Prop :=
  exists t dims,
    Forall canonical_dim dims /\
    s = token t ++ str "[" ++ join (str ",") dims ++ str "]".

(** Tuple text with the elements [parts]: the array texts separated by a
    comma and a space, between parentheses. *)
Definition canonical_tuple_text (parts : list text) (s : text) : Prop :=
  Forall canonical_array_text parts /\
  s = str "(" ++ join (str ", ") parts ++ str ")".

(** What [ArrayShapeToString] writes for a type of the enumeration and
    dimensions that are non-negative [int]s. *)
Definition formatted_array_text (s : text) : Prop :=
  exists t ns,
    Forall (fun n => 0 <= n <= INT_MAX) ns /\
    s = token t ++ str "[" ++ join (str ",") (map to_string ns) ++ str "]".

(** The bracket structure the array pattern asks for: a non-empty type
    part without opening square bracket, then, between square brackets
    that end the text, the dimension part, free of line terminators. *)
Definition bracketed (s : text) : Prop :=
  exists t d,
    t <> [] /\ contains "[" t = false /\ forallb (accepts Dot) d = true /\
    s = t ++ str "[" ++ d ++ str "]".

(** Relations between two runs, used to compare a run with VERBOSE set
    and the run without. *)

(** [m] writes nothing at all. *)
Definition pure {A} (m : M A) : Prop := snd m = [].

(** [m] writes nothing to the standard output. *)
Definition silent {A} (m : M A) : Prop := stdout_of (snd m) = [].

(** Two runs that end the same way and are both silent. *)
Definition quiet_pair {A} (m1 m0 : M A) : Prop :=
  fst m1 = fst m0 /\ silent m1 /\ silent m0.

(** Two runs that end the same way and write the same standard output. *)
Definition same_run {A} (m1 m0 : M A) : Prop :=
  fst m1 = fst m0 /\ stdout_of (snd m1) = stdout_of (snd m0).

(** Two runs that end the same way, the second one silent. *)
Definition one_sided {A} (m1 m0 : M A) : Prop :=
  fst m1 = fst m0 /\ silent m0.

(** The product of the dimensions, in unbounded integers. *)
Definition product (dims : list Z) : Z := fold_right Z.mul 1 dims.

(** The values [num_elements] takes in the loop of [GetNumElements],
    in unbounded integers, from the value [acc]. *)
Fixpoint running_products (acc : Z) (dims : list Z) : list Z :=
  match dims with
  | [] => []
  | dim :: dims' => acc * dim :: running_products (acc * dim) dims'
  end.

(** The [n] elements of [w] bytes at the start of a buffer, as unsigned
    bit patterns. *)
Definition elements_of (w n : nat) (buffer : text) : list Z :=
  map (fun i => decode_le (take w (drop (i * w) buffer))) (seq 0 n).

(** A shape whose type is an enumerator and whose dimensions are
    non-negative [int]s. *)
Definition valid_shape (shape : ArrayShape) : Prop :=
  (exists t, type shape = enum_value t) /\
  Forall (fun n => 0 <= n <= INT_MAX) (dimensions shape).

(** Every block of the table has the size declared for its buffer. *)
Definition block_sizes (assignment : BufferAssignment) (table : list text) : Prop :=
  Forall2 (fun block size => length block = Z.to_nat size)
          table (buffers_size assignment).

(** Every key of [buffers_shape] is the index of a declared buffer. *)
Definition shape_keys_ok (a : BufferAssignment) : Prop :=
  forall k, is_Some (buffers_shape a !! k) ->
            0 <= k < Z.of_nat (length (buffers_size a)).

(** The messages of the calls of [ExitWithMsg] and [Check] in the
    driver. *)
Definition diagnostics : list text :=
  [ str "Please provide buffer table filename as an argument, "
    ++ str "or invoke with --help for usage instructions.";
    str "Tuple shape is not supported";
    str "Shape not found";
    str "Unordered allocations in input";
    str "Multiple out-parameters";
    str "Output not set";
    str "Parameters can not be tuples";
    str "Unexpected number of elements";
    str "Unsupported type: f16";
    str "Unsupported type: bf16";
    str "Unsupported type: c64";
    str "Unsupported type: c128" ].

(** The discipline of the error stream without VERBOSE, for the
    statements of the driver: they write to it only when the run ends
    with [exit(1)], and then one of the messages, on one line. *)
Definition diagnostic {A} (m : M A) : Prop :=
  match fst m with
  | Exit n =>
      n = 1 /\
      exists msg, In msg diagnostics /\ contains "010" msg = false /\
                  stderr_of (snd m) = msg ++ endl
  | _ => stderr_of (snd m) = []
  end.

(** What the parser maintains about the output index. *)
Definition output_ok (a : BufferAssignment) : Prop :=
  output_idx a = -1 \/
  (0 <= output_idx a < Z.of_nat (length (buffers_size a)) /\
   is_Some (buffers_shape a !! output_idx a)).

(** [m] writes nothing and does not call [exit]. *)
Definition plain {A} (m : M A) : Prop :=
  snd m = [] /\ forall n, fst m <> Exit n.

(** What the parser maintains about the numbers it records. *)
Definition sizes_ok (a : BufferAssignment) : Prop :=
  (length (buffers_size a) <= 10)%nat /\
  Forall (fun n => 0 <= n <= INT_MAX) (buffers_size a) /\
  Forall (fun n => 0 <= n <= INT_MAX) (params_idx a).

(** The standard output of a run without VERBOSE: the usage text or
    the line "Output:" and what follows when the run returns, nothing or
    that line and what follows otherwise. *)
Definition announced (m : M Z) : Prop :=
  let out := stdout_of (snd m) in
  match fst m with
  | Ret r => r = 0 /\ (out = kUsageString ++ endl \/
                       exists body, out = str "Output:" ++ endl ++ body)
  | _ => out = [] \/ exists body, out = str "Output:" ++ endl ++ body
  end.

Section Notions.
Context `{Platform}.

(** The distribution [Fill] draws from for an enumerator. *)
Definition distribution_of (t : PrimitiveType) : option (mt19937 -> Z * mt19937) :=
  let integral T :=
    Some (uniform_int_distribution T (cast T kLowerBound) (cast T kUpperBound)) in
  match t with
  | S16 => integral short | S32 => integral int | S64 => integral long_long
  | U8 => integral unsigned_char | U16 => integral unsigned_short
  | U32 => integral unsigned_int | U64 => integral unsigned_long_long
  | F32 => Some (uniform_real_distribution 4 kLowerBound kUpperBound)
  | F64 => Some (uniform_real_distribution 8 kLowerBound kUpperBound)
  | F16 | BF16 | C64 | C128 => None
  end.

(** [operator<<] at the C++ type of an enumerator, on a bit pattern. *)
Definition show_element (t : PrimitiveType) : Z -> text :=
  match t with
  | S16 => show_int short | S32 => show_int int | S64 => show_int long_long
  | U8 => show_int unsigned_char | U16 => show_int unsigned_short
  | U32 => show_int unsigned_int | U64 => show_int unsigned_long_long
  | F32 => show_real 4 | F64 => show_real 8
  | F16 | BF16 | C64 | C128 => fun _ => []
  end.

(** What [Fill] logs before it writes. *)
Definition fill_logs (verbose : bool) (shape : ArrayShape) (name : text)
  : list event :=
  snd (Log verbose (str "Number of elements = " ++ to_string (GetNumElements shape)))
  ++ snd (Log verbose (str "Shape type = " ++ name)).

(** What VERBOSE adds to the standard output for the parameters
    [params], filled in a table that is [table] at first: for each
    parameter filled, the line that names it and the display of its
    buffer as it is in the table after the fill; nothing from the first
    parameter on at which the run stops. *)
Fixpoint parameter_dump (assignment : BufferAssignment) (table : list text)
  (params : list Z) : text :=
  match params with
  | [] => []
  | param_idx :: params' =>
      match fst (FillParameter false assignment table param_idx),
            elements (shape_at assignment param_idx) with
      | Ret table', shape :: _ =>
          (str "Filled parameter buffer for param " ++ to_string param_idx
           ++ str ": " ++ endl)
          ++ stdout_of (snd (Display (nth (Z.to_nat param_idx) table' []) shape))
          ++ parameter_dump assignment table' params'
      | _, _ => []
      end
  end.

(** The dump of a run: that of the parameters of the assignment read
    from the file, when there is one. *)
Definition verbose_dump (argv : list text) (fs : text -> option text) : text :=
  match argv with
  | [] => []
  | arg :: _ =>
      if text_eqb arg (str "--help") then []
      else
        match fst (ParseBufferAssignment false (default [] (fs arg))) with
        | Ret assignment =>
            parameter_dump assignment (BufferTable assignment)
                           (params_idx assignment)
        | _ => []
        end
  end.

End Notions.

(** ** A platform to run the model on

    A linear congruential engine; the integer distribution takes the
    remainder of the engine's state by the width of the range, computed as
    libstdc++ does in the unsigned arithmetic of the element type, so that
    it is also defined when the bounds are the wrong way round. *)

Definition lcg (g : Z) : Z := (g * 1103515245 + 12345) mod 2 ^ 31.

Definition sample_uniform_int (T : IntT) (a b g : Z) : Z * Z :=
  (if a <=? b then a + g mod (b - a + 1)
   else cast T (a + g mod ((b - a) mod 2 ^ bits T + 1)),
   lcg g).

(** The message of libstdc++ for an exception thrown by [std::stoi]. *)
Definition sample_terminate_handler (e : exception) : text :=
  str "terminate called after throwing an instance of 'std::"
  ++ match e with
     | invalid_argument => str "invalid_argument"
     | out_of_range => str "out_of_range"
     end
  ++ str "'" ++ endl ++ str "  what():  stoi" ++ endl.

Definition sample_platform : Platform := {|
  mt19937 := Z;
  mt19937_seed := fun s => s;
  uniform_int_distribution := sample_uniform_int;
  uniform_real_distribution := fun w a b g => (g mod 2 ^ (8 * Z.of_nat w), lcg g);
  show_real := fun w u => str "real:" ++ to_string u;
  garbage := fun _ _ => "000"%char;
  EntryModule := fun table => (table, fun _ => None);
  terminate_handler := sample_terminate_handler
|}.

(** The promise of [std::uniform_int_distribution]. *)
Definition draws_in_range (P : Platform) : Prop :=
  forall T a b g, a <= b ->
    a <= fst (uniform_int_distribution T a b g) <= b.

(** ** Example inputs *)

Definition three_allocations : text := str
"allocation 0: 0x27017c46b600, size 4, constant:
allocation 1: 0x27017c46b6b0, size 8, parameter 0, shape |s16[4]| at ShapeIndex {}:
allocation 2: 0x27017c46b760, size 8, output shape is |s16[4]|, maybe-live-out:
".

Definition parameter_seven : text := str
"allocation 0: 0x27017c46b600, size 8, output shape is |s16[4]|, maybe-live-out:
allocation 1: 0x27017c46b6b0, size 8, parameter 7, shape |s16[4]| at ShapeIndex {}:
".

Definition eleven_allocations : text := str
"allocation 0: 0x27017c46b600, size 4, output shape is |f32[]|, maybe-live-out:
allocation 1: 0x27017c46b610, size 4, constant:
allocation 2: 0x27017c46b620, size 4, constant:
allocation 3: 0x27017c46b630, size 4, constant:
allocation 4: 0x27017c46b640, size 4, constant:
allocation 5: 0x27017c46b650, size 4, constant:
allocation 6: 0x27017c46b660, size 4, constant:
allocation 7: 0x27017c46b670, size 4, constant:
allocation 8: 0x27017c46b680, size 4, constant:
allocation 9: 0x27017c46b690, size 4, constant:
allocation 10: 0x27017c46b6a0, size 4, thread-local:
".

Definition allocation_ten : text :=
  str "allocation 10: 0x27017c46b6a0, size 4, thread-local:".

Definition both_markers_line : text :=
  str "allocation 0: 0x27017c46b600, size 8, output shape is |s16[4]|, parameter 0, shape |s32[2]| at ShapeIndex {}:".

Definition remainder_file : text := str
"allocation 0: 0x27017c46b600, size 9, parameter 0, shape |f32[2]| at ShapeIndex {}:
allocation 1: 0x27017c46b6b0, size 4, output shape is |f32[]|, maybe-live-out:
".

Definition verbose_file : text := str
"allocation 0: 0x27017c46b600, size 8, parameter 0, shape |s32[2]| at ShapeIndex {}:
allocation 1: 0x27017c46b6b0, size 8, output shape is |s16[4]|, maybe-live-out:
".

Definition annotation_lines : text := str
"BufferAssignment:
 value: <3 parameter @0> (size=32768,offset=0): f32[256,32]{1,0}
 value: <5 reduce @0> (size=128,offset=0): f32[32]{0}
".

Definition second_output_postfix : text :=
  str "output shape is |f32[]|, thread-local:".

Definition allocation_two : text :=
  str "allocation 2: 0x27017c46b760, size 4, constant:".

Definition nested_tuple : text := str "((f32[2], s32[]), u8[4])".

(** * Properties *)

(** ** The monad *)

Lemma stdout_of_app t1 t2 : stdout_of (t1 ++ t2) = stdout_of t1 ++ stdout_of t2.
Proof.
  induction t1 as [|[s|s] t1 IH]; simpl; [reflexivity| |assumption].
  now rewrite IH, <- app_assoc.
Qed.

Lemma stderr_of_app t1 t2 : stderr_of (t1 ++ t2) = stderr_of t1 ++ stderr_of t2.
Proof.
  induction t1 as [|[s|s] t1 IH]; simpl; [reflexivity|assumption|].
  now rewrite IH, <- app_assoc.
Qed.

Lemma bind_ret_l {A B} (a : A) (f : A -> M B) : bind (ret a) f = f a.
Proof. unfold bind, ret. now destruct (f a). Qed.

Lemma bind_Ret {A B} (m : M A) (f : A -> M B) a t :
  m = (Ret a, t) -> bind m f = (fst (f a), t ++ snd (f a)).
Proof. intros ->. unfold bind. now destruct (f a). Qed.

Lemma fst_bind {A B} (m : M A) (f : A -> M B) :
  fst (bind m f) =
  match fst m with
  | Ret a => fst (f a)
  | Exit n => Exit n
  | Throw e => Throw e
  | Undefined => Undefined
  end.
Proof. destruct m as [[a|n|e|] t]; simpl; try reflexivity. now destruct (f a). Qed.

Lemma snd_bind {A B} (m : M A) (f : A -> M B) :
  snd (bind m f) =
  match fst m with
  | Ret a => snd m ++ snd (f a)
  | _ => snd m
  end.
Proof. destruct m as [[a|n|e|] t]; simpl; try reflexivity. now destruct (f a). Qed.

Lemma fst_Log verbose msg : fst (Log verbose msg) = Ret tt.
Proof. now destruct verbose. Qed.

Lemma stdout_Log verbose msg : stdout_of (snd (Log verbose msg)) = [].
Proof. now destruct verbose. Qed.

Lemma bind_Ret_inv {A B} (m : M A) (f : A -> M B) b :
  fst (bind m f) = Ret b -> exists a, fst m = Ret a /\ fst (f a) = Ret b.
Proof. rewrite fst_bind. destruct (fst m); try discriminate. eauto. Qed.

Lemma foldM_invariant {A S} (f : S -> A -> M S) (I : S -> Prop) l : forall s s',
  (forall s x s', I s -> fst (f s x) = Ret s' -> I s') ->
  I s -> fst (foldM f s l) = Ret s' -> I s'.
Proof.
  induction l as [|x l IH]; intros s s' Hf Hs Hr.
  - cbn in Hr. now injection Hr as <-.
  - cbn [foldM] in Hr. apply bind_Ret_inv in Hr as (s1 & H1 & Hr).
    eapply IH; [exact Hf| |exact Hr]. eapply Hf; eauto.
Qed.

(** ** The enumeration *)

Lemma enumerator_enum_value t : enumerator (enum_value t) = Some t.
Proof. now destruct t. Qed.

Lemma ToString_enum_value t :
  exists name, ToString (enum_value t) = ret name /\
               nth_error primitive_strings (enum_value t) = Some name.
Proof. destruct t; eexists; split; reflexivity. Qed.

(** ** Allocation lines whose index has two digits *)

(** C5 (code bug).  The allocation pattern takes a single digit for the
    index.  The line of allocation 10 is therefore not recognised: whatever
    the assignment read so far, [ParseLine] returns it unchanged, without
    appending the size and without a diagnostic.  A file of eleven
    allocations in ascending order, 0 to 10, is parsed as ten buffers. *)
Theorem allocation_ten_is_skipped :
  regex_search allocation_line_r allocation_ten = None /\
  (forall verbose assignment,
      ParseLine verbose assignment allocation_ten = ret assignment) /\
  exists assignment,
    ParseBufferAssignment false eleven_allocations = ret assignment /\
    length (buffers_size assignment) = 10%nat.
Proof.
  assert (Hno : regex_search allocation_line_r allocation_ten = None)
    by (vm_compute; reflexivity).
  split; [exact Hno|]. split.
  - intros verbose assignment. unfold ParseLine. now rewrite Hno.
  - eexists. split; [vm_compute; reflexivity|reflexivity].
Qed.

(** ** Parameter numbers stored as buffer indices *)

(** C4 (code bug).  [params_idx] receives the number of the parameter, not
    the index of its allocation.  With parameter 0 in allocation 1, the
    parser accepts the file and stores 0 in [params_idx], an index without
    an entry in [buffers_shape]; with a parameter numbered 7 in a file of
    two allocations it stores 7, which is no index into [buffers_size]. *)
Theorem params_idx_holds_parameter_numbers :
  (exists assignment,
      ParseBufferAssignment false three_allocations = ret assignment /\
      params_idx assignment = [0] /\
      buffers_shape assignment !! 0 = None /\
      is_Some (buffers_shape assignment !! 1)) /\
  (exists assignment,
      ParseBufferAssignment false parameter_seven = ret assignment /\
      params_idx assignment = [7] /\
      length (buffers_size assignment) = 2%nat).
Proof.
  split; eexists; (split; [vm_compute; reflexivity|]).
  - repeat split. eexists. reflexivity.
  - split; reflexivity.
Qed.

(** Splits a hypothesis that a sequence of steps returned into one
    hypothesis for each step. *)
Ltac bind_inv H :=
  repeat match type of H with
         | fst (bind _ _) = Ret _ =>
             let a := fresh "a" in
             let Ha := fresh "Ha" in
             apply bind_Ret_inv in H as (a & Ha & H)
         end.

Lemma ParseOutputMarker_ok verbose idx postfix a a' :
  0 <= idx < Z.of_nat (length (buffers_size a)) ->
  output_ok a ->
  fst (ParseOutputMarker verbose idx postfix a) = Ret a' ->
  output_ok a' /\ buffers_size a' = buffers_size a.
Proof.
  intros Hidx Hok Hr. unfold ParseOutputMarker in Hr.
  destruct (regex_search output_r postfix) as [om|].
  - bind_inv Hr. cbn in Hr. injection Hr as <-. split; [|reflexivity].
    right. cbn. split; [exact Hidx|]. rewrite lookup_insert_eq. eauto.
  - cbn in Hr. injection Hr as <-. auto.
Qed.

Lemma ParseParameterMarker_ok verbose idx postfix a a' :
  output_ok a ->
  fst (ParseParameterMarker verbose idx postfix a) = Ret a' ->
  output_ok a' /\ buffers_size a' = buffers_size a.
Proof.
  intros Hok Hr. unfold ParseParameterMarker in Hr.
  destruct (regex_search parameter_r postfix) as [pm|].
  - bind_inv Hr. cbn in Hr. injection Hr as <-. split; [|reflexivity].
    destruct Hok as [Hno|[Hin Hsh]]; [now left|right]. cbn.
    split; [exact Hin|]. apply lookup_insert_is_Some.
    destruct (decide (idx = output_idx a)); auto.
  - cbn in Hr. injection Hr as <-. auto.
Qed.

Lemma ParseLine_ok verbose a line a' :
  output_ok a -> fst (ParseLine verbose a line) = Ret a' -> output_ok a'.
Proof.
  intros Hok Hr. unfold ParseLine in Hr.
  destruct (regex_search allocation_line_r line) as [m|].
  2:{ cbn in Hr. now injection Hr as <-. }
  apply bind_Ret_inv in Hr as (u0 & _ & Hr).
  apply bind_Ret_inv in Hr as (idx & _ & Hr).
  apply bind_Ret_inv in Hr as (size & _ & Hr).
  apply bind_Ret_inv in Hr as (u1 & _ & Hr).
  apply bind_Ret_inv in Hr as (u2 & Hcheck & Hr).
  apply bind_Ret_inv in Hr as (a1 & Hout & Hr).
  unfold Check in Hcheck.
  destruct (Z.eqb_spec idx (Z.of_nat (length (buffers_size a)))) as [->|];
    [|discriminate Hcheck].
  set (a0 := set_buffers_size a (buffers_size a ++ [size])) in *.
  assert (Hlen : length (buffers_size a0) = S (length (buffers_size a)))
    by (cbn; rewrite length_app; cbn; lia).
  assert (Hok0 : output_ok a0).
  { destruct Hok as [Hno|[Hin Hsh]]; [now left|right]. cbn [output_idx a0 set_buffers_size].
    rewrite Hlen. split; [lia|exact Hsh]. }
  apply ParseOutputMarker_ok in Hout as [Hok1 _]; [|rewrite Hlen; lia|exact Hok0].
  now apply ParseParameterMarker_ok in Hr as [Hok2 _].
Qed.

(** The output half of the invariant: an assignment the parser returns
    has one output index, which is an index into [buffers_size] and has an
    entry in [buffers_shape]. *)
Lemma output_idx_is_valid verbose infile a :
  fst (ParseBufferAssignment verbose infile) = Ret a ->
  0 <= output_idx a < Z.of_nat (length (buffers_size a)) /\
  is_Some (buffers_shape a !! output_idx a).
Proof.
  intros Hr. unfold ParseBufferAssignment in Hr.
  apply bind_Ret_inv in Hr as (a0 & Hfold & Hr).
  apply bind_Ret_inv in Hr as (u & Hcheck & Hr).
  cbn in Hr. injection Hr as <-.
  assert (Hok : output_ok a0).
  { assert (H0 : output_ok empty_assignment) by (left; reflexivity).
    exact (foldM_invariant (ParseLine verbose) output_ok _ _ _
                           (ParseLine_ok verbose) H0 Hfold). }
  unfold Check in Hcheck. destruct Hok as [Hno|Hok]; [|exact Hok].
  rewrite Hno in Hcheck. discriminate Hcheck.
Qed.

(** ** Types without a numeric representation *)

Section Unsupported.
Context `{Platform}.

(** C7.  For a shape of type F16, BF16, C64 or C128, [Fill] and [Display]
    end the run with [exit(1)]; the last (for [Display], the only) thing
    written is the line "Unsupported type: " followed by the token of the
    type, on the error stream; nothing is written to the standard output,
    and [Fill] does not hand back a buffer. *)
Theorem unsupported_type_aborts (verbose : bool) (buffer : text)
  (t : PrimitiveType) (dims : list Z) :
  In t [F16; BF16; C64; C128] ->
  let shape := {| type := enum_value t; dimensions := dims |} in
  exists name,
    nth_error primitive_strings (enum_value t) = Some name /\
    (exists logs,
        Fill verbose buffer shape
        = (Exit 1, logs ++ [cerr (str "Unsupported type: " ++ name ++ endl)]) /\
        stdout_of logs = []) /\
    Display buffer shape
    = (Exit 1, [cerr (str "Unsupported type: " ++ name ++ endl)]).
Proof.
  intros Hin shape.
  destruct (ToString_enum_value t) as (name & Hname & Hnth).
  exists name. split; [exact Hnth|].
  assert (Hsw : enumerator (type shape) = Some t) by apply enumerator_enum_value.
  split.
  - exists (snd (Log verbose (str "Number of elements = "
                              ++ to_string (GetNumElements shape)))
            ++ snd (Log verbose (str "Shape type = " ++ name))).
    split.
    + unfold Fill. rewrite Hsw. change (type shape) with (enum_value t).
      rewrite Hname.
      destruct verbose; simpl in Hin;
        destruct Hin as [<-|[<-|[<-|[<-|[]]]]]; reflexivity.
    + rewrite stdout_of_app, !stdout_Log. reflexivity.
  - unfold Display. rewrite Hsw. change (type shape) with (enum_value t).
    rewrite Hname.
    simpl in Hin; destruct Hin as [<-|[<-|[<-|[<-|[]]]]]; reflexivity.
Qed.

End Unsupported.

(** The claim at a [c64[4]] parameter, on the sample platform. *)
Lemma unsupported_type_aborts_witness :
  In C64 [F16; BF16; C64; C128] /\
  @Display sample_platform (str "0123") {| type := 11; dimensions := [4] |}
  = (Exit 1, [cerr (str "Unsupported type: c64" ++ endl)]).
Proof.
  split; [simpl; tauto|].
  destruct (@unsupported_type_aborts sample_platform false (str "0123") C64 [4])
    as (name & Hname & _ & HD); [simpl; tauto|].
  injection Hname as <-. exact HD.
Defined.

(** ** The typed generator *)

Lemma length_encode_le w v : length (encode_le w v) = w.
Proof. revert v; induction w as [|w IH]; intros v; simpl; [reflexivity|now rewrite IH]. Qed.

Lemma length_encode_all w vs : length (encode_all w vs) = (length vs * w)%nat.
Proof.
  unfold encode_all. induction vs as [|v vs IH]; simpl; [reflexivity|].
  rewrite length_app, length_encode_le, IH. reflexivity.
Qed.

Lemma decode_encode_le w v : decode_le (encode_le w v) = v mod 2 ^ (8 * Z.of_nat w).
Proof.
  revert v; induction w as [|w IH]; intros v.
  - simpl. now rewrite Z.mod_1_r.
  - cbn [encode_le decode_le]. rewrite IH.
    rewrite N_ascii_embedding.
    2:{ assert (0 <= v mod 256 < 256) by (apply Z.mod_pos_bound; lia). lia. }
    rewrite Z2N.id by (apply Z.mod_pos_bound; lia).
    replace (8 * Z.of_nat (S w)) with (8 + 8 * Z.of_nat w) by lia.
    rewrite Z.pow_add_r by lia.
    change (2 ^ 8) with 256.
    rewrite Z.rem_mul_r by lia. reflexivity.
Qed.

Lemma length_drawn {G} (distr : G -> Z * G) todo g : length (drawn distr todo g) = todo.
Proof.
  revert g; induction todo as [|k IH]; intros g; simpl; [reflexivity|].
  destruct (distr g) as [v g']. simpl. now rewrite IH.
Qed.

Lemma drawn_bounds {G} (distr : G -> Z * G) a b :
  (forall g, a <= fst (distr g) <= b) ->
  forall todo g v, In v (drawn distr todo g) -> a <= v <= b.
Proof.
  intros Hd todo; induction todo as [|k IH]; intros g v; simpl; [tauto|].
  pose proof (Hd g) as Hg. destruct (distr g) as [x g']. simpl in *.
  intros [<-|Hin]; [exact Hg|eauto].
Qed.

Section FillLoop.
Context `{Platform}.

Lemma store_ok w i v buffer :
  (i * w + w <= length buffer)%nat ->
  store w i v buffer
  = ret (take (i * w) buffer ++ encode_le w v ++ drop (i * w + w) buffer).
Proof.
  intros Hle. unfold store.
  destruct (Nat.leb_spec (i * w + w) (length buffer)); [reflexivity|lia].
Qed.

Lemma fill_loop_spec distr w todo : forall i g buffer,
  ((i + todo) * w <= length buffer)%nat ->
  fill_loop distr w todo i g buffer
  = ret (take (i * w) buffer ++ encode_all w (drawn distr todo g)
         ++ drop ((i + todo) * w) buffer).
Proof.
  induction todo as [|k IH]; intros i g buffer Hle.
  - simpl. rewrite Nat.add_0_r. unfold encode_all; simpl. now rewrite take_drop.
  - simpl. destruct (distr g) as [v g'].
    rewrite store_ok by lia. rewrite bind_ret_l.
    set (b' := take (i * w) buffer ++ encode_le w v ++ drop (i * w + w) buffer).
    assert (Hlen : length b' = length buffer).
    { unfold b'. rewrite !length_app, length_take, length_encode_le, length_drop. lia. }
    rewrite IH by (rewrite Hlen; lia).
    f_equal. unfold encode_all. cbn [map concat]. fold (encode_all w (drawn distr k g')).
    assert (HA : length (take (i * w) buffer) = (i * w)%nat)
      by (rewrite length_take; lia).
    replace (take (S i * w) b') with (take (i * w) buffer ++ encode_le w v).
    2:{ unfold b'. rewrite app_assoc.
        rewrite take_app_length'; [reflexivity|].
        rewrite length_app, HA, length_encode_le. lia. }
    replace (drop ((S i + k) * w) b') with (drop ((i + S k) * w) buffer).
    2:{ unfold b'. rewrite app_assoc.
        rewrite drop_app_ge by (rewrite length_app, HA, length_encode_le; lia).
        rewrite length_app, HA, length_encode_le, drop_drop. f_equal. lia. }
    now rewrite <- !app_assoc.
Qed.

End FillLoop.

Section FillSpec.
Context `{Platform}.

Lemma Fill_spec verbose t dims w distr buffer :
  sizeof_element t = Some w ->
  distribution_of t = Some distr ->
  let shape := {| type := enum_value t; dimensions := dims |} in
  let n := Z.to_nat (GetNumElements shape) in
  (n * w <= length buffer)%nat ->
  exists name,
    nth_error primitive_strings (enum_value t) = Some name /\
    Fill verbose buffer shape
    = (Ret (encode_all w (drawn distr n (mt19937_seed kSeed)) ++ drop (n * w) buffer),
       fill_logs verbose shape name).
Proof.
  intros Hw Hd shape n Hle.
  destruct (ToString_enum_value t) as (name & Hname & Hnth).
  exists name. split; [exact Hnth|].
  unfold Fill, fill_logs. change (type shape) with (enum_value t).
  rewrite Hname, enumerator_enum_value.
  fold n.
  assert (Hloop : fill_loop distr w n 0 (mt19937_seed kSeed) buffer
          = ret (encode_all w (drawn distr n (mt19937_seed kSeed)) ++ drop (n * w) buffer)).
  { rewrite fill_loop_spec by (simpl; lia). reflexivity. }
  destruct t; try discriminate Hw;
    injection Hw as <-; injection Hd as <-;
    unfold FillIntT, FillFloatT; cbn [width short int long_long unsigned_char
      unsigned_short unsigned_int unsigned_long_long]; fold n;
    rewrite Hloop; destruct verbose; cbn [Log bind print ret snd app];
    rewrite ?app_nil_r; reflexivity.
Qed.

End FillSpec.

Lemma element_of_encode_all w vs rest : forall i v,
  vs !! i = Some v ->
  take w (drop (i * w) (encode_all w vs ++ rest)) = encode_le w v.
Proof.
  induction vs as [|x vs IH]; intros i v Hi; [discriminate|].
  unfold encode_all in *. cbn [map concat]. rewrite <- app_assoc.
  destruct i as [|i]; simpl in Hi.
  - injection Hi as ->. change (0 * w)%nat with 0%nat. rewrite drop_0.
    rewrite take_app_length'; [reflexivity|now rewrite length_encode_le].
  - replace (S i * w)%nat with (length (encode_le w x) + i * w)%nat
      by (rewrite length_encode_le; lia).
    rewrite <- drop_drop, drop_app_length. now apply IH.
Qed.

Lemma load_encode_all w vs rest i v :
  vs !! i = Some v ->
  load w i (encode_all w vs ++ rest) = ret (v mod 2 ^ (8 * Z.of_nat w)).
Proof.
  intros Hi. unfold load.
  assert (i < length vs)%nat by (eapply lookup_lt_Some; eauto).
  destruct (Nat.leb_spec (i * w + w) (length (encode_all w vs ++ rest))) as [_|Hlt].
  - now rewrite (element_of_encode_all _ _ _ _ _ Hi), decode_encode_le.
  - rewrite length_app, length_encode_all in Hlt. nia.
Qed.

Lemma of_bits_small T t v :
  signed_type t = Some T ->
  kLowerBound <= v <= kUpperBound ->
  of_bits T (v mod 2 ^ bits T) = v.
Proof.
  unfold kLowerBound, kUpperBound. intros HT Hv.
  assert (Hcases : v < 0 \/ 0 <= v) by lia.
  destruct t; try discriminate HT; injection HT as <-;
    unfold of_bits, bits; cbn [is_signed width andb];
    (destruct Hcases as [Hneg|Hpos];
     [ rewrite <- (Z.mod_add v 1) by (cbv; discriminate);
       rewrite Z.mod_small by (simpl; lia);
       match goal with |- context [?a <=? ?b] => destruct (Z.leb_spec a b) end;
       simpl in *; lia
     | rewrite Z.mod_small by (simpl; lia);
       match goal with |- context [?a <=? ?b] => destruct (Z.leb_spec a b) end;
       simpl in *; lia ]).
Qed.

Lemma sizeof_has_distribution `{Platform} t w :
  sizeof_element t = Some w -> exists distr, distribution_of t = Some distr.
Proof. destruct t; try discriminate; intros _; eexists; reflexivity. Qed.

Section Generator.
Context {platform : Platform}.

(** C6.  Every call of [Fill] seeds a generator of its own with 42.  For
    a shape of a supported type, of [count] elements of [w] bytes, and a
    buffer that holds them, [Fill] writes over the first [count * w]
    bytes the representations of the values the distribution of the
    type yields in [count] successive draws from a generator freshly
    seeded with 42, and leaves the bytes behind them as they were.  So
    two calls on two buffers write the same bytes, and a second call on
    the buffer of the first writes them again: no state of the
    generator enters or leaves a call. *)
Theorem Fill_reseeds_every_call (verbose : bool) (t : PrimitiveType)
  (dims : list Z) (w : nat) (distr : mt19937 -> Z * mt19937) (b1 b2 : text) :
  sizeof_element t = Some w ->
  distribution_of t = Some distr ->
  let shape := {| type := enum_value t; dimensions := dims |} in
  let count := Z.to_nat (GetNumElements shape) in
  let values := drawn distr count (mt19937_seed 42) in
  (count * w <= length b1)%nat -> (count * w <= length b2)%nat ->
  length (encode_all w values) = (count * w)%nat /\
  exists logs,
    Fill verbose b1 shape
    = (Ret (encode_all w values ++ drop (count * w) b1), logs) /\
    Fill verbose b2 shape
    = (Ret (encode_all w values ++ drop (count * w) b2), logs) /\
    Fill verbose (encode_all w values ++ drop (count * w) b1) shape
    = (Ret (encode_all w values ++ drop (count * w) b1), logs).
Proof.
  intros Hw Hd shape count values H1 H2.
  assert (Henc : length (encode_all w values) = (count * w)%nat)
    by (unfold values; rewrite length_encode_all, length_drawn; reflexivity).
  split; [exact Henc|].
  destruct (Fill_spec verbose t dims w distr b1 Hw Hd H1) as (name & Hname & HF1).
  destruct (Fill_spec verbose t dims w distr b2 Hw Hd H2) as (name' & Hname' & HF2).
  assert (name' = name) by congruence. subst name'.
  exists (fill_logs verbose shape name).
  split; [exact HF1|]. split; [exact HF2|].
  destruct (Fill_spec verbose t dims w distr
                      (encode_all w values ++ drop (count * w) b1) Hw Hd)
    as (name3 & Hname3 & HF).
  { fold shape. fold count. rewrite length_app, length_drop, Henc. lia. }
  assert (name3 = name) by congruence. subst name3.
  fold shape in HF. fold count in HF. change kSeed with 42 in HF.
  fold values in HF. rewrite HF. f_equal. f_equal. f_equal.
  rewrite drop_app_length'; [reflexivity|now rewrite Henc].
Qed.

(** For the signed types, on a platform that keeps the promise of the
    integer distribution, every element written lies between the bounds. *)
Lemma Fill_signed_in_range (verbose : bool) (t : PrimitiveType) (T : IntT)
  (dims : list Z) (buffer : text) :
  draws_in_range platform ->
  signed_type t = Some T ->
  let shape := {| type := enum_value t; dimensions := dims |} in
  let n := Z.to_nat (GetNumElements shape) in
  (n * width T <= length buffer)%nat ->
  exists r logs,
    Fill verbose buffer shape = (Ret r, logs) /\
    forall i, (i < n)%nat ->
      exists u, load (width T) i r = ret u /\
                kLowerBound <= of_bits T u <= kUpperBound.
Proof.
  intros Hrange HT shape n Hle.
  assert (Hw : sizeof_element t = Some (width T))
    by (destruct t; try discriminate HT; injection HT as <-; reflexivity).
  assert (Hd : distribution_of t
               = Some (uniform_int_distribution T (cast T kLowerBound)
                                                (cast T kUpperBound)))
    by (destruct t; try discriminate HT; injection HT as <-; reflexivity).
  destruct (Fill_spec verbose t dims _ _ buffer Hw Hd Hle) as (name & _ & HF).
  eexists _, _. split; [exact HF|].
  intros i Hi.
  set (distr := uniform_int_distribution T (cast T kLowerBound) (cast T kUpperBound)).
  destruct (lookup_lt_is_Some_2 (drawn distr n (mt19937_seed kSeed)) i) as [v Hv];
    [now rewrite length_drawn|].
  exists (v mod 2 ^ bits T). split.
  - unfold bits. fold shape. fold n. now apply load_encode_all.
  - assert (Hcast : cast T kLowerBound = kLowerBound /\ cast T kUpperBound = kUpperBound)
      by (destruct t; try discriminate HT; injection HT as <-; split; reflexivity).
    destruct Hcast as [Hlo Hhi].
    assert (Hv' : kLowerBound <= v <= kUpperBound).
    { apply (drawn_bounds distr kLowerBound kUpperBound) with (todo := n)
                                                               (g := mt19937_seed kSeed).
      - intros g. unfold distr. rewrite Hlo, Hhi. apply Hrange.
        unfold kLowerBound, kUpperBound. lia.
      - apply list_elem_of_In. eapply list_elem_of_lookup_2. exact Hv. }
    now rewrite (of_bits_small T t v HT Hv').
Qed.

End Generator.

(** The property at [s32[2]] and two buffers of different content and
    size: both receive the two draws [-58] and [-46] of the sample
    platform. *)
Lemma Fill_reseeds_every_call_witness :
  let shape := {| type := enum_value S32; dimensions := [2] |} in
  fst (@Fill sample_platform true (str "abcdefgh") shape)
  = Ret (encode_all 4 [-58; -46]) /\
  fst (@Fill sample_platform true (str "ABCDEFGH12") shape)
  = Ret (encode_all 4 [-58; -46] ++ str "12").
Proof.
  intros shape.
  destruct (@Fill_reseeds_every_call sample_platform true S32 [2] 4
              (uniform_int_distribution int (cast int kLowerBound)
                                        (cast int kUpperBound))
              (str "abcdefgh") (str "ABCDEFGH12"))
    as (_ & logs & H1 & H2 & _);
    [reflexivity|reflexivity|vm_compute; lia|vm_compute; lia|].
  fold shape in H1, H2. rewrite H1, H2. split; reflexivity.
Defined.

Lemma sample_draws_in_range : draws_in_range sample_platform.
Proof.
  intros T a b g Hab. simpl. unfold sample_uniform_int. simpl.
  destruct (Z.leb_spec a b); [|lia].
  pose proof (Z.mod_pos_bound g (b - a + 1)). lia.
Qed.

(** C9 (code bug).  [FillIntT] passes [kLowerBound] to a distribution over
    the element type.  At [unsigned int] the bound -100 converts to
    4294967196, above the upper bound 100, so the distribution is asked for
    a range the standard does not define.  On the sample platform, which
    keeps the promise of the distribution wherever the standard makes it,
    filling a [u32[1]] buffer writes 4294967238, outside [-100, 100]. *)
Theorem Fill_unsigned_out_of_range :
  cast unsigned_int kLowerBound = 4294967196 /\
  cast unsigned_int kUpperBound = 100 /\
  draws_in_range sample_platform /\
  exists r,
    @Fill sample_platform false (str "0000")
          {| type := enum_value U32; dimensions := [1] |} = ret r /\
    load 4 0 r = ret 4294967238 /\
    ~ (kLowerBound <= of_bits unsigned_int 4294967238 <= kUpperBound).
Proof.
  split; [reflexivity|]. split; [reflexivity|].
  split; [exact sample_draws_in_range|].
  eexists. split; [vm_compute; reflexivity|].
  split; [vm_compute; reflexivity|].
  vm_compute. intros [_ Hle]. apply Hle. reflexivity.
Qed.

(** ** Regular expressions *)

Lemma pushes_Some u g : pushes u (Some g) = Some (rev u ++ g).
Proof.
  revert g; induction u as [|c u IH]; intros g; [reflexivity|].
  simpl. rewrite IH. now rewrite <- app_assoc.
Qed.

Lemma exec_star whole k r s cur caps :
  exec whole (Star k :: r) s cur caps =
  match s with
  | c :: s' =>
      if accepts k c then
        match exec whole (Star k :: r) s' (push c cur) caps with
        | Some m => Some m
        | None => exec whole r s cur caps
        end
      else exec whole r s cur caps
  | [] => exec whole r s cur caps
  end.
Proof. destruct s; reflexivity. Qed.

Lemma exec_one whole k r s cur caps :
  exec whole (One k :: r) s cur caps =
  match s with
  | c :: s' => if accepts k c then exec whole r s' (push c cur) caps else None
  | [] => None
  end.
Proof. reflexivity. Qed.

Lemma exec_open whole r s cur caps :
  exec whole (Open :: r) s cur caps = exec whole r s (Some []) caps.
Proof. reflexivity. Qed.

Lemma exec_close whole r s cur caps :
  exec whole (Close :: r) s cur caps
  = exec whole r s None (rev (default [] cur) :: caps).
Proof. reflexivity. Qed.

Lemma exec_end s cur caps :
  exec true [] s cur caps = match s with [] => Some (rev caps) | _ => None end.
Proof. reflexivity. Qed.

(** What a successful star consumed is made of accepted characters. *)
Lemma exec_star_inv whole k r caps m : forall s cur,
  exec whole (Star k :: r) s cur caps = Some m ->
  exists u v, s = u ++ v /\ forallb (accepts k) u = true /\
              exec whole r v (pushes u cur) caps = Some m.
Proof.
  induction s as [|c s IH]; intros cur Hm; rewrite exec_star in Hm.
  - exists [], []. auto.
  - destruct (accepts k c) eqn:Hc.
    + destruct (exec whole (Star k :: r) s (push c cur) caps) eqn:Hs.
      * injection Hm as ->. destruct (IH _ Hs) as (u & v & -> & Hu & Hv).
        exists (c :: u), v. simpl. rewrite Hc. auto.
      * exists [], (c :: s). auto.
    + exists [], (c :: s). auto.
Qed.

(** A star takes a whole run of accepted characters when the rest of the
    pattern matches what follows. *)
Lemma exec_star_run whole k r caps m v : forall u cur,
  forallb (accepts k) u = true ->
  exec whole r v (pushes u cur) caps = Some m ->
  match v with [] => True | c :: _ => accepts k c = false end ->
  exec whole (Star k :: r) (u ++ v) cur caps = Some m.
Proof.
  induction u as [|c u IH]; intros cur Hu Hm Hv; rewrite exec_star.
  - simpl in *. destruct v as [|c v]; [exact Hm|]. now rewrite Hv.
  - simpl in Hu. apply andb_prop in Hu as [Hc Hu]. cbn [app]. rewrite Hc.
    now rewrite (IH (push c cur) Hu Hm Hv).
Qed.

(** A star followed by a last literal character gives that character back. *)
Lemma exec_star_last k c caps : forall d cur,
  forallb (accepts k) d = true ->
  exec true [Star k; Close; One (Lit c)] (d ++ [c]) cur caps
  = Some (rev (rev (default [] (pushes d cur)) :: caps)).
Proof.
  assert (Hcc : accepts (Lit c) c = true) by (apply Ascii.eqb_refl).
  induction d as [|x d IH]; intros cur Hd; cbn [app]; rewrite exec_star;
    cbv beta match.
  - cbn [pushes fold_left].
    assert (Hend : exec true [Close; One (Lit c)] [c] cur caps
                   = Some (rev (rev (default [] cur) :: caps))).
    { rewrite exec_close, exec_one, Hcc, exec_end. reflexivity. }
    destruct (accepts k c); [|exact Hend].
    rewrite exec_star, exec_close, exec_one. exact Hend.
  - simpl in Hd. apply andb_prop in Hd as [Hx Hd]. rewrite Hx.
    now rewrite (IH (push x cur) Hd).
Qed.

Lemma shape_r_nodes :
  shape_r = [Open; One (NotLit "["); Star (NotLit "["); Close; One (Lit "[");
             Open; Star Dot; Close; One (Lit "]")].
Proof. reflexivity. Qed.

Lemma contains_forallb c s :
  contains c s = false <-> forallb (accepts (NotLit c)) s = true.
Proof.
  induction s as [|x s IH]; simpl; [tauto|].
  destruct (ascii_eqb x c); simpl; [split; discriminate|exact IH].
Qed.

Lemma regex_match_shape_r t d :
  t <> [] -> contains "[" t = false -> forallb (accepts Dot) d = true ->
  regex_match shape_r (t ++ str "[" ++ d ++ str "]") = Some [t; d].
Proof.
  intros Ht Hno Hd. destruct t as [|c t]; [congruence|].
  apply contains_forallb in Hno. cbn [forallb] in Hno.
  apply andb_prop in Hno as [Hc Hu].
  unfold regex_match. rewrite shape_r_nodes.
  cbn [app]. rewrite exec_open, exec_one, Hc. cbn [push].
  apply exec_star_run; [exact Hu| |reflexivity].
  rewrite pushes_Some, exec_close. change (str "[") with ["["%char]. cbn [app].
  rewrite exec_one. change (accepts (Lit "[") "[") with true. cbv beta match.
  rewrite exec_open. change (str "]") with ["]"%char].
  rewrite (exec_star_last Dot "]" _ d (Some []) Hd).
  rewrite pushes_Some. cbn [default rev app push]. unfold id.
  rewrite !app_nil_r, !rev_app_distr, !rev_involutive.
  reflexivity.
Qed.

Lemma regex_match_shape_r_inv s m :
  regex_match shape_r s = Some m ->
  exists t d, m = [t; d] /\ t <> [] /\ contains "[" t = false /\
              forallb (accepts Dot) d = true /\
              s = t ++ str "[" ++ d ++ str "]".
Proof.
  unfold regex_match. rewrite shape_r_nodes, exec_open, exec_one.
  destruct s as [|c s]; [discriminate|].
  destruct (accepts (NotLit "[") c) eqn:Hc; [|discriminate].
  cbn [push]. intros Hm.
  apply exec_star_inv in Hm as (u & v & -> & Hu & Hm).
  rewrite pushes_Some, exec_close, exec_one in Hm.
  destruct v as [|b v]; [discriminate|].
  destruct (accepts (Lit "[") b) eqn:Hb; [|discriminate].
  apply Ascii.eqb_eq in Hb. subst b.
  rewrite exec_open in Hm.
  apply exec_star_inv in Hm as (d & w & -> & Hd & Hm).
  rewrite pushes_Some, exec_close, exec_one in Hm.
  destruct w as [|e w]; [discriminate|].
  destruct (accepts (Lit "]") e) eqn:He; [|discriminate].
  apply Ascii.eqb_eq in He. subst e.
  rewrite exec_end in Hm.
  destruct w; [|discriminate]. injection Hm as <-.
  exists (c :: u), d. repeat split.
  - cbn [rev app default push]. unfold id.
    now rewrite !app_nil_r, !rev_app_distr, !rev_involutive.
  - discriminate.
  - apply contains_forallb. cbn [forallb]. now rewrite Hc, Hu.
  - exact Hd.
Qed.

(** ** Decimal numerals *)

Lemma is_digit_cases c : is_digit c = true -> In c digits10.
Proof.
  unfold is_digit. intros Hc. apply andb_prop in Hc as [Hlo Hhi].
  apply N.leb_le in Hlo, Hhi.
  rewrite <- (ascii_N_embedding c).
  assert (Hn : exists k, (k < 10)%nat /\ N_of_ascii c = (48 + N.of_nat k)%N).
  { exists (N.to_nat (N_of_ascii c - 48)). split; lia. }
  destruct Hn as (k & Hk & ->).
  do 10 (destruct k as [|k]; [simpl; tauto|]). lia.
Qed.

Lemma digits_satisfy (P : ascii -> bool) s :
  forallb P digits10 = true -> forallb is_digit s = true -> forallb P s = true.
Proof.
  intros HP Hs. apply forallb_forall. intros c Hc.
  rewrite forallb_forall in HP, Hs. apply HP, is_digit_cases, Hs, Hc.
Qed.

Lemma digit_char_spec d :
  0 <= d < 10 -> is_digit (digit_char d) = true /\ digit_val (digit_char d) = d.
Proof.
  intros Hd.
  assert (Hk : exists k, (k < 10)%nat /\ d = Z.of_nat k)
    by (exists (Z.to_nat d); lia).
  destruct Hk as (k & Hk & ->).
  do 10 (destruct k as [|k]; [split; reflexivity|]). lia.
Qed.

Lemma digits_of_read fuel : forall n acc,
  fuel <> O -> 0 <= n < 2 ^ Z.of_nat fuel ->
  digits_value None (digits_of fuel n acc) = digits_value (Some n) acc.
Proof.
  induction fuel as [|fuel IH]; intros n acc Hfuel Hn; [congruence|].
  cbn [digits_of].
  assert (Hmod : 0 <= n mod 10 < 10) by (apply Z.mod_pos_bound; lia).
  destruct (digit_char_spec (n mod 10) Hmod) as [Hdig Hval].
  destruct (Z.ltb_spec n 10) as [Hlt|Hge].
  - cbn [digits_value]. rewrite Z.mod_small in * by lia.
    rewrite Hdig, Hval. reflexivity.
  - rewrite Nat2Z.inj_succ, Z.pow_succ_r in Hn by lia.
    assert (Hq : 1 <= n / 10 < 2 ^ Z.of_nat fuel).
    { split; [apply Z.div_le_lower_bound; lia|].
      apply Z.div_lt_upper_bound; lia. }
    rewrite IH; [|intros ->; simpl in Hq; lia|lia].
    cbn [digits_value]. rewrite Hdig, Hval. cbn [default].
    unfold id. now rewrite <- Z.div_mod by lia.
Qed.

Lemma digits_of_digits fuel : forall n acc,
  fuel <> O -> 0 <= n -> forallb is_digit acc = true ->
  forallb is_digit (digits_of fuel n acc) = true /\ digits_of fuel n acc <> [].
Proof.
  induction fuel as [|fuel IH]; intros n acc Hfuel Hn Hacc; [congruence|].
  cbn [digits_of].
  assert (Hmod : 0 <= n mod 10 < 10) by (apply Z.mod_pos_bound; lia).
  destruct (digit_char_spec (n mod 10) Hmod) as [Hdig _].
  destruct (Z.ltb_spec n 10) as [Hlt|Hge].
  - split; [|discriminate]. cbn [forallb]. now rewrite Hdig.
  - destruct fuel as [|fuel]; [cbn [digits_of]; split; [|discriminate];
                               cbn [forallb]; now rewrite Hdig|].
    apply IH; [discriminate|apply Z.div_pos; lia|].
    cbn [forallb]. now rewrite Hdig.
Qed.

Lemma to_string_nonneg n :
  0 <= n ->
  forallb is_digit (to_string n) = true /\ to_string n <> [] /\
  digits_value None (to_string n) = Some n.
Proof.
  intros Hn. unfold to_string.
  destruct (Z.ltb_spec n 0) as [|_]; [lia|].
  assert (Hfuel : 0 <= n < 2 ^ Z.of_nat (S (Z.to_nat (Z.log2 n)))).
  { split; [exact Hn|]. rewrite Nat2Z.inj_succ, Z2Nat.id by apply Z.log2_nonneg.
    destruct (Z.eq_dec n 0) as [->|Hne]; [reflexivity|].
    apply Z.log2_spec. lia. }
  destruct (digits_of_digits (S (Z.to_nat (Z.log2 n))) n []) as [Hd Hne];
    [discriminate|exact Hn|reflexivity|].
  repeat split; [exact Hd|exact Hne|].
  now rewrite digits_of_read by (discriminate || exact Hfuel).
Qed.

Lemma is_digit_plain c :
  is_digit c = true ->
  is_space c = false /\ ascii_eqb c "-" = false /\ ascii_eqb c "+" = false.
Proof.
  intros Hc.
  pose proof (digits_satisfy (fun c => negb (is_space c) && negb (ascii_eqb c "-")
                                       && negb (ascii_eqb c "+")) [c] eq_refl) as HP.
  cbn [forallb] in HP. rewrite Hc in HP. specialize (HP eq_refl).
  rewrite andb_true_r in HP.
  apply andb_prop in HP as [HP H3]. apply andb_prop in HP as [H1 H2].
  now rewrite negb_true_iff in H1, H2, H3.
Qed.

Lemma stoi_to_string n : 0 <= n <= INT_MAX -> stoi (to_string n) = ret n.
Proof.
  intros [Hlo Hhi]. destruct (to_string_nonneg n Hlo) as (Hd & Hne & Hv).
  unfold stoi. destruct (to_string n) as [|c r] eqn:Hs; [congruence|].
  cbn [forallb] in Hd. apply andb_prop in Hd as [Hc _].
  destruct (is_digit_plain c Hc) as (Hsp & Hm & Hp).
  cbn [skip_spaces]. rewrite Hsp, Hm, Hp, Hv.
  unfold INT_MIN, INT_MAX in *.
  destruct (Z.leb_spec (-2147483648) n); [|lia].
  destruct (Z.leb_spec n 2147483647); [|lia]. reflexivity.
Qed.

Lemma mapM_stoi_to_string ns :
  Forall (fun n => 0 <= n <= INT_MAX) ns -> mapM stoi (map to_string ns) = ret ns.
Proof.
  induction 1 as [|n ns Hn _ IH]; [reflexivity|].
  cbn [map mapM]. rewrite stoi_to_string by exact Hn.
  rewrite bind_ret_l, IH, bind_ret_l. reflexivity.
Qed.

(** ** Splitting and joining *)

Lemma getlines_from_token delim rest : forall t cur started,
  contains delim t = false ->
  getlines_from delim cur started (t ++ rest)
  = getlines_from delim (rev t ++ cur)
                  (started || match t with [] => false | _ => true end) rest.
Proof.
  induction t as [|c t IH]; intros cur started Ht.
  - simpl. now rewrite orb_false_r.
  - cbn [contains] in Ht. apply orb_false_elim in Ht as [Hc Ht].
    cbn [app getlines_from]. rewrite Hc, IH by exact Ht.
    cbn [rev]. rewrite <- app_assoc. cbn [app].
    now rewrite orb_true_r, orb_true_l.
Qed.

Lemma getlines_join delim toks :
  Forall (fun t => t <> [] /\ contains delim t = false) toks ->
  getlines delim (join [delim] toks) = toks.
Proof.
  unfold getlines. induction 1 as [|x l [Hne Hx] Hl IH]; [reflexivity|].
  destruct l as [|y l].
  - cbn [join]. rewrite <- (app_nil_r x) at 1.
    rewrite getlines_from_token by exact Hx.
    destruct x; [congruence|]. cbn [orb getlines_from].
    now rewrite app_nil_r, rev_involutive.
  - change (join [delim] (x :: y :: l)) with (x ++ [delim] ++ join [delim] (y :: l)).
    rewrite getlines_from_token by exact Hx.
    cbn [app getlines_from]. unfold ascii_eqb. rewrite Ascii.eqb_refl.
    now rewrite app_nil_r, rev_involutive, IH.
Qed.

Lemma forallb_join (P : ascii -> bool) sep l :
  forallb P sep = true -> Forall (fun t => forallb P t = true) l ->
  forallb P (join sep l) = true.
Proof.
  intros Hsep. induction 1 as [|x l Hx Hl IH]; [reflexivity|].
  destruct l as [|y l]; [exact Hx|].
  change (join sep (x :: y :: l)) with (x ++ sep ++ join sep (y :: l)).
  now rewrite !forallb_app, Hx, Hsep, IH.
Qed.

(** ** Shape text *)

Lemma token_spec t :
  token t <> [] /\ ToString (enum_value t) = ret (token t) /\
  PrimitiveTypeFromString (token t) = enum_value t /\
  forallb (fun c => accepts (NotLit "[") c && accepts (NotLit "(") c
                    && accepts (NotLit " ") c) (token t) = true.
Proof. destruct t; (split; [discriminate|]); repeat split; reflexivity. Qed.

Lemma forallb_weaken (P Q : ascii -> bool) s :
  (forall c, P c = true -> Q c = true) -> forallb P s = true -> forallb Q s = true.
Proof.
  intros HPQ. rewrite !forallb_forall. auto.
Qed.

Lemma to_string_chars (P : ascii -> bool) ns :
  forallb P digits10 = true ->
  Forall (fun n => 0 <= n <= INT_MAX) ns ->
  Forall (fun t => forallb P t = true) (map to_string ns).
Proof.
  intros HP Hns. apply List.Forall_map. eapply List.Forall_impl; [|exact Hns].
  intros n [Hn _]. apply digits_satisfy; [exact HP|].
  apply (to_string_nonneg n Hn).
Qed.

(** The characters of a well-formed array text. *)
Lemma array_text_chars (P : ascii -> bool) t ns :
  forallb P (token t) = true ->
  forallb P (str "[,]") = true -> forallb P digits10 = true ->
  Forall (fun n => 0 <= n <= INT_MAX) ns ->
  forallb P (token t ++ str "[" ++ join (str ",") (map to_string ns) ++ str "]")
  = true.
Proof.
  intros Ht Hp Hd Hns. cbn [str list_ascii_of_string forallb] in Hp.
  apply andb_prop in Hp as [Ho Hp]. apply andb_prop in Hp as [Hc Hp].
  rewrite !forallb_app, Ht.
  rewrite forallb_join; [|cbn; now rewrite Hc|now apply to_string_chars].
  cbn. now rewrite Ho, Hp.
Qed.

Lemma token_chars (P : ascii -> bool) t :
  (forall c, accepts (NotLit "[") c && accepts (NotLit "(") c
             && accepts (NotLit " ") c = true -> P c = true) ->
  forallb P (token t) = true.
Proof.
  intros HP. eapply forallb_weaken; [exact HP|]. apply token_spec.
Qed.

Lemma ArrayShape_round_trip verbose t ns :
  Forall (fun n => 0 <= n <= INT_MAX) ns ->
  let s := token t ++ str "[" ++ join (str ",") (map to_string ns) ++ str "]" in
  let shape := {| type := enum_value t; dimensions := ns |} in
  ArrayShapeFromString verbose s
  = (Ret shape, snd (Log verbose (str "Array shape from string: " ++ s))) /\
  ArrayShapeToString shape = ret s.
Proof.
  intros Hns s shape.
  destruct (token_spec t) as (Hne & HTo & HFrom & Hchars).
  assert (Hparen : contains "(" s = false).
  { apply contains_forallb. apply array_text_chars; try reflexivity; [|exact Hns].
    apply token_chars. intros c Hc.
    apply andb_prop in Hc as [Hc _]. now apply andb_prop in Hc as [_ Hc]. }
  assert (Hbr : contains "[" (token t) = false).
  { apply contains_forallb. apply token_chars. intros c Hc.
    apply andb_prop in Hc as [Hc _]. now apply andb_prop in Hc as [Hc _]. }
  assert (Hdims : forallb (accepts Dot) (join (str ",") (map to_string ns)) = true).
  { apply forallb_join; [reflexivity|]. now apply to_string_chars. }
  assert (Hm : regex_match shape_r s = Some [token t; join (str ",") (map to_string ns)])
    by (apply regex_match_shape_r; assumption).
  assert (Hsplit : getlines "," (join (str ",") (map to_string ns)) = map to_string ns).
  { apply (getlines_join ","). apply List.Forall_map. eapply List.Forall_impl; [|exact Hns].
    intros n [Hn _]. destruct (to_string_nonneg n Hn) as (Hd & Hnn & _).
    split; [exact Hnn|]. apply contains_forallb.
    now apply digits_satisfy. }
  split.
  - unfold ArrayShapeFromString. rewrite Hparen, Hm.
    cbn [negb Check default matched]. unfold id. simpl nth.
    change (str ",") with [","%char] in Hsplit.
    rewrite Hsplit, mapM_stoi_to_string by exact Hns. rewrite HFrom.
    destruct verbose; reflexivity.
  - unfold ArrayShapeToString. cbn [type dimensions shape]. rewrite HTo.
    now rewrite bind_ret_l.
Qed.

Lemma last_app_one (x : text) c : last (x ++ [c]) = Some c.
Proof. induction x as [|a [|b x] IH]; try reflexivity. exact IH. Qed.

Lemma array_text_facts x :
  formatted_array_text x ->
  x <> [] /\ contains " " x = false /\ contains "(" x = false /\
  last x = Some "]"%char.
Proof.
  intros (t & ns & Hns & ->).
  assert (Hne : token t <> []) by apply token_spec.
  repeat split.
  - destruct (token t); [congruence|discriminate].
  - apply contains_forallb. apply array_text_chars; try reflexivity; [|exact Hns].
    apply token_chars. intros c Hc. now apply andb_prop in Hc as [_ Hc].
  - apply contains_forallb. apply array_text_chars; try reflexivity; [|exact Hns].
    apply token_chars. intros c Hc.
    apply andb_prop in Hc as [Hc _]. now apply andb_prop in Hc as [_ Hc].
  - rewrite !app_assoc. apply last_app_one.
Qed.

Lemma ParseSubshape_comma verbose x :
  ParseSubshape verbose (x ++ str ",") = ArrayShapeFromString verbose x.
Proof.
  unfold ParseSubshape, last_char. change (str ",") with [","%char].
  rewrite last_app_one. cbn [of_option]. rewrite bind_ret_l.
  change (ascii_eqb "," ",") with true. cbv iota.
  unfold substr, size_minus. rewrite length_app. cbn [length].
  replace (1 <=? length x + 1)%nat with true by (symmetry; apply Nat.leb_le; lia).
  cbn [Nat.leb]. rewrite drop_0.
  replace (length x + 1 - 1)%nat with (length x) by lia.
  rewrite take_app_length. now rewrite bind_ret_l.
Qed.

Lemma ParseSubshape_plain verbose x :
  last x = Some "]"%char ->
  ParseSubshape verbose x = ArrayShapeFromString verbose x.
Proof.
  intros Hx. unfold ParseSubshape, last_char. rewrite Hx. cbn [of_option].
  rewrite bind_ret_l. change (ascii_eqb "]" ",") with false. cbv iota.
  now rewrite bind_ret_l.
Qed.

Lemma mapM_ParseSubshape verbose parts :
  Forall formatted_array_text parts ->
  mapM (ParseSubshape verbose) (getlines " " (join (str ", ") parts))
  = mapM (ArrayShapeFromString verbose) parts.
Proof.
  induction 1 as [|x l Hx Hl IH]; [reflexivity|].
  destruct (array_text_facts x Hx) as (Hne & Hsp & _ & Hlast).
  destruct l as [|y l].
  - cbn [join].
    pose proof (getlines_join " " [x]) as Hone. cbn [join] in Hone.
    rewrite Hone by (constructor; [split; assumption|constructor]).
    cbn [mapM]. now rewrite ParseSubshape_plain.
  - change (join (str ", ") (x :: y :: l))
      with (x ++ str ", " ++ join (str ", ") (y :: l)).
    change (str ", ") with ([","%char] ++ [" "%char]) at 1.
    rewrite <- app_assoc, app_assoc. unfold getlines.
    rewrite getlines_from_token.
    2:{ apply contains_forallb. rewrite forallb_app.
        apply contains_forallb in Hsp. now rewrite Hsp. }
    cbn [app getlines_from]. change (ascii_eqb " " " ") with true. cbv iota.
    rewrite app_nil_r, rev_involutive. cbn [mapM].
    change [","%char] with (str ","). rewrite ParseSubshape_comma.
    unfold getlines in IH. now rewrite IH.
Qed.

Lemma mapM_round_trip verbose parts :
  Forall formatted_array_text parts ->
  exists shapes,
    fst (mapM (ArrayShapeFromString verbose) parts) = Ret shapes /\
    mapM ArrayShapeToString shapes = ret parts /\
    length shapes = length parts.
Proof.
  induction 1 as [|x l (t & ns & Hns & ->) Hl (shapes & Hp & Hf & Hlen)].
  - exists []. repeat split.
  - destruct (ArrayShape_round_trip verbose t ns Hns) as [Hparse Hformat].
    eexists (_ :: shapes). repeat split.
    + cbn [mapM]. rewrite fst_bind, Hparse. cbn [fst].
      rewrite fst_bind, Hp. reflexivity.
    + cbn [mapM]. rewrite Hformat, bind_ret_l, Hf, bind_ret_l. reflexivity.
    + cbn [length]. now rewrite Hlen.
Qed.

Lemma substr_inner (J : text) :
  let s := "("%char :: J ++ [")"%char] in
  substr 1 (size_minus (length s) 2) s = ret J.
Proof.
  intros s. assert (Hlen : length s = S (S (length J)))
    by (unfold s; cbn [length]; rewrite length_app; cbn [length]; lia).
  unfold substr, size_minus. rewrite Hlen.
  destruct (Nat.leb_spec 1 (S (S (length J)))); [|lia].
  destruct (Nat.leb_spec 2 (S (S (length J)))); [|lia].
  f_equal. f_equal. unfold s. cbn [drop].
  replace (S (S (length J)) - 2)%nat with (length J) by lia.
  apply take_app_length.
Qed.

Lemma TupleShapeFromString_parenthesised verbose parts :
  Forall formatted_array_text parts ->
  exists shapes,
    fst (TupleShapeFromString verbose (str "(" ++ join (str ", ") parts ++ str ")"))
    = Ret {| elements := shapes |} /\
    mapM ArrayShapeToString shapes = ret parts /\
    length shapes = length parts.
Proof.
  intros Hparts.
  destruct (mapM_round_trip verbose parts Hparts) as (shapes & Hp & Hf & Hlen).
  exists shapes. repeat split; [|exact Hf|exact Hlen].
  set (J := join (str ", ") parts) in *.
  unfold TupleShapeFromString. change (str "(" ++ J ++ str ")")
    with ("("%char :: J ++ [")"%char]).
  rewrite fst_bind, fst_Log. cbv beta match.
  rewrite substr_inner, bind_ret_l.
  unfold J. rewrite mapM_ParseSubshape by exact Hparts.
  rewrite fst_bind, Hp. reflexivity.
Qed.

Lemma TupleShapeFromString_bare verbose x :
  contains "(" x = false ->
  TupleShapeFromString verbose x
  = (Log verbose (str "Tuple shape from string: " ++ x);;
     let* a := ArrayShapeFromString verbose x in
     ret {| elements := [a] |}).
Proof.
  intros Hx. unfold TupleShapeFromString.
  destruct x as [|c x]; [reflexivity|].
  cbn [contains] in Hx. apply orb_false_elim in Hx as [Hc _].
  destruct c as [[] [] [] [] [] [] [] []]; try reflexivity. discriminate Hc.
Qed.

(** *** Canonical dimensions *)

Lemma digit_char_val c : is_digit c = true -> digit_char (digit_val c) = c.
Proof.
  intros Hc. apply is_digit_cases in Hc. unfold digits10 in Hc. simpl in Hc.
  intuition (subst; reflexivity).
Qed.

Lemma digit_val_range c : is_digit c = true -> 0 <= digit_val c < 10.
Proof.
  unfold is_digit, digit_val. intros Hc. apply andb_prop in Hc as [Hlo Hhi].
  apply N.leb_le in Hlo, Hhi. lia.
Qed.

Lemma decimal_snoc d c : decimal (d ++ [c]) = 10 * decimal d + digit_val c.
Proof. unfold decimal. now rewrite fold_left_app. Qed.

Lemma decimal_from r : forall acc,
  forallb is_digit r = true -> 0 <= acc ->
  acc * 2 ^ Z.of_nat (length r)
  <= fold_left (fun acc c => 10 * acc + digit_val c) r acc.
Proof.
  induction r as [|c r IH]; intros acc Hr Hacc; [cbn; lia|].
  cbn [forallb] in Hr. apply andb_prop in Hr as [Hc Hr].
  pose proof (digit_val_range c Hc) as Hv.
  cbn [fold_left length]. rewrite Nat2Z.inj_succ, Z.pow_succ_r by lia.
  specialize (IH (10 * acc + digit_val c) Hr ltac:(lia)).
  assert (0 < 2 ^ Z.of_nat (length r)) by (apply Z.pow_pos_nonneg; lia).
  nia.
Qed.

(** A run of digits that starts with a digit other than zero. *)
Lemma decimal_positive c r :
  forallb is_digit (c :: r) = true -> c <> "0"%char ->
  2 ^ Z.of_nat (length r) <= decimal (c :: r).
Proof.
  intros Hd Hc. cbn [forallb] in Hd. apply andb_prop in Hd as [Hdc Hr].
  unfold decimal. cbn [fold_left].
  assert (Hv : 1 <= digit_val c).
  { pose proof (digit_val_range c Hdc) as Hv.
    destruct (Z.eq_dec (digit_val c) 0) as [H0|]; [|lia].
    exfalso. apply Hc. rewrite <- (digit_char_val c Hdc), H0. reflexivity. }
  pose proof (decimal_from r (10 * 0 + digit_val c) Hr ltac:(lia)) as Hfrom.
  assert (0 < 2 ^ Z.of_nat (length r)) by (apply Z.pow_pos_nonneg; lia).
  nia.
Qed.

Lemma leading_zero_head c r :
  r <> [] -> leading_zero (c :: r) = false -> c <> "0"%char.
Proof.
  intros Hr Hz ->. destruct r as [|x r]; [congruence|discriminate Hz].
Qed.

Lemma digits_of_canonical d :
  d <> [] -> forallb is_digit d = true -> leading_zero d = false ->
  forall fuel acc, (length d <= fuel)%nat ->
    digits_of fuel (decimal d) acc = d ++ acc.
Proof.
  induction d as [|c d IH] using rev_ind; intros Hne Hd Hz fuel acc Hfuel;
    [congruence|].
  rewrite forallb_app in Hd. apply andb_prop in Hd as [Hd Hc].
  cbn [forallb] in Hc. rewrite andb_true_r in Hc.
  pose proof (digit_val_range c Hc) as Hv.
  rewrite length_app in Hfuel. cbn [length] in Hfuel.
  destruct fuel as [|fuel]; [lia|].
  rewrite decimal_snoc. cbn [digits_of].
  replace ((10 * decimal d + digit_val c) mod 10) with (digit_val c)
    by (rewrite Z.add_comm, Z.mul_comm, Z_mod_plus_full, Z.mod_small; lia).
  rewrite (digit_char_val c Hc).
  destruct d as [|c0 r].
  - change (decimal []) with 0. cbn [app].
    destruct (Z.ltb_spec (10 * 0 + digit_val c) 10); [reflexivity|lia].
  - assert (Hc0 : c0 <> "0"%char).
    { apply (leading_zero_head c0 (r ++ [c])); [now destruct r|exact Hz]. }
    pose proof (decimal_positive c0 r Hd Hc0) as Hpos.
    assert (0 < 2 ^ Z.of_nat (length r)) by (apply Z.pow_pos_nonneg; lia).
    destruct (Z.ltb_spec (10 * decimal (c0 :: r) + digit_val c) 10); [lia|].
    replace ((10 * decimal (c0 :: r) + digit_val c) / 10) with (decimal (c0 :: r))
      by (rewrite Z.add_comm, Z.mul_comm, Z_div_plus_full, Z.div_small; lia).
    rewrite IH; [now rewrite <- app_assoc|discriminate|exact Hd| |lia].
    destruct c0 as [[] [] [] [] [] [] [] []]; destruct r as [|x r];
      try reflexivity; congruence.
Qed.

(** A canonical dimension is the numeral [std::to_string] writes for its
    value. *)
Lemma canonical_to_string d :
  canonical_dim d -> 0 <= decimal d <= INT_MAX /\ to_string (decimal d) = d.
Proof.
  intros ((Hne & Hd) & Hz & Hmax).
  destruct d as [|c r]; [congruence|].
  assert (Hnonneg : 0 <= decimal (c :: r)).
  { pose proof (decimal_from (c :: r) 0 Hd ltac:(lia)) as Hfrom.
    unfold decimal. lia. }
  split; [lia|]. unfold to_string.
  destruct (Z.ltb_spec (decimal (c :: r)) 0); [lia|].
  rewrite digits_of_canonical; [apply app_nil_r|discriminate|exact Hd|exact Hz|].
  destruct r as [|x r]; [cbn [length]; lia|].
  assert (Hc : c <> "0"%char)
    by (apply (leading_zero_head c (x :: r)); [discriminate|exact Hz]).
  pose proof (decimal_positive c (x :: r) Hd Hc) as Hpos.
  assert (Hlog : Z.of_nat (length (x :: r)) <= Z.log2 (decimal (c :: x :: r))).
  { apply Z.log2_le_pow2; [|exact Hpos].
    assert (0 < 2 ^ Z.of_nat (length (x :: r))) by (apply Z.pow_pos_nonneg; lia).
    lia. }
  cbn [length] in *. lia.
Qed.

Lemma canonical_is_grammar s : canonical_array_text s -> grammar_array_text s.
Proof.
  intros (t & dims & Hdims & ->). exists t, dims. split; [|reflexivity].
  eapply List.Forall_impl; [|exact Hdims]. now intros d [Hg _].
Qed.

Lemma canonical_is_formatted s : canonical_array_text s -> formatted_array_text s.
Proof.
  intros (t & dims & Hdims & ->). exists t, (map decimal dims). split.
  - apply List.Forall_map. eapply List.Forall_impl; [|exact Hdims].
    intros d Hd. apply (canonical_to_string d Hd).
  - assert (Hmap : map to_string (map decimal dims) = dims).
    { induction Hdims as [|d dims Hd _ IH]; [reflexivity|].
      cbn [map]. rewrite IH. f_equal. apply (canonical_to_string d Hd). }
    now rewrite Hmap.
Qed.

(** C8 (as amended).  Parsing an array-shape text of the grammar and
    formatting the result gives the text back when every dimension is
    canonical: written without leading zero, of a value that fits an
    [int].  Under the same condition on the elements, so does a tuple
    text of more than one element; the text of a one-element tuple gives
    the bare array text, the parentheses stripped, and a bare array text
    read as a tuple shape gives itself.  The type token is any of the
    thirteen, the supported ones among them. *)
Theorem shape_text_round_trip (verbose : bool) :
  (forall s, canonical_array_text s ->
     grammar_array_text s /\
     exists shape,
       fst (ArrayShapeFromString verbose s) = Ret shape /\
       ArrayShapeToString shape = ret s) /\
  (forall parts s, canonical_tuple_text parts s -> (1 < length parts)%nat ->
     exists shape,
       fst (TupleShapeFromString verbose s) = Ret shape /\
       TupleShapeToString shape = ret s) /\
  (forall a, canonical_array_text a ->
     exists shape,
       fst (TupleShapeFromString verbose (str "(" ++ a ++ str ")")) = Ret shape /\
       TupleShapeToString shape = ret a) /\
  (forall a, canonical_array_text a ->
     exists shape,
       fst (TupleShapeFromString verbose a) = Ret shape /\
       TupleShapeToString shape = ret a).
Proof.
  assert (Harray : forall s, canonical_array_text s ->
     exists shape, fst (ArrayShapeFromString verbose s) = Ret shape /\
                   ArrayShapeToString shape = ret s).
  { intros s Hs. destruct (canonical_is_formatted s Hs) as (t & ns & Hns & ->).
    destruct (ArrayShape_round_trip verbose t ns Hns) as [Hparse Hformat].
    eexists. split; [now rewrite Hparse|exact Hformat]. }
  assert (Hparts : forall parts, Forall canonical_array_text parts ->
                                 Forall formatted_array_text parts).
  { intros parts Hp. eapply List.Forall_impl; [|exact Hp].
    exact canonical_is_formatted. }
  split; [intros s Hs; split; [now apply canonical_is_grammar|now apply Harray]|].
  split; [|split].
  - intros parts s [Hp ->] Hlen.
    destruct (TupleShapeFromString_parenthesised verbose parts (Hparts _ Hp))
      as (shapes & Hpar & Hf & Hl).
    eexists. split; [exact Hpar|].
    unfold TupleShapeToString. cbn [elements].
    destruct shapes as [|a [|b shapes]]; try (cbn [length] in Hl; lia).
    now rewrite Hf, bind_ret_l.
  - intros a Ha.
    destruct (TupleShapeFromString_parenthesised verbose [a]) as (shapes & Hp & Hf & Hl);
      [constructor; [now apply canonical_is_formatted|constructor]|].
    cbn [join] in Hp. eexists. split; [exact Hp|].
    destruct shapes as [|sh [|b shapes]]; try discriminate Hl.
    unfold TupleShapeToString. cbn [elements]. cbn [mapM] in Hf.
    destruct (ArrayShapeToString sh) as [[r| | |] tr]; try discriminate Hf.
    cbn in Hf. injection Hf as -> Htr. rewrite app_nil_r in Htr. now subst tr.
  - intros a Ha. destruct (Harray a Ha) as (shape & Hp & Hf).
    destruct (array_text_facts a (canonical_is_formatted a Ha)) as (_ & _ & Hparen & _).
    exists {| elements := [shape] |}. split; [|exact Hf].
    rewrite TupleShapeFromString_bare by exact Hparen.
    rewrite fst_bind, fst_Log. cbv beta match. rewrite fst_bind, Hp. reflexivity.
Qed.

(** The round trip at [f32[256,32]] and at [(f32[10,20], u32[])]. *)
Lemma shape_text_round_trip_witness :
  canonical_array_text (str "f32[256,32]") /\
  canonical_tuple_text [str "f32[10,20]"; str "u32[]"] (str "(f32[10,20], u32[])") /\
  (exists shape,
      fst (ArrayShapeFromString false (str "f32[256,32]")) = Ret shape /\
      ArrayShapeToString shape = ret (str "f32[256,32]")) /\
  (exists shape,
      fst (TupleShapeFromString false (str "(f32[10,20], u32[])")) = Ret shape /\
      TupleShapeToString shape = ret (str "(f32[10,20], u32[])")).
Proof.
  assert (Hdim : forall d, d <> [] -> forallb is_digit d = true ->
                           leading_zero d = false -> (decimal d <=? INT_MAX) = true ->
                           canonical_dim d).
  { intros d H1 H2 H3 H4. repeat split; try assumption. now apply Z.leb_le. }
  assert (H1 : canonical_array_text (str "f32[256,32]")).
  { exists F32, [str "256"; str "32"]. split; [|reflexivity].
    repeat constructor; apply Hdim; (discriminate || reflexivity). }
  assert (H2 : canonical_tuple_text [str "f32[10,20]"; str "u32[]"]
                                    (str "(f32[10,20], u32[])")).
  { split; [|reflexivity]. repeat constructor.
    - exists F32, [str "10"; str "20"]. split; [|reflexivity].
      repeat constructor; apply Hdim; (discriminate || reflexivity).
    - exists U32, []. split; [constructor|reflexivity]. }
  split; [exact H1|]. split; [exact H2|].
  destruct (shape_text_round_trip false) as (Harray & Htuple & _).
  split; [exact (proj2 (Harray _ H1))|].
  apply (Htuple _ _ H2). cbn [length]. lia.
Defined.

(** A text of the grammar is not always given back: the dimension [007]
    comes back as [7], and at the dimension [2147483648], one more than
    the largest [int], the parser throws. *)
Lemma written_dimension_is_not_kept :
  grammar_array_text (str "f32[007]") /\
  (exists shape,
      fst (ArrayShapeFromString false (str "f32[007]")) = Ret shape /\
      ArrayShapeToString shape = ret (str "f32[7]") /\
      ArrayShapeToString shape <> ret (str "f32[007]")) /\
  grammar_array_text (str "f32[2147483648]") /\
  fst (ArrayShapeFromString false (str "f32[2147483648]")) = Throw out_of_range.
Proof.
  split; [|split; [|split]].
  - exists F32, [str "007"]. split; [|reflexivity].
    repeat constructor. discriminate.
  - eexists. split; [vm_compute; reflexivity|].
    split; [vm_compute; reflexivity|vm_compute; discriminate].
  - exists F32, [str "2147483648"]. split; [|reflexivity].
    repeat constructor. discriminate.
  - vm_compute. reflexivity.
Qed.

(** ** What the array parser rejects *)

Lemma stoi_cases s : (exists v, stoi s = ret v) \/ (exists e, stoi s = throw e).
Proof.
  unfold stoi.
  destruct (match skip_spaces s with
            | [] => (false, skip_spaces s)
            | c :: r => if ascii_eqb c "-" then (true, r)
                        else if ascii_eqb c "+" then (false, r)
                             else (false, skip_spaces s)
            end) as [neg s2].
  destruct (digits_value None s2) as [v|]; [|right; eauto].
  destruct ((INT_MIN <=? (if neg then - v else v))
            && ((if neg then - v else v) <=? INT_MAX)); eauto.
Qed.

Lemma mapM_stoi_throw toks tok e :
  In tok toks -> stoi tok = throw e -> exists e', mapM stoi toks = throw e'.
Proof.
  induction toks as [|x toks IH]; intros Hin Htok; [destruct Hin|].
  cbn [mapM]. destruct (stoi_cases x) as [[v Hv]|[e' He']].
  - destruct Hin as [->|Hin]; [rewrite Hv in Htok; discriminate|].
    destruct (IH Hin Htok) as [e' He']. exists e'.
    now rewrite Hv, bind_ret_l, He'.
  - exists e'. now rewrite He'.
Qed.

Lemma regex_match_shape_r_None s : ~ bracketed s -> regex_match shape_r s = None.
Proof.
  intros Hs. destruct (regex_match shape_r s) as [m|] eqn:Hm; [|reflexivity].
  exfalso. apply Hs.
  destruct (regex_match_shape_r_inv s m Hm) as (t & d & _ & Ht & Hb & Hd & ->).
  exists t, d. auto.
Qed.

(** C3 (as amended).  [ArrayShapeFromString] does not return a shape and
    ends the run
    - with [exit(1)] and the line "Tuple shape is not supported" when the
      text holds an opening parenthesis;
    - with [exit(1)] and the line "Shape not found" when the text has not
      the bracket structure [bracketed];
    - by an exception of [std::stoi] when, in a text of that structure, a
      dimension token holds no number where [std::stoi] looks for one, or a
      number outside [int].
    Nothing is said of the type token. *)
Theorem ArrayShapeFromString_failures (verbose : bool) (s : text) :
  let log := snd (Log verbose (str "Array shape from string: " ++ s)) in
  (contains "(" s = true ->
   ArrayShapeFromString verbose s
   = (Exit 1, log ++ [cerr (str "Tuple shape is not supported" ++ endl)])) /\
  (contains "(" s = false -> ~ bracketed s ->
   ArrayShapeFromString verbose s
   = (Exit 1, log ++ [cerr (str "Shape not found" ++ endl)])) /\
  (forall t d tok e,
      contains "(" s = false ->
      t <> [] -> contains "[" t = false -> forallb (accepts Dot) d = true ->
      s = t ++ str "[" ++ d ++ str "]" ->
      In tok (getlines "," d) -> stoi tok = throw e ->
      exists e', ArrayShapeFromString verbose s = (Throw e', log)).
Proof.
  intros log. unfold log. split; [|split].
  - intros Hp. unfold ArrayShapeFromString. rewrite Hp.
    destruct verbose; reflexivity.
  - intros Hp Hb. unfold ArrayShapeFromString.
    rewrite Hp, (regex_match_shape_r_None s Hb).
    destruct verbose; reflexivity.
  - intros t d tok e Hp Ht Hbr Hd -> Hin Htok.
    destruct (mapM_stoi_throw _ _ _ Hin Htok) as [e' He'].
    exists e'. unfold ArrayShapeFromString.
    rewrite Hp, (regex_match_shape_r t d Ht Hbr Hd).
    cbn [negb Check default matched]. unfold id. simpl nth. rewrite He'.
    destruct verbose; reflexivity.
Qed.

(** The three cases at [f32(2)], at [f32[2] without its closing bracket and
    at [f32[2,x]]. *)
Lemma ArrayShapeFromString_failures_witness :
  ArrayShapeFromString false (str "f32(2)")
  = (Exit 1, [cerr (str "Tuple shape is not supported" ++ endl)]) /\
  ArrayShapeFromString false (str "f32[2")
  = (Exit 1, [cerr (str "Shape not found" ++ endl)]) /\
  exists e, ArrayShapeFromString false (str "f32[2,x]") = (Throw e, []).
Proof.
  destruct (ArrayShapeFromString_failures false (str "f32(2)")) as (H1 & _ & _).
  destruct (ArrayShapeFromString_failures false (str "f32[2")) as (_ & H2 & _).
  destruct (ArrayShapeFromString_failures false (str "f32[2,x]")) as (_ & _ & H3).
  split; [apply H1; reflexivity|].
  split.
  - apply H2; [reflexivity|].
    intros (t & d & _ & _ & _ & Hs).
    apply (f_equal (@last ascii)) in Hs. change (str "]") with ["]"%char] in Hs.
    rewrite !app_assoc, last_app_one in Hs. vm_compute in Hs. discriminate Hs.
  - apply (H3 (str "f32") (str "2,x") (str "x") invalid_argument);
      try reflexivity; [discriminate|simpl; tauto].
Defined.

(** C3 as stated fails: the dimension token [3x] is no integer, and
    [f32[3x]] is parsed as the shape [f32[3]], since [std::stoi] stops at
    the first character that is not a digit. *)
Lemma dimension_with_trailing_text_is_accepted :
  getlines "," (str "3x") = [str "3x"] /\
  ArrayShapeFromString false (str "f32[3x]")
  = ret {| type := enum_value F32; dimensions := [3] |}.
Proof. split; reflexivity. Qed.

(** ** The size check of a parameter *)

Lemma ByteSize_positive type bytes : ByteSize type = ret bytes -> 0 < bytes.
Proof.
  intros Hb.
  do 13 (destruct type as [|type];
         [vm_compute in Hb; try discriminate Hb; injection Hb as <-; reflexivity|]).
  unfold ByteSize, ToString in Hb.
  replace (nth_error primitive_strings
             (S (S (S (S (S (S (S (S (S (S (S (S (S type))))))))))))))
    with (@None text) in Hb by (destruct type; reflexivity).
  discriminate Hb.
Qed.

(** C2 (as amended).  For a parameter whose size and element width are
    known, the run stops with the diagnostic "Unexpected number of
    elements" exactly when the element count differs from the declared
    byte size divided by the byte width, the division being that of C++
    integers, which drops the remainder; the check passes when count and
    quotient agree, in particular when count times width is the size. *)
Theorem size_check_divides (assignment : BufferAssignment) (param_idx size bytes : Z)
  (shape : ArrayShape) :
  0 <= param_idx ->
  buffers_size assignment !! Z.to_nat param_idx = Some size ->
  ByteSize (type shape) = ret bytes ->
  (CheckNumElements assignment param_idx shape
   = ExitWithMsg (str "Unexpected number of elements")
   <-> GetNumElements shape <> size ÷ bytes) /\
  (GetNumElements shape = size ÷ bytes ->
   CheckNumElements assignment param_idx shape = ret tt) /\
  (GetNumElements shape * bytes = size ->
   CheckNumElements assignment param_idx shape = ret tt).
Proof.
  intros Hidx Hsize Hbytes.
  assert (Hcheck : CheckNumElements assignment param_idx shape
                   = Check (GetNumElements shape =? size ÷ bytes)
                           (str "Unexpected number of elements")).
  { unfold CheckNumElements, at_index.
    destruct (Z.ltb_spec param_idx 0); [lia|].
    rewrite Hsize. cbn [of_option]. now rewrite bind_ret_l, Hbytes, bind_ret_l. }
  rewrite Hcheck. unfold Check.
  pose proof (ByteSize_positive _ _ Hbytes) as Hpos.
  destruct (Z.eqb_spec (GetNumElements shape) (size ÷ bytes)) as [Heq|Hne].
  - repeat split; try reflexivity; [discriminate|congruence].
  - repeat split; try reflexivity; try congruence.
    intros Hprod. exfalso. apply Hne. rewrite <- Hprod.
    symmetry. apply Z.quot_mul. lia.
Qed.

(** The check at [s32[2,3]] in a block of 24 bytes. *)
Lemma size_check_divides_witness :
  let shape := {| type := enum_value S32; dimensions := [2; 3] |} in
  let assignment :=
    {| buffers_size := [24]; buffers_shape := ∅; params_idx := [0];
       output_idx := 1 |} in
  CheckNumElements assignment 0 shape = ret tt.
Proof.
  intros shape assignment.
  apply (size_check_divides assignment 0 24 4 shape); [lia|reflexivity|reflexivity|].
  reflexivity.
Defined.

(** C2 as stated fails: a parameter [f32[2]], 2 elements of 4 bytes, in an
    allocation declared with 9 bytes passes the check, and the run ends
    normally. *)
Lemma size_check_accepts_a_remainder :
  let shape := {| type := enum_value F32; dimensions := [2] |} in
  (exists assignment,
      ParseBufferAssignment false remainder_file = ret assignment /\
      params_idx assignment = [0] /\
      buffers_size assignment !! 0%nat = Some 9 /\
      shape_at assignment 0 = {| elements := [shape] |} /\
      CheckNumElements assignment 0 shape = ret tt) /\
  ByteSize (type shape) = ret 4 /\
  GetNumElements shape * 4 <> 9 /\
  fst (@main sample_platform false [str "table"] (fun _ => Some remainder_file))
  = Ret 0.
Proof.
  intros shape. split; [|split; [|split]].
  - eexists. split; [vm_compute; reflexivity|]. repeat split.
  - reflexivity.
  - discriminate.
  - vm_compute. reflexivity.
Qed.

(** ** A line with both markers *)

Lemma fst_Check_true msg : fst (Check true msg) = Ret tt.
Proof. reflexivity. Qed.

(** C10.  An allocation line that is in order, with an output marker and a
    parameter marker whose shapes parse and print, read when no output
    was set before, is accepted: [output_idx] becomes the allocation
    index, the parameter number is appended to [params_idx], and the shape
    of the parameter replaces that of the output at the allocation index
    of [buffers_shape]. *)
Theorem line_with_both_markers (verbose : bool) (assignment : BufferAssignment)
  (line : text) (m output_match param_match : list text) (size param_idx : Z)
  (output_shape param_shape : TupleShape) (output_shown param_shown : text) :
  let allocation_idx := Z.of_nat (length (buffers_size assignment)) in
  regex_search allocation_line_r line = Some m ->
  stoi (nth 0 m []) = ret allocation_idx ->
  stoi (nth 1 m []) = ret size ->
  output_idx assignment = -1 ->
  regex_search output_r (nth 2 m []) = Some output_match ->
  fst (TupleShapeFromString verbose (nth 0 output_match [])) = Ret output_shape ->
  TupleShapeToString output_shape = ret output_shown ->
  regex_search parameter_r (nth 2 m []) = Some param_match ->
  stoi (nth 0 param_match []) = ret param_idx ->
  fst (TupleShapeFromString verbose (nth 1 param_match [])) = Ret param_shape ->
  TupleShapeToString param_shape = ret param_shown ->
  exists assignment',
    fst (ParseLine verbose assignment line) = Ret assignment' /\
    output_idx assignment' = allocation_idx /\
    params_idx assignment' = params_idx assignment ++ [param_idx] /\
    buffers_size assignment' = buffers_size assignment ++ [size] /\
    buffers_shape assignment'
    = <[allocation_idx := param_shape]>
        (<[allocation_idx := output_shape]> (buffers_shape assignment)) /\
    buffers_shape assignment' !! allocation_idx = Some param_shape.
Proof.
  intros idx Hm Hidx Hsize Hout Hom Hoshape Hoshown Hpm Hpidx Hpshape Hpshown.
  eexists. split; [|repeat split].
  - unfold ParseLine. rewrite Hm.
    rewrite fst_bind, fst_Log. cbv beta match.
    rewrite Hidx, bind_ret_l, Hsize, bind_ret_l.
    rewrite fst_bind, fst_Log. cbv beta match.
    fold idx. rewrite Z.eqb_refl.
    rewrite fst_bind, fst_Check_true. cbv beta match.
    rewrite fst_bind.
    assert (HO : fst (ParseOutputMarker verbose idx (nth 2 m [])
                        (set_buffers_size assignment (buffers_size assignment ++ [size])))
                 = Ret (set_buffers_shape
                          (set_output_idx
                             (set_buffers_size assignment
                                               (buffers_size assignment ++ [size])) idx)
                          (<[idx := output_shape]> (buffers_shape assignment)))).
    { unfold ParseOutputMarker. rewrite Hom.
      rewrite fst_bind, fst_Log. cbv beta match.
      cbn [output_idx set_buffers_size]. rewrite Hout. cbn [Z.eqb Pos.eqb].
      rewrite fst_bind, fst_Check_true. cbv beta match.
      rewrite fst_bind, fst_Log. cbv beta match.
      rewrite fst_bind, Hoshape. rewrite Hoshown, bind_ret_l.
      rewrite fst_bind, fst_Log. reflexivity. }
    rewrite HO. unfold ParseParameterMarker. rewrite Hpm.
    rewrite fst_bind, fst_Log. cbv beta match.
    rewrite Hpidx, bind_ret_l.
    rewrite fst_bind, Hpshape. rewrite Hpshown, bind_ret_l.
    rewrite fst_bind, fst_Log. reflexivity.
  - reflexivity.
  - reflexivity.
  - reflexivity.
  - reflexivity.
  - cbn. apply lookup_insert_eq.
Qed.

(** The claim at a first line with both markers. *)
Lemma line_with_both_markers_witness :
  exists assignment',
    fst (ParseLine false empty_assignment both_markers_line) = Ret assignment' /\
    output_idx assignment' = 0 /\
    params_idx assignment' = [0] /\
    buffers_shape assignment' !! 0
    = Some {| elements := [{| type := enum_value S32; dimensions := [2] |}] |}.
Proof.
  destruct (line_with_both_markers false empty_assignment both_markers_line
              [str "0"; str "8";
               str "output shape is |s16[4]|, parameter 0, shape |s32[2]| at ShapeIndex {}:"]
              [str "s16[4]"] [str "0"; str "s32[2]"] 8 0
              {| elements := [{| type := enum_value S16; dimensions := [4] |}] |}
              {| elements := [{| type := enum_value S32; dimensions := [2] |}] |}
              (str "s16[4]") (str "s32[2]"))
    as (a & Ha & Ho & Hp & _ & _ & Hs); try (vm_compute; reflexivity).
  exists a. repeat split; assumption.
Defined.

(** ** What VERBOSE changes *)

Lemma pure_silent {A} (m : M A) : pure m -> silent m.
Proof. unfold pure, silent. now intros ->. Qed.

Lemma pure_bind {A B} (m : M A) (f : A -> M B) :
  pure m -> (forall a, pure (f a)) -> pure (bind m f).
Proof.
  unfold pure. intros Hm Hf. rewrite snd_bind, Hm.
  destruct (fst m); try reflexivity. apply Hf.
Qed.

Lemma silent_bind {A B} (m : M A) (f : A -> M B) :
  silent m -> (forall a, silent (f a)) -> silent (bind m f).
Proof.
  unfold silent. intros Hm Hf. rewrite snd_bind.
  destruct (fst m); try exact Hm. now rewrite stdout_of_app, Hm, Hf.
Qed.

Lemma quiet_same {A} (m : M A) : silent m -> quiet_pair m m.
Proof. now repeat split. Qed.

Lemma quiet_bind {A B} (m1 m0 : M A) (f1 f0 : A -> M B) :
  quiet_pair m1 m0 -> (forall a, quiet_pair (f1 a) (f0 a)) ->
  quiet_pair (bind m1 f1) (bind m0 f0).
Proof.
  intros (Hf & H1 & H0) Hk. repeat split.
  - rewrite !fst_bind, Hf. destruct (fst m0); try reflexivity. apply Hk.
  - apply silent_bind; [exact H1|]. intros a. apply (Hk a).
  - apply silent_bind; [exact H0|]. intros a. apply (Hk a).
Qed.

Lemma quiet_Log v1 v0 msg : quiet_pair (Log v1 msg) (Log v0 msg).
Proof. destruct v1, v0; repeat split. Qed.

Lemma quiet_mapM {A B} (f1 f0 : A -> M B) l :
  (forall x, quiet_pair (f1 x) (f0 x)) -> quiet_pair (mapM f1 l) (mapM f0 l).
Proof.
  intros Hf. induction l as [|x l IH]; [now repeat split|].
  cbn [mapM]. apply quiet_bind; [apply Hf|]. intros y.
  apply quiet_bind; [exact IH|]. intros ys. now repeat split.
Qed.

Lemma quiet_foldM {A S} (f1 f0 : S -> A -> M S) l : forall s,
  (forall s x, quiet_pair (f1 s x) (f0 s x)) ->
  quiet_pair (foldM f1 s l) (foldM f0 s l).
Proof.
  induction l as [|x l IH]; intros s Hf; [now repeat split|].
  cbn [foldM]. apply quiet_bind; [apply Hf|]. intros s'. now apply IH.
Qed.

Lemma pure_ret {A} (a : A) : pure (ret a).
Proof. reflexivity. Qed.

Lemma pure_of_option {A} (o : option A) : pure (of_option o).
Proof. now destruct o. Qed.

Lemma pure_stoi s : pure (stoi s).
Proof. destruct (stoi_cases s) as [[v ->]|[e ->]]; reflexivity. Qed.

Lemma pure_substr pos n s : pure (substr pos n s).
Proof. unfold substr. now destruct (pos <=? length s)%nat. Qed.

Lemma pure_mapM {A B} (f : A -> M B) l : (forall x, pure (f x)) -> pure (mapM f l).
Proof.
  intros Hf. induction l as [|x l IH]; [reflexivity|].
  cbn [mapM]. apply pure_bind; [apply Hf|]. intros y.
  apply pure_bind; [exact IH|]. intros ys. reflexivity.
Qed.

Lemma pure_ToString type : pure (ToString type).
Proof. apply pure_of_option. Qed.

Lemma pure_ByteSize type : pure (ByteSize type).
Proof.
  unfold ByteSize. apply pure_bind; [apply pure_ToString|]. intros s.
  apply pure_bind; [apply pure_substr|]. intros s'.
  apply pure_bind; [apply pure_stoi|]. intros n. reflexivity.
Qed.

Lemma pure_ArrayShapeToString shape : pure (ArrayShapeToString shape).
Proof.
  unfold ArrayShapeToString. apply pure_bind; [apply pure_ToString|].
  intros t. reflexivity.
Qed.

Lemma pure_TupleShapeToString shape : pure (TupleShapeToString shape).
Proof.
  unfold TupleShapeToString.
  assert (Hes : forall es (k : list text -> text),
             pure (let* parts := mapM ArrayShapeToString es in ret (k parts))).
  { intros es k. apply pure_bind; [|intros; reflexivity].
    apply pure_mapM, pure_ArrayShapeToString. }
  destruct (elements shape) as [|e [|e' es]]; try apply Hes.
  apply pure_ArrayShapeToString.
Qed.

Lemma silent_Check cond msg : silent (Check cond msg).
Proof. now destruct cond. Qed.

Lemma silent_ExitWithMsg {A} msg : silent (@ExitWithMsg A msg).
Proof. reflexivity. Qed.

Ltac quiet_leaf :=
  apply quiet_same;
  first [ apply silent_Check
        | apply pure_silent;
          first [ apply pure_ret | apply pure_stoi | apply pure_substr
                | apply pure_of_option | apply pure_TupleShapeToString
                | apply pure_ByteSize | apply pure_mapM, pure_stoi ] ].

Ltac quiet :=
  repeat match goal with
         | |- quiet_pair (Log _ _) (Log _ _) => apply quiet_Log
         | |- quiet_pair (bind _ _) (bind _ _) => apply quiet_bind; [|intros ?]
         | |- quiet_pair (if ?c then _ else _) (if ?c then _ else _) => destruct c
         | |- quiet_pair ?m ?m => quiet_leaf
         end.

Lemma quiet_ArrayShapeFromString s :
  quiet_pair (ArrayShapeFromString true s) (ArrayShapeFromString false s).
Proof.
  unfold ArrayShapeFromString. quiet.
Qed.

Lemma quiet_ParseSubshape s :
  quiet_pair (ParseSubshape true s) (ParseSubshape false s).
Proof.
  unfold ParseSubshape, last_char. quiet. apply quiet_ArrayShapeFromString.
Qed.

Lemma quiet_TupleShapeFromString s :
  quiet_pair (TupleShapeFromString true s) (TupleShapeFromString false s).
Proof.
  unfold TupleShapeFromString. quiet.
  assert (Hbare : quiet_pair
                    (let* a := ArrayShapeFromString true s in
                     ret {| elements := [a] |})
                    (let* a := ArrayShapeFromString false s in
                     ret {| elements := [a] |})).
  { apply quiet_bind; [apply quiet_ArrayShapeFromString|]. intros; quiet. }
  destruct s as [|c s]; [exact Hbare|].
  destruct c as [[] [] [] [] [] [] [] []]; try exact Hbare.
  quiet. apply quiet_mapM, quiet_ParseSubshape.
Qed.

Lemma quiet_ParseOutputMarker idx postfix a :
  quiet_pair (ParseOutputMarker true idx postfix a)
             (ParseOutputMarker false idx postfix a).
Proof.
  unfold ParseOutputMarker. destruct (regex_search output_r postfix); quiet.
  apply quiet_TupleShapeFromString.
Qed.

Lemma quiet_ParseParameterMarker idx postfix a :
  quiet_pair (ParseParameterMarker true idx postfix a)
             (ParseParameterMarker false idx postfix a).
Proof.
  unfold ParseParameterMarker. destruct (regex_search parameter_r postfix); quiet.
  apply quiet_TupleShapeFromString.
Qed.

Lemma quiet_ParseLine a line :
  quiet_pair (ParseLine true a line) (ParseLine false a line).
Proof.
  unfold ParseLine. destruct (regex_search allocation_line_r line); quiet.
  - apply quiet_ParseOutputMarker.
  - apply quiet_ParseParameterMarker.
Qed.

Lemma quiet_ParseBufferAssignment infile :
  quiet_pair (ParseBufferAssignment true infile)
             (ParseBufferAssignment false infile).
Proof.
  unfold ParseBufferAssignment. quiet.
  apply quiet_foldM. intros s x. apply quiet_ParseLine.
Qed.

Lemma enum_value_surj n : (n < 13)%nat -> exists t, n = enum_value t.
Proof.
  intros Hn.
  do 13 (destruct n as [|n];
         [first [ now exists S16 | now exists S32 | now exists S64 | now exists U8
                | now exists U16 | now exists U32 | now exists U64 | now exists F16
                | now exists BF16 | now exists F32 | now exists F64 | now exists C64
                | now exists C128 ]|]).
  lia.
Qed.

Lemma one_sided_bind {A B} (m1 m0 : M A) (f1 f0 : A -> M B) :
  one_sided m1 m0 ->
  (forall a, fst m0 = Ret a -> one_sided (f1 a) (f0 a)) ->
  one_sided (bind m1 f1) (bind m0 f0).
Proof.
  intros [Hf H0] Hk. split.
  - rewrite !fst_bind, Hf. destruct (fst m0) eqn:Hm; try reflexivity.
    now apply Hk.
  - unfold silent in *. rewrite snd_bind.
    destruct (fst m0) eqn:Hm; try exact H0.
    rewrite stdout_of_app, H0. now apply Hk.
Qed.

Lemma quiet_one_sided {A} (m1 m0 : M A) : quiet_pair m1 m0 -> one_sided m1 m0.
Proof. intros (Hf & _ & H0). now split. Qed.

Lemma one_sided_foldM {A S} (f1 f0 : S -> A -> M S) l : forall s,
  (forall s x, one_sided (f1 s x) (f0 s x)) ->
  one_sided (foldM f1 s l) (foldM f0 s l).
Proof.
  induction l as [|x l IH]; intros s Hf; [now split|].
  cbn [foldM]. apply one_sided_bind; [apply Hf|]. intros s' _. now apply IH.
Qed.

Lemma same_run_bind {A B} (m1 m0 : M A) (f1 f0 : A -> M B) :
  same_run m1 m0 -> (forall a, same_run (f1 a) (f0 a)) ->
  same_run (bind m1 f1) (bind m0 f0).
Proof.
  intros [Hf Ho] Hk. split.
  - rewrite !fst_bind, Hf. destruct (fst m0); try reflexivity. apply Hk.
  - rewrite !snd_bind, Hf. destruct (fst m0); try exact Ho.
    rewrite !stdout_of_app, Ho. f_equal. apply Hk.
Qed.

Lemma quiet_same_run {A} (m1 m0 : M A) : quiet_pair m1 m0 -> same_run m1 m0.
Proof. intros (Hf & H1 & H0). split; [exact Hf|]. unfold silent in *. congruence. Qed.

Lemma same_run_refl {A} (m : M A) : same_run m m.
Proof. now split. Qed.

Section Verbose.
Context `{Platform}.

Lemma pure_store w i v buffer : pure (store w i v buffer).
Proof. unfold store. now destruct (_ <=? _)%nat. Qed.

Lemma pure_fill_loop distr w todo : forall i g buffer,
  pure (fill_loop distr w todo i g buffer).
Proof.
  induction todo as [|k IH]; intros i g buffer; [reflexivity|].
  cbn [fill_loop]. destruct (distr g) as [v g'].
  apply pure_bind; [apply pure_store|]. intros b. apply IH.
Qed.

Lemma quiet_Fill buffer shape :
  quiet_pair (Fill true buffer shape) (Fill false buffer shape).
Proof.
  unfold Fill. quiet.
  assert (Hint : forall T n, pure (FillIntT T buffer n))
    by (intros; apply pure_fill_loop).
  assert (Hfl : forall w n, pure (FillFloatT w buffer n))
    by (intros; apply pure_fill_loop).
  destruct (enumerator (type shape)) as [[]|];
    try (apply quiet_same, pure_silent; first [apply Hint|apply Hfl|apply pure_ret]).
  all: apply quiet_same, silent_bind; [apply pure_silent, pure_ToString|];
    intros; apply silent_ExitWithMsg.
Qed.

(** A fill loop that returns stayed inside the block. *)
Lemma fill_loop_Ret distr w todo : forall i g buffer buffer',
  fst (fill_loop distr w todo i g buffer) = Ret buffer' ->
  length buffer' = length buffer /\
  (todo = O \/ ((i + todo) * w <= length buffer)%nat).
Proof.
  induction todo as [|k IH]; intros i g buffer buffer' Hr.
  - cbn in Hr. injection Hr as ->. auto.
  - cbn [fill_loop] in Hr. destruct (distr g) as [v g'].
    unfold store in Hr.
    destruct (Nat.leb_spec (i * w + w) (length buffer)) as [Hle|]; [|discriminate Hr].
    rewrite bind_ret_l in Hr. apply IH in Hr as [Hlen Hb].
    rewrite !length_app, length_take, length_encode_le, length_drop in Hlen, Hb.
    split; [lia|]. right. destruct Hb as [->|Hb]; lia.
Qed.

Lemma display_loop_Ret show w num todo : forall i buffer,
  (todo = O \/ ((i + todo) * w <= length buffer)%nat) ->
  fst (display_loop show w num todo i buffer) = Ret tt.
Proof.
  induction todo as [|k IH]; intros i buffer Hb; [reflexivity|].
  destruct Hb as [Hb|Hb]; [discriminate Hb|].
  cbn [display_loop]. unfold load.
  destruct (Nat.leb_spec (i * w + w) (length buffer)) as [_|]; [|lia].
  rewrite bind_ret_l, fst_bind. cbn [print fst].
  rewrite fst_bind.
  destruct (negb _); cbn [print ret fst]; apply IH; right; lia.
Qed.

Lemma DisplayT_Ret show w buffer num :
  (Z.to_nat num = O \/ (Z.to_nat num * w <= length buffer)%nat) ->
  fst (DisplayT show w buffer num) = Ret tt.
Proof.
  intros Hb. unfold DisplayT. rewrite fst_bind, display_loop_Ret; [reflexivity|].
  exact Hb.
Qed.

(** A block that [Fill] returned can be displayed under the same shape. *)
Lemma Fill_then_Display verbose buffer buffer' shape :
  fst (Fill verbose buffer shape) = Ret buffer' ->
  fst (Display buffer' shape) = Ret tt.
Proof.
  unfold Fill. rewrite fst_bind, fst_Log. cbv beta match.
  unfold ToString.
  destruct (nth_error primitive_strings (type shape)) as [name|] eqn:Hname;
    [|discriminate].
  cbn [of_option]. rewrite bind_ret_l, fst_bind, fst_Log. cbv beta match.
  assert (Hlt : (type shape < 13)%nat).
  { change 13%nat with (length primitive_strings).
    apply nth_error_Some. rewrite Hname. discriminate. }
  destruct (enum_value_surj _ Hlt) as [t Ht].
  unfold Display. rewrite Ht, enumerator_enum_value.
  assert (Hloop : forall distr w,
             fst (fill_loop distr w (Z.to_nat (GetNumElements shape)) 0
                            (mt19937_seed kSeed) buffer) = Ret buffer' ->
             forall show, fst (DisplayT show w buffer' (GetNumElements shape)) = Ret tt).
  { intros distr w Hr show. apply fill_loop_Ret in Hr as [Hlen Hb].
    apply DisplayT_Ret. rewrite Hlen. exact Hb. }
  destruct t; unfold FillIntT, FillFloatT, DisplayIntT; intros Hr;
    try (eapply Hloop; exact Hr).
  all: rewrite fst_bind in Hr; cbn in Hr; discriminate Hr.
Qed.

Lemma one_sided_FillParameter assignment table param_idx :
  one_sided (FillParameter true assignment table param_idx)
            (FillParameter false assignment table param_idx).
Proof.
  unfold FillParameter.
  apply one_sided_bind; [apply quiet_one_sided, quiet_same, silent_Check|].
  intros _ _.
  apply one_sided_bind; [apply quiet_one_sided, quiet_same, pure_silent, pure_of_option|].
  intros shape _.
  apply one_sided_bind.
  { apply quiet_one_sided, quiet_same. unfold CheckNumElements.
    apply silent_bind; [apply pure_silent; unfold at_index;
                        destruct (_ <? _); [reflexivity|apply pure_of_option]|].
    intros size. apply silent_bind; [apply pure_silent, pure_ByteSize|].
    intros bytes. apply silent_Check. }
  intros _ _.
  apply one_sided_bind.
  { apply quiet_one_sided, quiet_same, pure_silent. unfold at_index.
    destruct (_ <? _); [reflexivity|apply pure_of_option]. }
  intros block _.
  apply one_sided_bind; [apply quiet_one_sided, quiet_Fill|].
  intros block' Hfill.
  apply one_sided_bind; [|intros; now split].
  split; [|reflexivity].
  rewrite fst_bind. cbn [print fst].
  now rewrite (Fill_then_Display false block block' shape Hfill).
Qed.

Lemma same_run_Log v1 v0 msg : same_run (Log v1 msg) (Log v0 msg).
Proof. apply quiet_same_run, quiet_Log. Qed.

Lemma at_index_Ret {A} (v : list A) idx x :
  fst (at_index v idx) = Ret x -> 0 <= idx /\ v !! Z.to_nat idx = Some x.
Proof.
  unfold at_index. destruct (Z.ltb_spec idx 0); [discriminate|].
  destruct (v !! Z.to_nat idx); [|discriminate]. cbn. intros [= ->]. auto.
Qed.

Lemma dump_bind {A B} (D : outcome B -> text) (m1 m0 : M A)
  (f1 f0 : A -> M B) :
  (forall n, D (Exit n) = []) -> (forall e, D (Throw e) = []) ->
  D Undefined = [] ->
  quiet_pair m1 m0 ->
  (forall a, fst m0 = Ret a ->
     fst (f1 a) = fst (f0 a) /\ stdout_of (snd (f1 a)) = D (fst (f0 a))) ->
  fst (bind m1 f1) = fst (bind m0 f0) /\
  stdout_of (snd (bind m1 f1)) = D (fst (bind m0 f0)).
Proof.
  intros HE HT HU (Hf & H1 & H0) Hk. unfold silent in *.
  rewrite !fst_bind, snd_bind, Hf.
  destruct (fst m0) as [a| | |] eqn:Hm; rewrite ?HE, ?HT, ?HU; auto.
  rewrite stdout_of_app, H1. now apply Hk.
Qed.

Lemma FillParameter_shape verbose assignment table param_idx table' :
  fst (FillParameter verbose assignment table param_idx) = Ret table' ->
  exists shape, elements (shape_at assignment param_idx) = [shape].
Proof.
  intros Hr. unfold FillParameter in Hr.
  apply bind_Ret_inv in Hr as (u & Hcheck & _). unfold Check in Hcheck.
  destruct (elements (shape_at assignment param_idx)) as [|shape [|shape' es]];
    try discriminate Hcheck.
  now exists shape.
Qed.

(** What VERBOSE adds to the standard output in one turn of the loop. *)
Lemma FillParameter_dump assignment table param_idx :
  fst (FillParameter true assignment table param_idx)
  = fst (FillParameter false assignment table param_idx) /\
  stdout_of (snd (FillParameter true assignment table param_idx))
  = match fst (FillParameter false assignment table param_idx),
          elements (shape_at assignment param_idx) with
    | Ret table', shape :: _ =>
        (str "Filled parameter buffer for param " ++ to_string param_idx
         ++ str ": " ++ endl)
        ++ stdout_of (snd (Display (nth (Z.to_nat param_idx) table' []) shape))
    | _, _ => []
    end.
Proof.
  set (D := fun o : outcome (list text) =>
              match o, elements (shape_at assignment param_idx) with
              | Ret table', shape :: _ =>
                  (str "Filled parameter buffer for param " ++ to_string param_idx
                   ++ str ": " ++ endl)
                  ++ stdout_of (snd (Display (nth (Z.to_nat param_idx) table' [])
                                             shape))
              | _, _ => []
              end).
  change (fst (FillParameter true assignment table param_idx)
          = fst (FillParameter false assignment table param_idx) /\
          stdout_of (snd (FillParameter true assignment table param_idx))
          = D (fst (FillParameter false assignment table param_idx))).
  assert (HE : forall n, D (Exit n) = []) by reflexivity.
  assert (HT : forall e, D (Throw e) = []) by reflexivity.
  assert (HU : D Undefined = []) by reflexivity.
  unfold FillParameter.
  apply dump_bind; [exact HE|exact HT|exact HU|apply quiet_same, silent_Check|].
  intros _ _.
  apply dump_bind; [exact HE|exact HT|exact HU
                   |apply quiet_same, pure_silent, pure_of_option|].
  intros shape Hshape.
  apply dump_bind; [exact HE|exact HT|exact HU| |].
  { apply quiet_same. unfold CheckNumElements.
    apply silent_bind; [apply pure_silent; unfold at_index;
                        destruct (_ <? _); [reflexivity|apply pure_of_option]|].
    intros size. apply silent_bind; [apply pure_silent, pure_ByteSize|].
    intros bytes. apply silent_Check. }
  intros _ _.
  apply dump_bind; [exact HE|exact HT|exact HU| |].
  { apply quiet_same, pure_silent. unfold at_index.
    destruct (_ <? _); [reflexivity|apply pure_of_option]. }
  intros block Hblock.
  apply dump_bind; [exact HE|exact HT|exact HU|apply quiet_Fill|].
  intros block' Hfill.
  apply at_index_Ret in Hblock as [_ Hblock].
  assert (Hes : exists es, elements (shape_at assignment param_idx) = shape :: es).
  { destruct (elements (shape_at assignment param_idx)) as [|shape0 es];
      [discriminate Hshape|].
    cbn in Hshape. injection Hshape as ->. now exists es. }
  destruct Hes as [es Hes].
  pose proof (Fill_then_Display false block block' shape Hfill) as Hdisplay.
  cbv beta iota.
  rewrite !fst_bind, !snd_bind. cbn [print ret fst snd].
  rewrite ?fst_bind. cbn [print fst]. rewrite !Hdisplay.
  split; [reflexivity|].
  unfold D. rewrite Hes.
  rewrite (nth_lookup_Some _ _ [] block')
    by (apply list_lookup_insert_eq; eapply lookup_lt_Some; exact Hblock).
  rewrite !stdout_of_app. cbn [stdout_of]. now rewrite !app_nil_r.
Qed.

(** What VERBOSE adds to the standard output in the loop. *)
Lemma loop_dump assignment : forall params table,
  fst (foldM (FillParameter true assignment) table params)
  = fst (foldM (FillParameter false assignment) table params) /\
  stdout_of (snd (foldM (FillParameter true assignment) table params))
  = parameter_dump assignment table params.
Proof.
  induction params as [|param_idx params IH]; intros table; [now split|].
  cbn [foldM parameter_dump].
  destruct (FillParameter_dump assignment table param_idx) as [Hf Hd].
  rewrite !fst_bind, snd_bind, Hf.
  destruct (fst (FillParameter false assignment table param_idx))
    as [table'| | |] eqn:HFP.
  - destruct (FillParameter_shape _ _ _ _ _ HFP) as [shape Hes].
    rewrite Hes in *. destruct (IH table') as [IHf IHd].
    split; [exact IHf|]. now rewrite stdout_of_app, Hd, IHd, <- app_assoc.
  - now split.
  - now split.
  - now split.
Qed.

(** C1 (as amended).  With and without VERBOSE the run ends the same way,
    and what it writes to the standard output with VERBOSE is the dump of
    the parameters, [verbose_dump], followed by what it writes without:
    VERBOSE adds text only in front, before the line "Output:", and what
    it adds is, for each parameter filled, in the order of the loop, the
    line "Filled parameter buffer for param <n>: " and the display of the
    buffer of that number as the fill left it. *)
Theorem verbose_only_prepends (argv : list text) (fs : text -> option text) :
  fst (main true argv fs) = fst (main false argv fs) /\
  stdout_of (snd (main true argv fs))
  = verbose_dump argv fs ++ stdout_of (snd (main false argv fs)).
Proof.
  unfold verbose_dump, main. destruct argv as [|arg argv]; [now split|].
  destruct (text_eqb arg (str "--help")); [now split|].
  destruct (quiet_ParseBufferAssignment (default [] (fs arg))) as (Pf & P1 & P0).
  unfold silent in P1, P0.
  rewrite !fst_bind, !snd_bind, Pf.
  destruct (fst (ParseBufferAssignment false (default [] (fs arg))))
    as [assignment| | |]; try (split; [reflexivity|now rewrite P1, P0]).
  rewrite !stdout_of_app, P1, P0. cbn [app].
  destruct (loop_dump assignment (params_idx assignment) (BufferTable assignment))
    as [Lf Ld].
  assert (L0 : silent (foldM (FillParameter false assignment)
                             (BufferTable assignment) (params_idx assignment))).
  { apply (one_sided_foldM (FillParameter true assignment)
                           (FillParameter false assignment)).
    intros s x. apply one_sided_FillParameter. }
  unfold silent in L0.
  rewrite !fst_bind, !snd_bind, Lf.
  destruct (fst (foldM (FillParameter false assignment) (BufferTable assignment)
                       (params_idx assignment))) as [table| | |];
    try (split; [reflexivity|now rewrite Ld, L0, app_nil_r]).
  rewrite !stdout_of_app, Ld, L0. cbn [app].
  match goal with
  | |- fst ?r1 = fst ?r0 /\ _ => assert (Hrest : same_run r1 r0)
  end.
  { apply same_run_bind; [apply same_run_Log|]. intros _.
    destruct (EntryModule table) as [table' pointee].
    apply same_run_bind; [apply same_run_refl|]. intros _.
    apply same_run_bind; [apply same_run_refl|]. intros shown.
    apply same_run_bind; [apply same_run_Log|]. intros _.
    apply same_run_refl. }
  destruct Hrest as [Rf Ro]. split; [exact Rf|now rewrite Ro].
Qed.

End Verbose.

(** C1 as stated fails: with VERBOSE set, the run writes the filled
    parameter to the standard output before the output buffer. *)
Lemma verbose_changes_stdout :
  let run verbose :=
    @main sample_platform verbose [str "table"] (fun _ => Some verbose_file) in
  stdout_of (snd (run false)) = str "Output:
0, 0, 0, 0
" /\
  stdout_of (snd (run true)) = str "Filled parameter buffer for param 0: 
-58, -46
Output:
0, 0, 0, 0
" /\
  stdout_of (snd (run true)) <> stdout_of (snd (run false)).
Proof.
  intros run. split; [vm_compute; reflexivity|].
  split; [vm_compute; reflexivity|]. vm_compute. discriminate.
Qed.

(** ** More on the assignment parser *)

Lemma bind_ext {A B} (m : M A) (f g : A -> M B) :
  (forall a, f a = g a) -> bind m f = bind m g.
Proof. intros Hfg. destruct m as [[a| | |] t]; cbn; try reflexivity. now rewrite Hfg. Qed.

Lemma ParseLine_no_match verbose a line :
  regex_search allocation_line_r line = None -> ParseLine verbose a line = ret a.
Proof. intros Hno. unfold ParseLine. now rewrite Hno. Qed.

(** X1.  Lines that do not match the allocation pattern are ignored: the
    parser reads a sequence of lines as it reads the matching ones
    among them, with the same result and the same log. *)
Theorem unmatched_lines_are_ignored (verbose : bool) (lines : list text)
  (assignment : BufferAssignment) :
  foldM (ParseLine verbose) assignment lines
  = foldM (ParseLine verbose) assignment
          (List.filter (fun line => matched (regex_search allocation_line_r line))
                       lines).
Proof.
  revert assignment. induction lines as [|line lines IH]; intros a; [reflexivity|].
  cbn [List.filter foldM].
  destruct (regex_search allocation_line_r line) as [m|] eqn:Hm; cbn [matched].
  - cbn [foldM]. apply bind_ext. exact IH.
  - rewrite ParseLine_no_match by exact Hm. rewrite bind_ret_l. apply IH.
Qed.

(** X2.  A file none of whose lines matches the allocation pattern (an
    empty or unreadable file among them) ends the run with [exit(1)] and
    the one line "Output not set", whatever VERBOSE is. *)
Theorem no_allocation_line_no_output (verbose : bool) (infile : text) :
  Forall (fun line => regex_search allocation_line_r line = None)
         (getlines "010" infile) ->
  ParseBufferAssignment verbose infile
  = (Exit 1, [cerr (str "Output not set" ++ endl)]).
Proof.
  intros Hno. unfold ParseBufferAssignment.
  assert (Hfold : forall a, foldM (ParseLine verbose) a (getlines "010" infile) = ret a).
  { induction Hno as [|line lines Hline _ IH]; intros a; [reflexivity|].
    cbn [foldM]. now rewrite ParseLine_no_match, bind_ret_l. }
  rewrite Hfold, bind_ret_l. reflexivity.
Qed.

Lemma no_allocation_line_no_output_witness :
  ParseBufferAssignment true annotation_lines
  = (Exit 1, [cerr (str "Output not set" ++ endl)]) /\
  ParseBufferAssignment false [] = (Exit 1, [cerr (str "Output not set" ++ endl)]).
Proof.
  split; apply no_allocation_line_no_output.
  - vm_compute. repeat constructor.
  - vm_compute. constructor.
Defined.

(** X3.  An output marker on a line read after the output was set ends
    the run with [exit(1)] and the line "Multiple out-parameters"; the
    shape of the marker is not even parsed. *)
Theorem second_output_is_rejected (verbose : bool) (allocation_idx : Z)
  (postfix : text) (assignment : BufferAssignment) (output_match : list text) :
  regex_search output_r postfix = Some output_match ->
  output_idx assignment <> -1 ->
  ParseOutputMarker verbose allocation_idx postfix assignment
  = (Exit 1, snd (Log verbose (str "Matched out parameter: " ++ postfix))
             ++ [cerr (str "Multiple out-parameters" ++ endl)]).
Proof.
  intros Hm Hset. unfold ParseOutputMarker. rewrite Hm.
  destruct (Z.eqb_spec (output_idx assignment) (-1)) as [|_]; [congruence|].
  destruct verbose; reflexivity.
Qed.

Lemma second_output_is_rejected_witness :
  ParseOutputMarker false 5 second_output_postfix
                    (set_output_idx empty_assignment 1)
  = (Exit 1, [cerr (str "Multiple out-parameters" ++ endl)]).
Proof.
  apply (second_output_is_rejected false 5 second_output_postfix
           (set_output_idx empty_assignment 1) [str "f32[]"]).
  - vm_compute. reflexivity.
  - cbn. lia.
Defined.

(** X4.  An allocation line whose index is not the number of buffers read
    so far ends the run with [exit(1)] and the line "Unordered allocations
    in input"; nothing of the line is recorded. *)
Theorem unordered_allocation_is_rejected (verbose : bool)
  (assignment : BufferAssignment) (line : text) (m : list text)
  (allocation_idx size : Z) :
  regex_search allocation_line_r line = Some m ->
  stoi (nth 0 m []) = ret allocation_idx ->
  stoi (nth 1 m []) = ret size ->
  allocation_idx <> Z.of_nat (length (buffers_size assignment)) ->
  ParseLine verbose assignment line
  = (Exit 1,
     snd (Log verbose (str "Matched allocation description: " ++ line))
     ++ snd (Log verbose (str "Allocation size = " ++ to_string size))
     ++ [cerr (str "Unordered allocations in input" ++ endl)]).
Proof.
  intros Hm Hidx Hsize Hne. unfold ParseLine. rewrite Hm, Hidx, Hsize.
  assert (Heq : (allocation_idx =? Z.of_nat (length (buffers_size assignment))) = false)
    by now apply Z.eqb_neq.
  destruct verbose; cbn [Log bind ret print]; rewrite Heq; reflexivity.
Qed.

Lemma unordered_allocation_is_rejected_witness :
  ParseLine false empty_assignment allocation_two
  = (Exit 1, [cerr (str "Unordered allocations in input" ++ endl)]).
Proof.
  apply (unordered_allocation_is_rejected false empty_assignment allocation_two
           [str "2"; str "4"; str "constant:"] 2 4);
    try (vm_compute; reflexivity).
  cbn. lia.
Defined.

(** *** The invariant of the shape table *)

Lemma ParseOutputMarker_keys verbose idx postfix a a' :
  0 <= idx < Z.of_nat (length (buffers_size a)) ->
  shape_keys_ok a ->
  fst (ParseOutputMarker verbose idx postfix a) = Ret a' ->
  shape_keys_ok a' /\ buffers_size a' = buffers_size a.
Proof.
  intros Hidx Hok Hr. unfold ParseOutputMarker in Hr.
  destruct (regex_search output_r postfix) as [om|].
  - bind_inv Hr. cbn in Hr. injection Hr as <-. split; [|reflexivity].
    intros k Hk. cbn in Hk |- *. apply lookup_insert_is_Some in Hk as [<-|[_ Hk]];
      [exact Hidx|now apply Hok].
  - cbn in Hr. injection Hr as <-. auto.
Qed.

Lemma ParseParameterMarker_keys verbose idx postfix a a' :
  0 <= idx < Z.of_nat (length (buffers_size a)) ->
  shape_keys_ok a ->
  fst (ParseParameterMarker verbose idx postfix a) = Ret a' ->
  shape_keys_ok a' /\ buffers_size a' = buffers_size a.
Proof.
  intros Hidx Hok Hr. unfold ParseParameterMarker in Hr.
  destruct (regex_search parameter_r postfix) as [pm|].
  - bind_inv Hr. cbn in Hr. injection Hr as <-. split; [|reflexivity].
    intros k Hk. cbn in Hk |- *. apply lookup_insert_is_Some in Hk as [<-|[_ Hk]];
      [exact Hidx|now apply Hok].
  - cbn in Hr. injection Hr as <-. auto.
Qed.

Lemma ParseLine_keys verbose a line a' :
  shape_keys_ok a -> fst (ParseLine verbose a line) = Ret a' -> shape_keys_ok a'.
Proof.
  intros Hok Hr. unfold ParseLine in Hr.
  destruct (regex_search allocation_line_r line) as [m|].
  2:{ cbn in Hr. now injection Hr as <-. }
  apply bind_Ret_inv in Hr as (u0 & _ & Hr).
  apply bind_Ret_inv in Hr as (idx & _ & Hr).
  apply bind_Ret_inv in Hr as (size & _ & Hr).
  apply bind_Ret_inv in Hr as (u1 & _ & Hr).
  apply bind_Ret_inv in Hr as (u2 & Hcheck & Hr).
  apply bind_Ret_inv in Hr as (a1 & Hout & Hr).
  unfold Check in Hcheck.
  destruct (Z.eqb_spec idx (Z.of_nat (length (buffers_size a)))) as [->|];
    [|discriminate Hcheck].
  set (a0 := set_buffers_size a (buffers_size a ++ [size])) in *.
  assert (Hlen : length (buffers_size a0) = S (length (buffers_size a)))
    by (cbn; rewrite length_app; cbn; lia).
  assert (Hok0 : shape_keys_ok a0).
  { intros k Hk. rewrite Hlen. specialize (Hok k Hk). lia. }
  apply ParseOutputMarker_keys in Hout as [Hok1 Hsz]; [|rewrite Hlen; lia|exact Hok0].
  apply ParseParameterMarker_keys in Hr as [Hok2 _];
    [exact Hok2|rewrite Hsz, Hlen; lia|exact Hok1].
Qed.

(** X5.  What an assignment the parser returns satisfies: every key of
    [buffers_shape] is the index of a buffer of [buffers_size], and the
    output index is such an index and has a shape. *)
Theorem parsed_assignment_invariant (verbose : bool) (infile : text)
  (assignment : BufferAssignment) :
  fst (ParseBufferAssignment verbose infile) = Ret assignment ->
  shape_keys_ok assignment /\
  0 <= output_idx assignment < Z.of_nat (length (buffers_size assignment)) /\
  is_Some (buffers_shape assignment !! output_idx assignment).
Proof.
  intros Hr. split; [|exact (output_idx_is_valid verbose infile assignment Hr)].
  unfold ParseBufferAssignment in Hr.
  apply bind_Ret_inv in Hr as (a0 & Hfold & Hr).
  apply bind_Ret_inv in Hr as (u & _ & Hr).
  cbn in Hr. injection Hr as <-.
  assert (H0 : shape_keys_ok empty_assignment).
  { intros k [x Hk]. cbn in Hk. rewrite lookup_empty in Hk. discriminate Hk. }
  exact (foldM_invariant (ParseLine verbose) shape_keys_ok _ _ _
                         (ParseLine_keys verbose) H0 Hfold).
Qed.

Lemma parsed_assignment_invariant_witness :
  exists assignment,
    fst (ParseBufferAssignment false three_allocations) = Ret assignment /\
    shape_keys_ok assignment /\
    0 <= output_idx assignment < 3.
Proof.
  eexists. split; [vm_compute; reflexivity|].
  match goal with
  | |- shape_keys_ok ?a /\ _ =>
      destruct (parsed_assignment_invariant false three_allocations a)
        as (Hk & Ho & _); [vm_compute; reflexivity|]
  end.
  split; [exact Hk|exact Ho].
Defined.

(** ** More on the shape model *)

Lemma text_eqb_eq a b : text_eqb a b = true <-> a = b.
Proof.
  revert b; induction a as [|x a IH]; intros [|y b]; cbn; try (split; discriminate || reflexivity).
  rewrite andb_true_iff. unfold ascii_eqb. rewrite Ascii.eqb_eq, IH.
  split; [intros [-> ->]; reflexivity|intros [= -> ->]; auto].
Qed.

Lemma find_index_spec s vec :
  (In s vec -> nth_error vec (find_index s vec) = Some s) /\
  (~ In s vec -> find_index s vec = length vec).
Proof.
  induction vec as [|x vec [IHin IHout]]; cbn [find_index].
  - split; [intros []|reflexivity].
  - destruct (text_eqb x s) eqn:Hx.
    + apply text_eqb_eq in Hx. subst x. split; [reflexivity|].
      intros Hno. exfalso. apply Hno. now left.
    + assert (x <> s) by (intros ->; rewrite (proj2 (text_eqb_eq s s) eq_refl) in Hx;
                          discriminate).
      split.
      * intros [Heq|Hin]; [congruence|]. cbn. now apply IHin.
      * intros Hno. cbn. f_equal. apply IHout. intros Hin. apply Hno. now right.
Qed.

(** X6.  The type token and the enumeration: a token of the table is
    converted to a value that [ToString] converts back to it; any other
    text is converted to 13, the size of the table, which is no
    enumerator and at which [ToString] indexes past the end. *)
Theorem type_token_lookup (s : text) :
  (In s primitive_strings ->
   ToString (PrimitiveTypeFromString s) = ret s /\
   exists t, PrimitiveTypeFromString s = enum_value t) /\
  (~ In s primitive_strings ->
   PrimitiveTypeFromString s = 13%nat /\
   enumerator (PrimitiveTypeFromString s) = None /\
   ToString (PrimitiveTypeFromString s) = undefined).
Proof.
  unfold PrimitiveTypeFromString, ToString.
  destruct (find_index_spec s primitive_strings) as [Hin Hout]. split.
  - intros Hs. rewrite (Hin Hs). split; [reflexivity|].
    apply enum_value_surj. change 13%nat with (length primitive_strings).
    apply nth_error_Some. rewrite (Hin Hs). discriminate.
  - intros Hs. rewrite (Hout Hs). repeat split.
Qed.

Lemma type_token_lookup_witness :
  ToString (PrimitiveTypeFromString (str "bf16")) = ret (str "bf16") /\
  PrimitiveTypeFromString (str "float") = 13%nat.
Proof.
  destruct (type_token_lookup (str "bf16")) as [Hin _].
  destruct (type_token_lookup (str "float")) as [_ Hout].
  split.
  - apply Hin. vm_compute. tauto.
  - apply Hout. vm_compute. intuition discriminate.
Defined.

Lemma ByteSize_sizeof t w :
  sizeof_element t = Some w -> ByteSize (enum_value t) = ret (Z.of_nat w).
Proof. destruct t; try discriminate; intros [= <-]; reflexivity. Qed.

(** X7.  The byte width [ByteSize] reads off the token is the size of the
    C++ type [Fill] and [Display] use for every supported enumerator; it is
    2, 8 and 16 for f16, c64 and c128; for bf16 the token leaves "f16" to
    [std::stoi], which throws; outside the enumeration it is undefined. *)
Theorem ByteSize_table :
  (forall t w, sizeof_element t = Some w ->
               ByteSize (enum_value t) = ret (Z.of_nat w)) /\
  ByteSize (enum_value F16) = ret 2 /\
  ByteSize (enum_value C64) = ret 8 /\
  ByteSize (enum_value C128) = ret 16 /\
  ByteSize (enum_value BF16) = throw invalid_argument /\
  (forall type, (13 <= type)%nat -> ByteSize type = undefined).
Proof.
  split; [|repeat split].
  - exact ByteSize_sizeof.
  - intros type Hge. unfold ByteSize, ToString.
    replace (nth_error primitive_strings type) with (@None text); [reflexivity|].
    symmetry. apply nth_error_None. exact Hge.
Qed.

Lemma ByteSize_table_witness :
  ByteSize (enum_value U16) = ret 2 /\ ByteSize 20 = undefined.
Proof.
  destruct ByteSize_table as (Hsup & _ & _ & _ & _ & Hout).
  split; [apply (Hsup U16 2%nat); reflexivity|apply Hout; lia].
Defined.

(** *** The number of elements *)

Lemma wrap_int_range z : INT_MIN <= wrap_int z <= INT_MAX.
Proof.
  unfold wrap_int, INT_MIN, INT_MAX.
  pose proof (Z.mod_pos_bound (z + 2 ^ 31) (2 ^ 32) eq_refl). lia.
Qed.

Lemma wrap_int_small z : INT_MIN <= z <= INT_MAX -> wrap_int z = z.
Proof.
  unfold wrap_int, INT_MIN, INT_MAX. intros Hz.
  rewrite Z.mod_small by lia. lia.
Qed.

Lemma wrap_int_mul a b : wrap_int (wrap_int a * b) = wrap_int (a * b).
Proof.
  unfold wrap_int. f_equal.
  rewrite (Z.mod_eq (a + 2 ^ 31) (2 ^ 32)) by discriminate.
  assert (Hm : 2 ^ 32 <> 0) by discriminate.
  generalize dependent (2 ^ 32). generalize (2 ^ 31). intros h m Hm.
  generalize ((a + h) `div` m). intros q.
  assert (He : (a + h - m * q - h) * b + h = a * b + h + (- q * b) * m).
  { ring. }
  rewrite He. now apply Z.mod_add.
Qed.

Lemma fold_wrap dims : forall acc,
  fold_left (fun n d => wrap_int (n * d)) dims (wrap_int acc)
  = wrap_int (acc * product dims).
Proof.
  induction dims as [|d dims IH]; intros acc.
  - cbn. now rewrite Z.mul_1_r.
  - change (product (d :: dims)) with (d * product dims). cbn [fold_left].
    rewrite wrap_int_mul, IH. f_equal. ring.
Qed.

Lemma GetNumElements_wrap (shape : ArrayShape) :
  GetNumElements shape = wrap_int (product (dimensions shape)).
Proof.
  unfold GetNumElements. change 1 with (wrap_int 1) at 1.
  rewrite fold_wrap. f_equal. lia.
Qed.

Lemma running_products_last dims : forall acc,
  dims <> [] ->
  Forall (fun p => INT_MIN <= p <= INT_MAX) (running_products acc dims) ->
  INT_MIN <= acc * product dims <= INT_MAX.
Proof.
  induction dims as [|d dims IH]; intros acc Hne Hall; [congruence|].
  cbn [running_products] in Hall. apply Forall_cons in Hall as [Hd Hall].
  change (product (d :: dims)) with (d * product dims).
  destruct dims as [|d' dims'].
  - cbn. rewrite Z.mul_1_r. exact Hd.
  - rewrite Z.mul_assoc. apply IH; [discriminate|exact Hall].
Qed.

(** X8.  [GetNumElements] without overflow: when none of the
    multiplications of the loop leaves the range of [int], the result is
    the product of the dimensions; it is 1 for a scalar. *)
Theorem GetNumElements_product (shape : ArrayShape) :
  Forall (fun p => INT_MIN <= p <= INT_MAX)
         (running_products 1 (dimensions shape)) ->
  GetNumElements shape = product (dimensions shape).
Proof.
  intros Hall. rewrite GetNumElements_wrap.
  destruct (dimensions shape) as [|d dims] eqn:Hdims; [reflexivity|].
  apply wrap_int_small.
  rewrite <- (Z.mul_1_l (product (d :: dims))).
  apply running_products_last; [discriminate|exact Hall].
Qed.

Lemma GetNumElements_product_witness :
  GetNumElements {| type := enum_value F32; dimensions := [256; 0; 32] |} = 0.
Proof.
  apply (GetNumElements_product {| type := enum_value F32; dimensions := [256; 0; 32] |}).
  repeat constructor; vm_compute; discriminate.
Defined.

(** ** Parsing what was printed *)

Lemma valid_shape_text shape :
  valid_shape shape ->
  exists s, ArrayShapeToString shape = ret s /\ formatted_array_text s /\
            forall verbose, fst (ArrayShapeFromString verbose s) = Ret shape.
Proof.
  destruct shape as [ty dims]. intros [[t Ht] Hdims]. cbn in Ht, Hdims. subst ty.
  eexists. split; [apply (ArrayShape_round_trip false t dims Hdims)|]. split.
  - exists t, dims. split; [exact Hdims|reflexivity].
  - intros verbose.
    now rewrite (proj1 (ArrayShape_round_trip verbose t dims Hdims)).
Qed.

Lemma valid_shapes_texts shapes :
  Forall valid_shape shapes ->
  exists parts,
    mapM ArrayShapeToString shapes = ret parts /\
    Forall formatted_array_text parts /\
    forall verbose, fst (mapM (ArrayShapeFromString verbose) parts) = Ret shapes.
Proof.
  induction 1 as [|shape shapes Hs _ (parts & Hfmt & Htext & Hparse)].
  - exists []. repeat split. constructor.
  - destruct (valid_shape_text shape Hs) as (s & Hf & Ht & Hp).
    exists (s :: parts). repeat split.
    + cbn [mapM]. now rewrite Hf, bind_ret_l, Hfmt, bind_ret_l.
    + now constructor.
    + intros verbose. cbn [mapM].
      rewrite fst_bind, Hp, fst_bind, Hparse. reflexivity.
Qed.

(** X9.  Printing then parsing gives the shape back: for an array shape
    whose type is an enumerator and whose dimensions are non-negative
    [int]s, and for a tuple of such shapes of any length, the empty tuple
    and the tuple of one element included. *)
Theorem parse_after_print (verbose : bool) :
  (forall shape, valid_shape shape ->
     exists s, ArrayShapeToString shape = ret s /\
               fst (ArrayShapeFromString verbose s) = Ret shape) /\
  (forall shape, Forall valid_shape (elements shape) ->
     exists s, TupleShapeToString shape = ret s /\
               fst (TupleShapeFromString verbose s) = Ret shape).
Proof.
  split.
  - intros shape Hs. destruct (valid_shape_text shape Hs) as (s & Hf & _ & Hp).
    exists s. auto.
  - intros [es] Hes. cbn [elements] in Hes.
    destruct (valid_shapes_texts es Hes) as (parts & Hfmt & Htext & Hparse).
    assert (Hparens :
              fst (TupleShapeFromString verbose
                     (str "(" ++ join (str ", ") parts ++ str ")"))
              = Ret {| elements := es |}).
    { unfold TupleShapeFromString.
      change (str "(" ++ join (str ", ") parts ++ str ")")
        with ("("%char :: join (str ", ") parts ++ [")"%char]).
      rewrite fst_bind, fst_Log. cbv beta match.
      rewrite substr_inner, bind_ret_l, mapM_ParseSubshape by exact Htext.
      now rewrite fst_bind, Hparse. }
    unfold TupleShapeToString. cbn [elements].
    destruct es as [|e [|e' es]].
    + eexists. split; [now rewrite Hfmt, bind_ret_l|exact Hparens].
    + clear Hparens. inversion Hes as [|? ? He _]; subst.
      destruct (valid_shape_text e He) as (s & Hf & Ht & Hp).
      exists s. split; [exact Hf|].
      destruct (array_text_facts s Ht) as (_ & _ & Hparen & _).
      rewrite TupleShapeFromString_bare by exact Hparen.
      rewrite fst_bind, fst_Log. cbv beta match. now rewrite fst_bind, Hp.
    + eexists. split; [now rewrite Hfmt, bind_ret_l|exact Hparens].
Qed.

Lemma parse_after_print_witness :
  let f32 := {| type := enum_value F32; dimensions := [10; 20] |} in
  let u32 := {| type := enum_value U32; dimensions := [] |} in
  valid_shape f32 /\
  exists s, TupleShapeToString {| elements := [f32; u32] |} = ret s /\
            fst (TupleShapeFromString true s) = Ret {| elements := [f32; u32] |}.
Proof.
  intros f32 u32.
  assert (H1 : valid_shape f32).
  { split; [now exists F32|]. repeat constructor; unfold INT_MAX; lia. }
  assert (H2 : valid_shape u32).
  { split; [now exists U32|]. constructor. }
  split; [exact H1|].
  apply (proj2 (parse_after_print true) {| elements := [f32; u32] |}).
  constructor; [exact H1|constructor; [exact H2|constructor]].
Defined.

(** ** Tuple texts that are not parsed *)

Lemma nonempty_last (s : text) : s <> [] -> exists body c, s = body ++ [c].
Proof.
  induction s as [|x s IH]; [congruence|]. intros _.
  destruct s as [|y s]; [now exists [], x|].
  destruct IH as (body & c & Hs); [discriminate|].
  exists (x :: body), c. cbn. now rewrite Hs.
Qed.

Lemma contains_app c a b : contains c (a ++ b) = contains c a || contains c b.
Proof.
  induction a as [|x a IH]; [reflexivity|]. cbn. now rewrite IH, orb_assoc.
Qed.

Lemma ParseSubshape_parenthesis verbose tok :
  contains "(" tok = true ->
  fst (ParseSubshape verbose tok) = Exit 1 /\
  exists logs,
    snd (ParseSubshape verbose tok)
    = logs ++ [cerr (str "Tuple shape is not supported" ++ endl)].
Proof.
  intros Hp.
  assert (Harray : forall s, contains "(" s = true ->
            ArrayShapeFromString verbose s
            = (Exit 1, snd (Log verbose (str "Array shape from string: " ++ s))
                       ++ [cerr (str "Tuple shape is not supported" ++ endl)])).
  { intros s Hs. unfold ArrayShapeFromString. rewrite Hs.
    destruct verbose; reflexivity. }
  destruct (nonempty_last tok) as (body & c & ->); [now destruct tok|].
  destruct (ascii_eqb c ",") eqn:Hc.
  - apply Ascii.eqb_eq in Hc. subst c.
    rewrite contains_app in Hp. cbn in Hp. rewrite orb_false_r in Hp.
    change [","%char] with (str ",").
    rewrite ParseSubshape_comma, (Harray body Hp). split; [reflexivity|eauto].
  - unfold ParseSubshape, last_char. rewrite last_app_one. cbn [of_option].
    rewrite bind_ret_l, Hc, bind_ret_l, (Harray _ Hp). split; [reflexivity|eauto].
Qed.

(** X10.  Nested tuples are rejected: when the first piece, up to the
    first space, of the text between the outer parentheses holds an
    opening parenthesis, [TupleShapeFromString] ends the run with
    [exit(1)] and the line "Tuple shape is not supported". *)
Theorem nested_tuple_is_rejected (verbose : bool) (inner tok : text)
  (more : list text) :
  getlines " " inner = tok :: more ->
  contains "(" tok = true ->
  let m := TupleShapeFromString verbose ("("%char :: inner ++ [")"%char]) in
  fst m = Exit 1 /\
  exists logs, snd m = logs ++ [cerr (str "Tuple shape is not supported" ++ endl)].
Proof.
  intros Htoks Hp m. unfold m, TupleShapeFromString.
  destruct (ParseSubshape_parenthesis verbose tok Hp) as (Hexit & logs & Hlogs).
  destruct (ParseSubshape verbose tok) as [r t] eqn:Hsub. cbn in Hexit, Hlogs.
  subst r t. cbv beta match.
  rewrite substr_inner, bind_ret_l, Htoks. cbn [mapM]. rewrite Hsub.
  destruct verbose; cbn [Log bind print ret fst snd].
  - split; [reflexivity|]. eexists. now rewrite app_assoc.
  - split; [reflexivity|]. exists logs. reflexivity.
Qed.

Lemma nested_tuple_is_rejected_witness :
  fst (TupleShapeFromString false nested_tuple) = Exit 1.
Proof.
  apply (nested_tuple_is_rejected false (str "(f32[2], s32[]), u8[4]")
           (str "(f32[2],") [str "s32[]),"; str "u8[4]"]); reflexivity.
Defined.

(** X11.  An empty piece is not parsed: when the text between the outer
    parentheses starts with a space, or has two spaces in a row before
    any other piece fails, the parser indexes the character before the
    start of an empty string, which is undefined. *)
Theorem empty_subshape_is_undefined (verbose : bool) (inner : text)
  (more : list text) :
  getlines " " inner = [] :: more ->
  fst (TupleShapeFromString verbose ("("%char :: inner ++ [")"%char])) = Undefined.
Proof.
  intros Htoks. unfold TupleShapeFromString.
  rewrite fst_bind, fst_Log. cbv beta match.
  rewrite substr_inner, bind_ret_l, Htoks. reflexivity.
Qed.

Lemma empty_subshape_is_undefined_witness :
  fst (TupleShapeFromString false (str "( f32[2], s32[])")) = Undefined.
Proof.
  apply (empty_subshape_is_undefined false (str " f32[2], s32[]")
           [str "f32[2],"; str "s32[]"]).
  reflexivity.
Defined.

(** ** More on the typed generator and the typed printer *)

Lemma elements_of_cons w n e rest :
  length e = w ->
  elements_of w (S n) (e ++ rest) = decode_le e :: elements_of w n rest.
Proof.
  intros He. unfold elements_of. cbn [seq map].
  change (0 * w)%nat with 0%nat. rewrite drop_0.
  rewrite take_app_length' by (now rewrite He). f_equal.
  rewrite <- seq_shift, map_map. apply map_ext. intros i.
  replace (S i * w)%nat with (length e + i * w)%nat by (rewrite He; lia).
  now rewrite <- drop_drop, drop_app_length.
Qed.

Lemma elements_of_encode_all w vs rest :
  elements_of w (length vs) (encode_all w vs ++ rest)
  = map (fun v => v mod 2 ^ (8 * Z.of_nat w)) vs.
Proof.
  induction vs as [|v vs IH]; [reflexivity|].
  unfold encode_all in *. cbn [map concat length]. rewrite <- app_assoc.
  rewrite elements_of_cons by apply length_encode_le.
  now rewrite decode_encode_le, IH.
Qed.

Section Buffers.
Context {platform : Platform}.

(** What [Fill] does at a supported type is what its loop does. *)
Lemma Fill_supported verbose buffer t dims w distr :
  sizeof_element t = Some w ->
  distribution_of t = Some distr ->
  let shape := {| type := enum_value t; dimensions := dims |} in
  exists name,
    Fill verbose buffer shape
    = (fst (fill_loop distr w (Z.to_nat (GetNumElements shape)) 0
                      (mt19937_seed kSeed) buffer),
       fill_logs verbose shape name).
Proof.
  intros Hw Hd shape.
  destruct (ToString_enum_value t) as (name & Hname & _).
  exists name. unfold Fill, fill_logs. change (type shape) with (enum_value t).
  rewrite Hname, enumerator_enum_value.
  set (n := Z.to_nat (GetNumElements shape)).
  pose proof (pure_fill_loop distr w n 0%nat (mt19937_seed kSeed) buffer) as Hpure.
  unfold pure in Hpure.
  destruct (fill_loop distr w n 0 (mt19937_seed kSeed) buffer) as [r tr] eqn:Hloop.
  cbn in Hpure. subst tr.
  destruct t; try discriminate Hw;
    injection Hw as <-; injection Hd as <-;
    unfold FillIntT, FillFloatT; cbn [width short int long_long unsigned_char
      unsigned_short unsigned_int unsigned_long_long]; fold n;
    rewrite Hloop; destruct verbose, r; cbn [Log bind print ret fst snd app];
    rewrite ?app_nil_r; reflexivity.
Qed.

Lemma fill_loop_overflow distr w todo : forall i g buffer,
  todo <> O -> (length buffer < (i + todo) * w)%nat ->
  fst (fill_loop distr w todo i g buffer) = Undefined.
Proof.
  induction todo as [|k IH]; intros i g buffer Hne Hlt; [congruence|].
  cbn [fill_loop]. destruct (distr g) as [v g']. unfold store.
  destruct (Nat.leb_spec (i * w + w) (length buffer)) as [Hle|_]; [|reflexivity].
  rewrite bind_ret_l. apply IH.
  - intros ->. lia.
  - rewrite !length_app, length_take, length_encode_le, length_drop. lia.
Qed.

(** X12.  [Fill] checks no bound: on a buffer too short for the elements
    of a shape of a supported type it writes past the end of the block,
    which is undefined. *)
Theorem Fill_beyond_the_block (verbose : bool) (t : PrimitiveType) (dims : list Z)
  (w : nat) (buffer : text) :
  sizeof_element t = Some w ->
  let shape := {| type := enum_value t; dimensions := dims |} in
  (length buffer < Z.to_nat (GetNumElements shape) * w)%nat ->
  fst (Fill verbose buffer shape) = Undefined.
Proof.
  intros Hw shape Hlt.
  destruct (sizeof_has_distribution t w Hw) as [distr Hd].
  destruct (Fill_supported verbose buffer t dims w distr Hw Hd) as [name HF].
  unfold shape in *. rewrite HF.
  cbn [fst]. apply fill_loop_overflow; [|exact Hlt].
  intros Hz. rewrite Hz in Hlt. cbn in Hlt. lia.
Qed.

(** X13.  A shape without elements (a zero among the dimensions, or a
    count that is not positive): [Fill] returns the buffer as it is,
    whatever its size, and [Display] prints an empty line. *)
Theorem no_element_shape (verbose : bool) (t : PrimitiveType) (dims : list Z)
  (w : nat) (buffer : text) :
  sizeof_element t = Some w ->
  let shape := {| type := enum_value t; dimensions := dims |} in
  GetNumElements shape <= 0 ->
  fst (Fill verbose buffer shape) = Ret buffer /\
  Display buffer shape = (Ret tt, [cout endl]).
Proof.
  intros Hw shape Hn.
  assert (Hz : Z.to_nat (GetNumElements shape) = O) by lia.
  destruct (sizeof_has_distribution t w Hw) as [distr Hd].
  split.
  - destruct (Fill_supported verbose buffer t dims w distr Hw Hd) as [name HF].
    fold shape in HF. now rewrite HF, Hz.
  - unfold Display. change (type shape) with (enum_value t).
    rewrite enumerator_enum_value.
    destruct t; try discriminate Hw; unfold DisplayIntT, DisplayT;
      rewrite Hz; reflexivity.
Qed.

(** *** What is printed *)

Lemma display_loop_out show w num todo : forall i buffer,
  Z.of_nat (i + todo) = num ->
  ((i + todo) * w <= length buffer)%nat ->
  exists trace,
    display_loop show w num todo i buffer = (Ret tt, trace) /\
    stderr_of trace = [] /\
    stdout_of trace
    = join (str ", ")
           (map (fun j => show (decode_le (take w (drop (j * w) buffer))))
                (seq i todo)).
Proof.
  induction todo as [|k IH]; intros i buffer Hnum Hle.
  - exists []. repeat split.
  - destruct (IH (S i) buffer) as (trace & Hloop & Herr & Hout); [lia|lia|].
    cbn [display_loop]. unfold load.
    destruct (Nat.leb_spec (i * w + w) (length buffer)) as [_|]; [|lia].
    rewrite bind_ret_l, Hloop.
    set (x := show (decode_le (take w (drop (i * w) buffer)))).
    destruct (Z.eqb_spec (Z.of_nat i) (num - 1)) as [Hlast|Hmore]; cbn [negb].
    + assert (k = O) by lia. subst k. cbn in Hloop. injection Hloop as <-.
      exists [cout x]. repeat split. cbn. now rewrite app_nil_r.
    + exists (cout x :: cout (str ", ") :: trace). repeat split; [exact Herr|].
      cbn [stdout_of seq map]. rewrite Hout.
      destruct k as [|k]; [lia|]. reflexivity.
Qed.

Lemma DisplayT_out show w buffer num :
  (Z.to_nat num * w <= length buffer)%nat ->
  exists trace,
    DisplayT show w buffer num = (Ret tt, trace) /\
    stderr_of trace = [] /\
    stdout_of trace
    = join (str ", ") (map show (elements_of w (Z.to_nat num) buffer)) ++ endl.
Proof.
  intros Hle. unfold DisplayT, elements_of. rewrite map_map.
  destruct (Z.to_nat num) as [|k] eqn:Hk.
  - exists [cout endl]. repeat split.
  - destruct (display_loop_out show w num (S k) 0 buffer) as (trace & -> & Herr & Hout);
      [lia|exact Hle|].
    exists (trace ++ [cout endl]). repeat split.
    + now rewrite stderr_of_app, Herr.
    + rewrite stdout_of_app, Hout. cbn [stdout_of]. now rewrite app_nil_r.
Qed.

Lemma Display_dispatch (t : PrimitiveType) (dims : list Z) (w : nat)
  (buffer : text) :
  sizeof_element t = Some w ->
  let shape := {| type := enum_value t; dimensions := dims |} in
  Display buffer shape
  = DisplayT (show_element t) w buffer (GetNumElements shape).
Proof.
  intros Hw shape. unfold Display.
  change (type shape) with (enum_value t). rewrite enumerator_enum_value.
  destruct t; try discriminate Hw; injection Hw as <-; reflexivity.
Qed.

(** X14.  What [Display] prints for a supported type and a buffer that
    holds the elements: the elements in order as [operator<<] prints them,
    with a comma and a space between two of them and none after the
    last, then a new line; nothing goes to the error stream. *)
Theorem Display_format (t : PrimitiveType) (dims : list Z) (w : nat)
  (buffer : text) :
  sizeof_element t = Some w ->
  let shape := {| type := enum_value t; dimensions := dims |} in
  let n := Z.to_nat (GetNumElements shape) in
  (n * w <= length buffer)%nat ->
  exists trace,
    Display buffer shape = (Ret tt, trace) /\
    stderr_of trace = [] /\
    stdout_of trace
    = join (str ", ") (map (show_element t) (elements_of w n buffer)) ++ endl.
Proof.
  intros Hw shape n Hle. unfold shape.
  rewrite (Display_dispatch t dims w buffer Hw).
  apply DisplayT_out. exact Hle.
Qed.


(** X15.  Displaying what was filled, for the signed types on a platform
    that keeps the promise of the integer distribution.  Let [values] be
    what the distribution of the type, with the bounds -100 and 100,
    yields in as many successive draws as the shape has elements, from a
    generator freshly seeded with 42.  Each of them lies between -100 and
    100; [Fill] writes their representations over the elements of the
    buffer, and [Display] of the buffer filled prints them in decimal,
    in order. *)
Theorem Display_after_Fill (verbose : bool) (t : PrimitiveType) (T : IntT)
  (dims : list Z) (buffer : text) :
  draws_in_range platform ->
  signed_type t = Some T ->
  let shape := {| type := enum_value t; dimensions := dims |} in
  let n := Z.to_nat (GetNumElements shape) in
  let values :=
    drawn (uniform_int_distribution T (cast T (-100)) (cast T 100)) n
          (mt19937_seed 42) in
  let filled := encode_all (width T) values ++ drop (n * width T) buffer in
  (n * width T <= length buffer)%nat ->
  Forall (fun v => -100 <= v <= 100) values /\
  fst (Fill verbose buffer shape) = Ret filled /\
  exists trace,
    Display filled shape = (Ret tt, trace) /\
    stdout_of trace = join (str ", ") (map to_string values) ++ endl.
Proof.
  intros Hrange HT shape n values0 filled0 Hle.
  change (-100) with kLowerBound in *. change 100 with kUpperBound in *.
  change 42 with kSeed in *.
  assert (Hw : sizeof_element t = Some (width T))
    by (destruct t; try discriminate HT; injection HT as <-; reflexivity).
  set (distr := uniform_int_distribution T (cast T kLowerBound) (cast T kUpperBound)).
  assert (Hd : distribution_of t = Some distr)
    by (destruct t; try discriminate HT; injection HT as <-; reflexivity).
  destruct (Fill_spec verbose t dims _ _ buffer Hw Hd Hle) as (name & _ & HF).
  fold shape in HF. fold n in HF.
  set (values := drawn distr n (mt19937_seed kSeed)) in *.
  assert (Hlen : length values = n) by apply length_drawn.
  assert (Hvalues : Forall (fun v => kLowerBound <= v <= kUpperBound) values).
  { assert (Hcast : cast T kLowerBound = kLowerBound /\ cast T kUpperBound = kUpperBound)
      by (destruct t; try discriminate HT; injection HT as <-; split; reflexivity).
    destruct Hcast as [Hlo Hhi].
    apply List.Forall_forall. intros v Hv.
    apply (drawn_bounds distr kLowerBound kUpperBound) with (todo := n)
                                                            (g := mt19937_seed kSeed);
      [|exact Hv].
    intros g. unfold distr. rewrite Hlo, Hhi. apply Hrange.
    unfold kLowerBound, kUpperBound. lia. }
  set (filled := encode_all (width T) values ++ drop (n * width T) buffer) in *.
  destruct (DisplayT_out (show_element t) (width T) filled (GetNumElements shape))
    as (trace & HD & _ & Hout).
  { fold n. unfold filled.
    rewrite length_app, length_encode_all, length_drop, Hlen. lia. }
  pose proof (Display_dispatch t dims (width T) filled Hw) as Hdisp.
  cbv zeta in Hdisp. fold shape in Hdisp. rewrite <- Hdisp in HD.
  split; [exact Hvalues|]. split; [now rewrite HF|].
  exists trace. split; [exact HD|].
  rewrite Hout. fold n. f_equal. f_equal.
  unfold filled. rewrite <- Hlen, elements_of_encode_all, map_map.
  apply map_ext_Forall. eapply List.Forall_impl; [|exact Hvalues].
  intros v Hv.
  assert (Hshow : show_element t = show_int T /\ (width T =? 1)%nat = false)
    by (destruct t; try discriminate HT; injection HT as <-; split; reflexivity).
  destruct Hshow as [-> Hwide]. unfold show_int. rewrite Hwide.
  change (8 * Z.of_nat (width T)) with (bits T).
  now rewrite (of_bits_small T t v HT Hv).
Qed.


End Buffers.

Lemma Fill_beyond_the_block_witness :
  fst (@Fill sample_platform false (str "abc")
             {| type := enum_value S32; dimensions := [2] |}) = Undefined.
Proof.
  apply (@Fill_beyond_the_block sample_platform false S32 [2] 4%nat (str "abc"));
    [reflexivity|vm_compute; lia].
Defined.

Lemma no_element_shape_witness :
  fst (@Fill sample_platform false (str "abc")
             {| type := enum_value S32; dimensions := [0; 4] |}) = Ret (str "abc") /\
  @Display sample_platform (str "abc")
           {| type := enum_value S32; dimensions := [0; 4] |} = (Ret tt, [cout endl]).
Proof.
  apply (@no_element_shape sample_platform false S32 [0; 4] 4%nat (str "abc"));
    [reflexivity|vm_compute; discriminate].
Defined.

Lemma Display_format_witness :
  exists trace,
    @Display sample_platform (str "abcdefgh")
             {| type := enum_value U16; dimensions := [2; 2] |} = (Ret tt, trace) /\
    stdout_of trace = str "25185, 25699, 26213, 26727" ++ endl.
Proof.
  destruct (@Display_format sample_platform U16 [2; 2] 2 (str "abcdefgh"))
    as (trace & HD & _ & Hout); [reflexivity|vm_compute; lia|].
  exists trace. split; [exact HD|]. rewrite Hout. vm_compute. reflexivity.
Defined.

Lemma Display_after_Fill_witness :
  let shape := {| type := enum_value S16; dimensions := [3] |} in
  fst (@Fill sample_platform false (str "abcdefgh") shape)
  = Ret (encode_all 2 [-58; -46; 22] ++ str "gh") /\
  exists trace,
    @Display sample_platform (encode_all 2 [-58; -46; 22] ++ str "gh") shape
    = (Ret tt, trace) /\
    stdout_of trace = str "-58, -46, 22" ++ endl.
Proof.
  intros shape.
  destruct (@Display_after_Fill sample_platform false S16 short [3] (str "abcdefgh"))
    as (_ & HF & trace & HD & Hout);
    [exact sample_draws_in_range|reflexivity|vm_compute; lia|].
  split; [exact HF|]. exists trace. split; [exact HD|].
  rewrite Hout. vm_compute. reflexivity.
Defined.

(** ** The buffer table and the parameter loop *)

Lemma bind_Undefined_inv {A B} (m : M A) (f : A -> M B) :
  fst (bind m f) = Undefined ->
  fst m = Undefined \/ exists a, fst m = Ret a /\ fst (f a) = Undefined.
Proof. rewrite fst_bind. destruct (fst m); try discriminate; eauto. Qed.

Lemma imap_block_sizes (sizes : list Z) : forall (f : nat -> Z -> text),
  (forall i size, length (f i size) = Z.to_nat size) ->
  Forall2 (fun block size => length block = Z.to_nat size) (imap f sizes) sizes.
Proof.
  induction sizes as [|size sizes IH]; intros f Hf; [constructor|].
  rewrite imap_cons. constructor; [apply Hf|]. apply IH. intros i s. apply Hf.
Qed.

Section Table.
Context {platform : Platform}.

Lemma BufferTable_block_sizes assignment :
  block_sizes assignment (BufferTable assignment).
Proof.
  apply imap_block_sizes. intros i size. now rewrite length_map, length_seq.
Qed.

Lemma Fill_unsupported verbose buffer t dims :
  sizeof_element t = None ->
  fst (Fill verbose buffer {| type := enum_value t; dimensions := dims |}) = Exit 1.
Proof.
  intros Hw. unfold Fill. rewrite fst_bind, fst_Log. cbv beta match.
  destruct (ToString_enum_value t) as (name & Hname & _). cbn [type].
  rewrite Hname, bind_ret_l, fst_bind, fst_Log. cbv beta match.
  rewrite enumerator_enum_value.
  destruct t; try discriminate Hw; reflexivity.
Qed.

Lemma Fill_Ret verbose buffer shape buffer' :
  fst (Fill verbose buffer shape) = Ret buffer' ->
  length buffer' = length buffer /\
  exists t w, type shape = enum_value t /\ sizeof_element t = Some w.
Proof.
  intros Hr.
  assert (Hlt : (type shape < 13)%nat).
  { unfold Fill in Hr. rewrite fst_bind, fst_Log in Hr. cbv beta match in Hr.
    unfold ToString in Hr.
    destruct (nth_error primitive_strings (type shape)) as [name|] eqn:Hname;
      [|discriminate].
    change 13%nat with (length primitive_strings).
    apply nth_error_Some. rewrite Hname. discriminate. }
  destruct (enum_value_surj _ Hlt) as [t Ht].
  destruct shape as [ty dims]. cbn in Ht. subst ty.
  destruct (sizeof_element t) as [w|] eqn:Hw.
  - destruct (sizeof_has_distribution t w Hw) as [distr Hd].
    destruct (Fill_supported verbose buffer t dims w distr Hw Hd) as [name HF].
    rewrite HF in Hr. cbn [fst] in Hr. apply fill_loop_Ret in Hr as [Hlen _].
    split; [exact Hlen|]. exists t, w. auto.
  - rewrite (Fill_unsupported verbose buffer t dims Hw) in Hr. discriminate Hr.
Qed.

Lemma FillParameter_Ret verbose assignment table param_idx table' :
  fst (FillParameter verbose assignment table param_idx) = Ret table' ->
  exists block block',
    table !! Z.to_nat param_idx = Some block /\
    length block' = length block /\
    table' = <[Z.to_nat param_idx := block']> table.
Proof.
  intros Hr. unfold FillParameter in Hr.
  apply bind_Ret_inv in Hr as (u0 & _ & Hr).
  apply bind_Ret_inv in Hr as (shape & _ & Hr).
  apply bind_Ret_inv in Hr as (u1 & _ & Hr).
  apply bind_Ret_inv in Hr as (block & Hblock & Hr).
  apply bind_Ret_inv in Hr as (block' & Hfill & Hr).
  apply bind_Ret_inv in Hr as (u2 & _ & Hr).
  cbn in Hr. injection Hr as <-.
  apply at_index_Ret in Hblock as [_ Hblock].
  apply Fill_Ret in Hfill as [Hlen _].
  exists block, block'. auto.
Qed.

Lemma FillParameter_block_sizes verbose assignment table param_idx table' :
  block_sizes assignment table ->
  fst (FillParameter verbose assignment table param_idx) = Ret table' ->
  block_sizes assignment table'.
Proof.
  intros Hsizes Hr.
  apply FillParameter_Ret in Hr as (block & block' & Hblock & Hlen & ->).
  destruct (Forall2_lookup_l _ _ _ _ _ Hsizes Hblock) as (size & Hsize & Hb).
  unfold block_sizes. rewrite <- (list_insert_id _ _ _ Hsize).
  apply Forall2_insert; [exact Hsizes|]. cbn. congruence.
Qed.

(** X16.  The table has one block for each buffer, of the size declared
    for it, when it is built and still when the loop over the parameters
    has filled them. *)
Theorem table_keeps_block_sizes (verbose : bool) (assignment : BufferAssignment) :
  block_sizes assignment (BufferTable assignment) /\
  forall table,
    fst (foldM (FillParameter verbose assignment) (BufferTable assignment)
               (params_idx assignment)) = Ret table ->
    block_sizes assignment table.
Proof.
  split; [apply BufferTable_block_sizes|]. intros table Hr.
  refine (foldM_invariant (FillParameter verbose assignment)
            (block_sizes assignment) _ _ _ _ (BufferTable_block_sizes assignment) Hr).
  intros s x s' Hs Hx. eapply FillParameter_block_sizes; eauto.
Qed.

(** X17.  A parameter without an array shape stops the run: when the
    entry of [buffers_shape] at the parameter's number is a tuple of
    several elements or of none, or is missing, the loop ends the run
    with [exit(1)] and the line "Parameters can not be tuples", before any
    buffer is touched. *)
Theorem parameter_without_array_shape (verbose : bool)
  (assignment : BufferAssignment) (table : list text) (param_idx : Z) :
  (length (elements (shape_at assignment param_idx)) <> 1%nat ->
   FillParameter verbose assignment table param_idx
   = (Exit 1, [cerr (str "Parameters can not be tuples" ++ endl)])) /\
  (buffers_shape assignment !! param_idx = None ->
   FillParameter verbose assignment table param_idx
   = (Exit 1, [cerr (str "Parameters can not be tuples" ++ endl)])).
Proof.
  assert (Hgen : length (elements (shape_at assignment param_idx)) <> 1%nat ->
            FillParameter verbose assignment table param_idx
            = (Exit 1, [cerr (str "Parameters can not be tuples" ++ endl)])).
  { intros Hne. unfold FillParameter.
    destruct (Nat.eqb_spec (length (elements (shape_at assignment param_idx))) 1);
      [congruence|reflexivity]. }
  split; [exact Hgen|]. intros Hnone. apply Hgen.
  unfold shape_at. rewrite Hnone. cbn. discriminate.
Qed.

(** The size check, passed, leaves room for the elements. *)
Lemma quotient_fits (count size : Z) (w : nat) (block : text) :
  (0 < w)%nat -> count = size ÷ Z.of_nat w -> length block = Z.to_nat size ->
  (Z.to_nat count * w <= length block)%nat.
Proof.
  intros Hw -> Hlen. rewrite Hlen.
  destruct (Z.lt_ge_cases size 0) as [Hneg|Hpos].
  - assert (size ÷ Z.of_nat w <= 0).
    { change 0 with (0 ÷ Z.of_nat w). apply Z.quot_le_mono; lia. }
    replace (Z.to_nat (size ÷ Z.of_nat w)) with O by lia. lia.
  - rewrite Z.quot_div_nonneg by lia.
    pose proof (Z.mul_div_le size (Z.of_nat w) ltac:(lia)) as Hle.
    assert (0 <= size / Z.of_nat w) by (apply Z.div_pos; lia).
    apply Nat2Z.inj_le. rewrite Nat2Z.inj_mul, !Z2Nat.id by lia. lia.
Qed.

(** X18.  The size check protects [Fill]: for a parameter whose shape has
    an enumerator for type, in a table with blocks of the declared sizes,
    the body of the loop never indexes outside the table and never reads
    or writes outside a block, neither to fill nor to display. *)
Theorem parameter_fill_is_defined (verbose : bool) (assignment : BufferAssignment)
  (table : list text) (param_idx : Z) (shape : ArrayShape) (t : PrimitiveType) :
  block_sizes assignment table ->
  0 <= param_idx < Z.of_nat (length (buffers_size assignment)) ->
  shape_at assignment param_idx = {| elements := [shape] |} ->
  type shape = enum_value t ->
  fst (FillParameter verbose assignment table param_idx) <> Undefined.
Proof.
  intros Hsizes Hidx Hshape Ht Hu.
  destruct shape as [ty dims]. cbn in Ht. subst ty.
  set (shape := {| type := enum_value t; dimensions := dims |}) in *.
  destruct (lookup_lt_is_Some_2 (buffers_size assignment) (Z.to_nat param_idx))
    as [size Hsize]; [lia|].
  destruct (Forall2_lookup_r _ _ _ _ _ Hsizes Hsize) as (block & Hblock & Hlen).
  cbn in Hlen.
  unfold FillParameter in Hu. rewrite Hshape in Hu. cbn [elements length Nat.eqb] in Hu.
  apply bind_Undefined_inv in Hu as [Hu|(u0 & _ & Hu)]; [discriminate Hu|].
  cbn [lookup list_lookup of_option] in Hu. rewrite bind_ret_l in Hu.
  apply bind_Undefined_inv in Hu as [Hu|(u1 & Hcheck & Hu)].
  { unfold CheckNumElements, at_index in Hu.
    destruct (Z.ltb_spec param_idx 0); [lia|]. rewrite Hsize in Hu.
    cbn [of_option] in Hu. rewrite bind_ret_l in Hu.
    apply bind_Undefined_inv in Hu as [Hu|(bytes & _ & Hu)].
    - cbn [type shape] in Hu. destruct t; vm_compute in Hu; discriminate Hu.
    - unfold Check in Hu. destruct (_ =? _); discriminate Hu. }
  unfold at_index in Hu. destruct (Z.ltb_spec param_idx 0); [lia|].
  rewrite Hblock in Hu. cbn [of_option] in Hu. rewrite bind_ret_l in Hu.
  destruct (sizeof_element t) as [w|] eqn:Hw.
  2:{ apply bind_Undefined_inv in Hu as [Hu|(b & Hb & _)].
      - unfold shape in Hu. rewrite (Fill_unsupported verbose block t dims Hw) in Hu.
        discriminate Hu.
      - unfold shape in Hb. rewrite (Fill_unsupported verbose block t dims Hw) in Hb.
        discriminate Hb. }
  assert (Hfit : (Z.to_nat (GetNumElements shape) * w <= length block)%nat).
  { unfold CheckNumElements, at_index in Hcheck.
    destruct (Z.ltb_spec param_idx 0); [lia|]. rewrite Hsize in Hcheck.
    cbn [of_option] in Hcheck. rewrite bind_ret_l in Hcheck.
    cbn [type shape] in Hcheck. rewrite (ByteSize_sizeof t w Hw), bind_ret_l in Hcheck.
    unfold Check in Hcheck.
    destruct (Z.eqb_spec (GetNumElements shape) (size ÷ Z.of_nat w)) as [Heq|];
      [|discriminate Hcheck].
    apply (quotient_fits _ size); [|exact Heq|exact Hlen].
    destruct t; try discriminate Hw; injection Hw as <-; lia. }
  destruct (sizeof_has_distribution t w Hw) as [distr Hd].
  destruct (Fill_spec verbose t dims w distr block Hw Hd Hfit) as (name & _ & HF).
  fold shape in HF.
  apply bind_Undefined_inv in Hu as [Hu|(filled & Hfilled & Hu)];
    [rewrite HF in Hu; discriminate Hu|].
  apply bind_Undefined_inv in Hu as [Hu|(u2 & _ & Hu)]; [|discriminate Hu].
  destruct verbose; [|discriminate Hu].
  apply bind_Undefined_inv in Hu as [Hu|(u3 & _ & Hu)]; [discriminate Hu|].
  rewrite (Fill_then_Display true block filled shape Hfilled) in Hu. discriminate Hu.
Qed.

End Table.

Lemma table_keeps_block_sizes_witness :
  exists assignment table,
    fst (ParseBufferAssignment false verbose_file) = Ret assignment /\
    fst (foldM (@FillParameter sample_platform true assignment)
               (@BufferTable sample_platform assignment)
               (params_idx assignment)) = Ret table /\
    block_sizes assignment table.
Proof.
  eexists. eexists. split; [vm_compute; reflexivity|]. split.
  - vm_compute. reflexivity.
  - match goal with
    | |- block_sizes ?a ?t =>
        apply (proj2 (@table_keeps_block_sizes sample_platform true a) t)
    end.
    vm_compute. reflexivity.
Defined.

Lemma parameter_without_array_shape_witness :
  exists assignment,
    fst (ParseBufferAssignment false three_allocations) = Ret assignment /\
    @FillParameter sample_platform false assignment
                   (@BufferTable sample_platform assignment) 0
    = (Exit 1, [cerr (str "Parameters can not be tuples" ++ endl)]).
Proof.
  eexists. split; [vm_compute; reflexivity|].
  apply parameter_without_array_shape. vm_compute. reflexivity.
Defined.

Lemma parameter_fill_is_defined_witness :
  exists assignment,
    fst (ParseBufferAssignment false remainder_file) = Ret assignment /\
    fst (@FillParameter sample_platform true assignment
                        (@BufferTable sample_platform assignment) 0) <> Undefined.
Proof.
  eexists. split; [vm_compute; reflexivity|].
  match goal with
  | |- fst (@FillParameter _ _ ?a _ _) <> _ =>
      apply (@parameter_fill_is_defined sample_platform true a
               (@BufferTable sample_platform a) 0
               {| type := enum_value F32; dimensions := [2] |} F32)
  end.
  - apply BufferTable_block_sizes.
  - vm_compute. split; [discriminate|reflexivity].
  - vm_compute. reflexivity.
  - reflexivity.
Defined.

(** ** The error stream without VERBOSE *)

Lemma plain_ret {A} (a : A) : plain (ret a).
Proof. split; [reflexivity|discriminate]. Qed.

Lemma plain_of_option {A} (o : option A) : plain (of_option o).
Proof. destruct o; (split; [reflexivity|discriminate]). Qed.

Lemma plain_bind {A B} (m : M A) (f : A -> M B) :
  plain m -> (forall a, plain (f a)) -> plain (bind m f).
Proof.
  intros [Hm Hn] Hf. split.
  - rewrite snd_bind, Hm. destruct (fst m); try reflexivity. apply Hf.
  - intros n. rewrite fst_bind. destruct (fst m) eqn:Hfst; try discriminate.
    + apply Hf.
    + exfalso. now apply (Hn status).
Qed.

Lemma plain_stoi s : plain (stoi s).
Proof. destruct (stoi_cases s) as [[v ->]|[e ->]]; (split; [reflexivity|discriminate]). Qed.

Lemma plain_substr pos n s : plain (substr pos n s).
Proof.
  unfold substr. destruct (pos <=? length s)%nat; (split; [reflexivity|discriminate]).
Qed.

Lemma plain_mapM {A B} (f : A -> M B) l : (forall x, plain (f x)) -> plain (mapM f l).
Proof.
  intros Hf. induction l as [|x l IH]; [apply plain_ret|].
  cbn [mapM]. apply plain_bind; [apply Hf|]. intros y.
  apply plain_bind; [exact IH|]. intros ys. apply plain_ret.
Qed.

Lemma plain_ByteSize type : plain (ByteSize type).
Proof.
  unfold ByteSize, ToString. apply plain_bind; [apply plain_of_option|]. intros s.
  apply plain_bind; [apply plain_substr|]. intros s'.
  apply plain_bind; [apply plain_stoi|]. intros n. apply plain_ret.
Qed.

Lemma plain_ArrayShapeToString shape : plain (ArrayShapeToString shape).
Proof.
  unfold ArrayShapeToString, ToString. apply plain_bind; [apply plain_of_option|].
  intros t. apply plain_ret.
Qed.

Lemma plain_TupleShapeToString shape : plain (TupleShapeToString shape).
Proof.
  unfold TupleShapeToString.
  assert (Hes : forall es (k : list text -> text),
             plain (let* parts := mapM ArrayShapeToString es in ret (k parts))).
  { intros es k. apply plain_bind; [|intros; apply plain_ret].
    apply plain_mapM, plain_ArrayShapeToString. }
  destruct (elements shape) as [|e [|e' es]]; try apply Hes.
  apply plain_ArrayShapeToString.
Qed.

Lemma plain_at_index {A} (v : list A) idx : plain (at_index v idx).
Proof.
  unfold at_index. destruct (idx <? 0); [|apply plain_of_option].
  split; [reflexivity|discriminate].
Qed.

Lemma diagnostic_plain {A} (m : M A) : plain m -> diagnostic m.
Proof.
  intros [Hm Hn]. unfold diagnostic. rewrite Hm.
  destruct (fst m) eqn:Hfst; try reflexivity. exfalso. now apply (Hn status).
Qed.

Lemma diagnostic_bind {A B} (m : M A) (f : A -> M B) :
  diagnostic m -> (forall a, diagnostic (f a)) -> diagnostic (bind m f).
Proof.
  unfold diagnostic. intros Hm Hf. rewrite fst_bind, snd_bind.
  destruct (fst m) as [a| | |]; try exact Hm.
  rewrite stderr_of_app, Hm. apply Hf.
Qed.

Lemma diagnostics_one_line msg :
  In msg diagnostics -> contains "010" msg = false.
Proof.
  unfold diagnostics. cbn [In]. intros Hin.
  repeat (destruct Hin as [<-|Hin]; [reflexivity|]). destruct Hin.
Qed.

Lemma diagnostic_ExitWithMsg {A} msg :
  In msg diagnostics -> diagnostic (@ExitWithMsg A msg).
Proof.
  intros Hin. unfold diagnostic. cbn. split; [reflexivity|]. exists msg.
  split; [exact Hin|]. split; [now apply diagnostics_one_line|].
  now rewrite app_nil_r.
Qed.

Lemma diagnostic_Check cond msg :
  In msg diagnostics -> diagnostic (Check cond msg).
Proof. intros Hin. destruct cond; [reflexivity|now apply diagnostic_ExitWithMsg]. Qed.

Ltac known_message :=
  solve [unfold diagnostics; cbn [In]; repeat first [left; reflexivity | right]].

Lemma enumerator_Some n t : enumerator n = Some t -> n = enum_value t.
Proof.
  unfold enumerator, enumerators. intros Hn.
  do 13 (destruct n as [|n]; [injection Hn as <-; reflexivity|]).
  destruct n; discriminate Hn.
Qed.

Lemma diagnostic_unsupported {A} t :
  sizeof_element t = None ->
  diagnostic (let* name := ToString (enum_value t) in
              @ExitWithMsg A (str "Unsupported type: " ++ name)).
Proof.
  destruct t; try discriminate; intros _.
  - exact (diagnostic_ExitWithMsg (str "Unsupported type: f16") ltac:(known_message)).
  - exact (diagnostic_ExitWithMsg (str "Unsupported type: bf16") ltac:(known_message)).
  - exact (diagnostic_ExitWithMsg (str "Unsupported type: c64") ltac:(known_message)).
  - exact (diagnostic_ExitWithMsg (str "Unsupported type: c128") ltac:(known_message)).
Qed.

Lemma diagnostic_cout {A} (a : A) s : diagnostic (Ret a, [cout s]).
Proof. reflexivity. Qed.

Lemma diagnostic_mapM {A B} (f : A -> M B) l :
  (forall x, diagnostic (f x)) -> diagnostic (mapM f l).
Proof.
  intros Hf. induction l as [|x l IH]; [reflexivity|].
  cbn [mapM]. apply diagnostic_bind; [apply Hf|]. intros y.
  apply diagnostic_bind; [exact IH|]. intros ys. reflexivity.
Qed.

Lemma diagnostic_foldM {A S} (f : S -> A -> M S) l : forall s,
  (forall s x, diagnostic (f s x)) -> diagnostic (foldM f s l).
Proof.
  induction l as [|x l IH]; intros s Hf; [reflexivity|].
  cbn [foldM]. apply diagnostic_bind; [apply Hf|]. intros s'. now apply IH.
Qed.

Ltac diag_leaf :=
  first [ apply diagnostic_Check; known_message
        | apply diagnostic_ExitWithMsg; known_message
        | apply diagnostic_cout
        | apply diagnostic_plain;
          first [ apply plain_ret | apply plain_stoi | apply plain_substr
                | apply plain_of_option | apply plain_TupleShapeToString
                | apply plain_ByteSize | apply plain_at_index
                | apply plain_mapM, plain_stoi ]
        | reflexivity ].

Ltac diag :=
  repeat match goal with
         | |- diagnostic (Log false _) => reflexivity
         | |- diagnostic (print (cout _)) => reflexivity
         | |- diagnostic (bind _ _) => apply diagnostic_bind; [|intros ?]
         | |- diagnostic (if ?c then _ else _) => destruct c
         | |- diagnostic _ => diag_leaf
         end.

Lemma diagnostic_ArrayShapeFromString s : diagnostic (ArrayShapeFromString false s).
Proof. unfold ArrayShapeFromString. diag. Qed.

Lemma diagnostic_ParseSubshape s : diagnostic (ParseSubshape false s).
Proof.
  unfold ParseSubshape, last_char. diag. apply diagnostic_ArrayShapeFromString.
Qed.

Lemma diagnostic_TupleShapeFromString s : diagnostic (TupleShapeFromString false s).
Proof.
  unfold TupleShapeFromString. diag.
  assert (Hbare : diagnostic (let* a := ArrayShapeFromString false s in
                              ret {| elements := [a] |})).
  { apply diagnostic_bind; [apply diagnostic_ArrayShapeFromString|]. intros; diag. }
  destruct s as [|c s]; [exact Hbare|].
  destruct c as [[] [] [] [] [] [] [] []]; try exact Hbare.
  diag. apply diagnostic_mapM, diagnostic_ParseSubshape.
Qed.

Lemma diagnostic_ParseLine a line : diagnostic (ParseLine false a line).
Proof.
  unfold ParseLine. destruct (regex_search allocation_line_r line); diag.
  - unfold ParseOutputMarker. destruct (regex_search output_r _); diag.
    apply diagnostic_TupleShapeFromString.
  - unfold ParseParameterMarker. destruct (regex_search parameter_r _); diag.
    apply diagnostic_TupleShapeFromString.
Qed.

Lemma diagnostic_ParseBufferAssignment infile :
  diagnostic (ParseBufferAssignment false infile).
Proof.
  unfold ParseBufferAssignment. diag.
  apply diagnostic_foldM. intros s x. apply diagnostic_ParseLine.
Qed.

Section ErrorStream.
Context {platform : Platform}.

Lemma plain_fill_loop distr w todo : forall i g buffer,
  plain (fill_loop distr w todo i g buffer).
Proof.
  induction todo as [|k IH]; intros i g buffer; [apply plain_ret|].
  cbn [fill_loop]. destruct (distr g) as [v g'].
  apply plain_bind; [|intros b; apply IH].
  unfold store. destruct (_ <=? _)%nat; (split; [reflexivity|discriminate]).
Qed.

Lemma diagnostic_Fill buffer shape : diagnostic (Fill false buffer shape).
Proof.
  unfold Fill. apply diagnostic_bind; [reflexivity|]. intros _.
  apply diagnostic_bind; [apply diagnostic_plain, plain_of_option|]. intros name.
  apply diagnostic_bind; [reflexivity|]. intros _.
  destruct (enumerator (type shape)) as [t|] eqn:Ht; [|reflexivity].
  apply enumerator_Some in Ht. rewrite Ht.
  destruct t;
    try (apply diagnostic_plain; first [apply plain_fill_loop|apply plain_ret]);
    now apply diagnostic_unsupported.
Qed.

Lemma diagnostic_display_loop show w num todo : forall i buffer,
  diagnostic (display_loop show w num todo i buffer).
Proof.
  induction todo as [|k IH]; intros i buffer; [reflexivity|].
  cbn [display_loop]. unfold load. diag; try apply IH.
Qed.

Lemma diagnostic_Display buffer shape : diagnostic (Display buffer shape).
Proof.
  unfold Display.
  assert (HT : forall show w, diagnostic (DisplayT show w buffer (GetNumElements shape))).
  { intros show w. unfold DisplayT. diag. apply diagnostic_display_loop. }
  destruct (enumerator (type shape)) as [t|] eqn:Ht; [|reflexivity].
  apply enumerator_Some in Ht. rewrite Ht.
  destruct t; try apply HT; now apply diagnostic_unsupported.
Qed.

Lemma diagnostic_display_elements pointee buffer size shapes : forall tuple_idx,
  diagnostic (display_elements pointee buffer size tuple_idx shapes).
Proof.
  induction shapes as [|shape shapes IH]; intros idx; [reflexivity|].
  cbn [display_elements]. unfold load. diag; try apply IH; apply diagnostic_Display.
Qed.

Lemma diagnostic_DisplayTuple pointee buffer shape :
  diagnostic (DisplayTuple pointee buffer shape).
Proof.
  unfold DisplayTuple.
  assert (Hes : forall es,
             diagnostic (print (cout (str "(" ++ endl));;
                         display_elements pointee buffer (length es) 0 es;;
                         print (cout (str ")" ++ endl)))).
  { intros es. diag. apply diagnostic_display_elements. }
  destruct (elements shape) as [|e [|e' es]]; try apply Hes.
  apply diagnostic_Display.
Qed.

Lemma diagnostic_FillParameter assignment table param_idx :
  diagnostic (FillParameter false assignment table param_idx).
Proof.
  unfold FillParameter, CheckNumElements. diag. apply diagnostic_Fill.
Qed.

Lemma diagnostic_main argv fs : diagnostic (main false argv fs).
Proof.
  unfold main. destruct argv as [|arg argv];
    [apply diagnostic_ExitWithMsg; known_message|].
  destruct (text_eqb arg (str "--help")); [reflexivity|].
  apply diagnostic_bind; [apply diagnostic_ParseBufferAssignment|]. intros assignment.
  apply diagnostic_bind.
  { apply diagnostic_foldM. intros s x. apply diagnostic_FillParameter. }
  intros table. apply diagnostic_bind; [reflexivity|]. intros _.
  destruct (EntryModule table) as [table' pointee].
  diag. apply diagnostic_DisplayTuple.
Qed.

(** X19.  The error stream of the process without VERBOSE.  A run that
    returns has written nothing to it.  A run that calls [exit] does so
    with status 1 after writing one line and nothing else: one of the
    messages of the driver, none of which holds a line break, and a line
    break.  When an exception leaves [main], the error stream holds what
    the handler of [std::terminate] writes and nothing of the driver.
    Nothing is said of a run whose behaviour is undefined. *)
Theorem one_diagnostic_line (argv : list text) (fs : text -> option text) :
  let err := stderr_of (snd (program false argv fs)) in
  match fst (program false argv fs) with
  | Ret _ => err = []
  | Exit n =>
      n = 1 /\
      exists msg, In msg diagnostics /\ contains "010" msg = false /\
                  err = msg ++ endl
  | Throw e => err = terminate_handler e
  | Undefined => True
  end.
Proof.
  pose proof (diagnostic_main argv fs) as Hmain.
  unfold diagnostic in Hmain. unfold program, terminate. cbv zeta.
  destruct (main false argv fs) as [[r|n|e|] trace]; cbn [fst snd] in *.
  - exact Hmain.
  - exact Hmain.
  - rewrite stderr_of_app, Hmain. cbn [stderr_of app]. apply app_nil_r.
  - exact I.
Qed.

End ErrorStream.

(** ** What the patterns of the parser capture *)

Lemma exec_one_inv whole k r s cur caps m :
  exec whole (One k :: r) s cur caps = Some m ->
  exists c s', s = c :: s' /\ accepts k c = true /\
               exec whole r s' (push c cur) caps = Some m.
Proof.
  rewrite exec_one. destruct s as [|c s]; [discriminate|].
  destruct (accepts k c) eqn:Hc; [|discriminate]. eauto.
Qed.

Lemma exec_lit_inv whole (l : string) r : forall s cur caps m,
  exec whole (lit l ++ r) s cur caps = Some m ->
  exists s', s = str l ++ s' /\ exec whole r s' (pushes (str l) cur) caps = Some m.
Proof.
  unfold lit. induction (str l) as [|x l' IH]; intros s cur caps m Hm.
  - exists s. auto.
  - cbn [map app] in Hm. apply exec_one_inv in Hm as (c & s' & -> & Hc & Hm).
    apply Ascii.eqb_eq in Hc. subst c.
    apply IH in Hm as (s'' & -> & Hm). exists s''. auto.
Qed.

Lemma exec_caps whole r : forall s cur caps m,
  exec whole r s cur caps = Some m -> exists rest, m = rev caps ++ rest.
Proof.
  induction r as [|[k|k| |] r IH]; intros s cur caps m Hm.
  - exists []. rewrite app_nil_r.
    destruct whole; cbn in Hm; [destruct s; [|discriminate]|]; now injection Hm as <-.
  - apply exec_one_inv in Hm as (c & s' & _ & _ & Hm). eauto.
  - apply exec_star_inv in Hm as (u & v & _ & _ & Hm). eauto.
  - rewrite exec_open in Hm. eauto.
  - rewrite exec_close in Hm. apply IH in Hm as [rest ->].
    cbn [rev]. rewrite <- app_assoc. eauto.
Qed.

Lemma regex_search_inv r : forall s m,
  regex_search r s = Some m ->
  exists pre s', s = pre ++ s' /\ exec false r s' None [] = Some m.
Proof.
  induction s as [|c s IH]; intros m Hm; cbn [regex_search] in Hm.
  - destruct (exec false r [] None []) eqn:He; [|discriminate].
    injection Hm as <-. exists [], []. auto.
  - destruct (exec false r (c :: s) None []) eqn:He.
    + injection Hm as <-. exists [], (c :: s). auto.
    + apply IH in Hm as (pre & s' & -> & Hm). exists (c :: pre), s'. auto.
Qed.

Lemma pushes_None u : pushes u None = None.
Proof. induction u as [|c u IH]; [reflexivity|exact IH]. Qed.

(** A group of one or more digits: what it captures is made of digits. *)
Lemma exec_digits_group whole r s caps m :
  exec whole (group (plus (Between "0" "9")) ++ r) s None caps = Some m ->
  exists ds s', ds <> [] /\ forallb is_digit ds = true /\
                exec whole r s' None (ds :: caps) = Some m.
Proof.
  unfold group, plus. cbn [app]. rewrite exec_open. intros Hm.
  apply exec_one_inv in Hm as (c & s1 & -> & Hc & Hm).
  apply exec_star_inv in Hm as (u & v & -> & Hu & Hm).
  cbn [push] in Hm. rewrite pushes_Some, exec_close in Hm.
  cbn [default] in Hm. unfold id in Hm.
  rewrite rev_app_distr, rev_involutive in Hm. cbn [rev app] in Hm.
  exists (c :: u), v. split; [discriminate|]. split; [|exact Hm].
  cbn [forallb]. change (is_digit c) with (accepts (Between "0" "9") c).
  rewrite Hc. exact Hu.
Qed.

Lemma allocation_line_groups line m :
  regex_search allocation_line_r line = Some m ->
  exists c ds,
    is_digit c = true /\ ds <> [] /\ forallb is_digit ds = true /\
    nth 0 m [] = [c] /\ nth 1 m [] = ds.
Proof.
  intros Hm. apply regex_search_inv in Hm as (pre & s & _ & Hm).
  unfold allocation_line_r in Hm.
  apply exec_lit_inv in Hm as (s1 & _ & Hm). rewrite pushes_None in Hm.
  unfold group in Hm at 1. cbn [app] in Hm. rewrite exec_open in Hm.
  apply exec_one_inv in Hm as (c & s2 & _ & Hc & Hm).
  cbn [push] in Hm. rewrite exec_close in Hm. cbn [default rev app] in Hm.
  unfold id in Hm. cbn [rev app] in Hm.
  apply exec_lit_inv in Hm as (s3 & _ & Hm). rewrite pushes_None in Hm.
  unfold plus in Hm at 1. cbn [app] in Hm.
  apply exec_one_inv in Hm as (x & s4 & _ & _ & Hm).
  apply exec_star_inv in Hm as (u & s5 & _ & _ & Hm).
  cbn [push] in Hm. rewrite pushes_None in Hm.
  apply exec_lit_inv in Hm as (s6 & _ & Hm). rewrite pushes_None in Hm.
  apply exec_digits_group in Hm as (ds & s7 & Hne & Hds & Hm).
  apply exec_caps in Hm as [rest ->].
  exists c, ds. repeat split; assumption.
Qed.

Lemma parameter_groups postfix m :
  regex_search parameter_r postfix = Some m ->
  exists ds, ds <> [] /\ forallb is_digit ds = true /\ nth 0 m [] = ds.
Proof.
  intros Hm. apply regex_search_inv in Hm as (pre & s & _ & Hm).
  unfold parameter_r in Hm.
  apply exec_lit_inv in Hm as (s1 & _ & Hm). rewrite pushes_None in Hm.
  apply exec_digits_group in Hm as (ds & s2 & Hne & Hds & Hm).
  apply exec_caps in Hm as [rest ->].
  exists ds. repeat split; assumption.
Qed.

(** *** Numbers made of digits *)

Lemma digits_value_digits s : forall acc,
  forallb is_digit s = true -> 0 <= acc ->
  exists v, digits_value (Some acc) s = Some v /\ 0 <= v.
Proof.
  induction s as [|c s IH]; intros acc Hs Hacc; [eauto|].
  cbn [forallb] in Hs. apply andb_prop in Hs as [Hc Hs].
  cbn [digits_value]. rewrite Hc. apply IH; [exact Hs|].
  cbn [default]. unfold id.
  assert (0 <= digit_val c).
  { unfold is_digit in Hc. apply andb_prop in Hc as [Hlo _].
    apply N.leb_le in Hlo. unfold digit_val. lia. }
  lia.
Qed.

Lemma stoi_digits s :
  s <> [] -> forallb is_digit s = true ->
  (exists v, stoi s = ret v /\ 0 <= v <= INT_MAX) \/ stoi s = throw out_of_range.
Proof.
  intros Hne Hs. destruct s as [|c s]; [congruence|].
  cbn [forallb] in Hs. apply andb_prop in Hs as [Hc Hs].
  destruct (is_digit_plain c Hc) as (Hsp & Hm & Hp).
  unfold stoi. cbn [skip_spaces]. rewrite Hsp, Hm, Hp.
  cbn [digits_value]. rewrite Hc. cbn [default]. unfold id.
  assert (0 <= digit_val c).
  { unfold is_digit in Hc. apply andb_prop in Hc as [Hlo _].
    apply N.leb_le in Hlo. unfold digit_val. lia. }
  destruct (digits_value_digits s (10 * 0 + digit_val c) Hs) as (v & -> & Hv); [lia|].
  unfold INT_MIN, INT_MAX.
  destruct (Z.leb_spec (-2147483648) v); [|lia].
  destruct (Z.leb_spec v 2147483647); [left|right; reflexivity].
  exists v. split; [reflexivity|lia].
Qed.

Lemma stoi_one_digit c :
  is_digit c = true -> exists v, stoi [c] = ret v /\ 0 <= v <= 9.
Proof.
  intros Hc. destruct (is_digit_plain c Hc) as (Hsp & Hm & Hp).
  unfold stoi. cbn [skip_spaces]. rewrite Hsp, Hm, Hp.
  cbn [digits_value]. rewrite Hc. cbn [default]. unfold id.
  assert (0 <= digit_val c <= 9).
  { unfold is_digit in Hc. apply andb_prop in Hc as [Hlo Hhi].
    apply N.leb_le in Hlo, Hhi. unfold digit_val. lia. }
  unfold INT_MIN, INT_MAX.
  destruct (Z.leb_spec (-2147483648) (10 * 0 + digit_val c)); [|lia].
  destruct (Z.leb_spec (10 * 0 + digit_val c) 2147483647); [|lia].
  exists (10 * 0 + digit_val c). split; [reflexivity|lia].
Qed.

(** *** The sizes and the numbers the parser records *)

Lemma ParseOutputMarker_fields verbose idx postfix a a' :
  fst (ParseOutputMarker verbose idx postfix a) = Ret a' ->
  buffers_size a' = buffers_size a /\ params_idx a' = params_idx a.
Proof.
  intros Hr. unfold ParseOutputMarker in Hr.
  destruct (regex_search output_r postfix) as [om|].
  - bind_inv Hr. cbn in Hr. injection Hr as <-. auto.
  - cbn in Hr. injection Hr as <-. auto.
Qed.

Lemma ParseParameterMarker_fields verbose idx postfix a a' :
  fst (ParseParameterMarker verbose idx postfix a) = Ret a' ->
  buffers_size a' = buffers_size a /\
  (params_idx a' = params_idx a \/
   exists n, 0 <= n <= INT_MAX /\ params_idx a' = params_idx a ++ [n]).
Proof.
  intros Hr. unfold ParseParameterMarker in Hr.
  destruct (regex_search parameter_r postfix) as [pm|] eqn:Hpm.
  - apply bind_Ret_inv in Hr as (u0 & _ & Hr).
    apply bind_Ret_inv in Hr as (n & Hn & Hr).
    bind_inv Hr. cbn in Hr. injection Hr as <-. split; [reflexivity|]. right.
    destruct (parameter_groups _ _ Hpm) as (ds & Hne & Hds & Hnth).
    rewrite Hnth in Hn.
    destruct (stoi_digits ds Hne Hds) as [(v & Hv & Hrange)|Hthrow];
      [|rewrite Hthrow in Hn; discriminate Hn].
    rewrite Hv in Hn. injection Hn as <-. exists v. auto.
  - cbn in Hr. injection Hr as <-. auto.
Qed.

Lemma ParseLine_sizes verbose a line a' :
  sizes_ok a -> fst (ParseLine verbose a line) = Ret a' -> sizes_ok a'.
Proof.
  intros (Hlen & Hsizes & Hparams) Hr. unfold ParseLine in Hr.
  destruct (regex_search allocation_line_r line) as [m|] eqn:Hm.
  2:{ cbn in Hr. injection Hr as <-. now repeat split. }
  destruct (allocation_line_groups _ _ Hm) as (c & ds & Hc & Hne & Hds & H0 & H1).
  rewrite H0, H1 in Hr.
  apply bind_Ret_inv in Hr as (u0 & _ & Hr).
  apply bind_Ret_inv in Hr as (idx & Hidx & Hr).
  apply bind_Ret_inv in Hr as (size & Hsize & Hr).
  apply bind_Ret_inv in Hr as (u1 & _ & Hr).
  apply bind_Ret_inv in Hr as (u2 & Hcheck & Hr).
  apply bind_Ret_inv in Hr as (a1 & Hout & Hr).
  destruct (stoi_one_digit c Hc) as (i & Hi & Hi9).
  rewrite Hi in Hidx. injection Hidx as <-.
  destruct (stoi_digits ds Hne Hds) as [(v & Hv & Hrange)|Hthrow];
    [|rewrite Hthrow in Hsize; discriminate Hsize].
  rewrite Hv in Hsize. injection Hsize as <-.
  unfold Check in Hcheck.
  destruct (Z.eqb_spec i (Z.of_nat (length (buffers_size a)))) as [Heq|];
    [|discriminate Hcheck].
  apply ParseOutputMarker_fields in Hout as [Hs1 Hp1].
  apply ParseParameterMarker_fields in Hr as [Hs2 Hp2].
  rewrite Hs1 in Hs2. rewrite Hp1 in Hp2. cbn in Hs2, Hp2.
  unfold sizes_ok. rewrite Hs2. split; [|split].
  - rewrite length_app. cbn. lia.
  - apply Forall_app. split; [exact Hsizes|]. now constructor.
  - destruct Hp2 as [->|(n & Hn & ->)]; [exact Hparams|].
    apply Forall_app. split; [exact Hparams|]. now constructor.
Qed.

(** X20.  What the parser records is bounded: an assignment it returns
    has at most ten buffers, since the index of an allocation line is a
    single digit and has to be the number of buffers read so far; every
    size and every parameter number is a non-negative [int]. *)
Theorem parsed_numbers_are_bounded (verbose : bool) (infile : text)
  (assignment : BufferAssignment) :
  fst (ParseBufferAssignment verbose infile) = Ret assignment ->
  (length (buffers_size assignment) <= 10)%nat /\
  Forall (fun n => 0 <= n <= INT_MAX) (buffers_size assignment) /\
  Forall (fun n => 0 <= n <= INT_MAX) (params_idx assignment).
Proof.
  intros Hr. unfold ParseBufferAssignment in Hr.
  apply bind_Ret_inv in Hr as (a0 & Hfold & Hr).
  apply bind_Ret_inv in Hr as (u & _ & Hr).
  cbn in Hr. injection Hr as <-.
  assert (H0 : sizes_ok empty_assignment).
  { repeat split; cbn; try constructor. lia. }
  exact (foldM_invariant (ParseLine verbose) sizes_ok _ _ _
                         (ParseLine_sizes verbose) H0 Hfold).
Qed.

Lemma parsed_numbers_are_bounded_witness :
  exists assignment,
    fst (ParseBufferAssignment false eleven_allocations) = Ret assignment /\
    (length (buffers_size assignment) <= 10)%nat.
Proof.
  eexists. split; [vm_compute; reflexivity|].
  match goal with
  | |- (length (buffers_size ?a) <= _)%nat =>
      destruct (parsed_numbers_are_bounded false eleven_allocations a) as (H & _);
        [vm_compute; reflexivity|exact H]
  end.
Defined.

(** ** The standard output of a run without VERBOSE *)

Lemma announced_bind {A} (m : M A) (f : A -> M Z) :
  silent m -> (forall a, announced (f a)) -> announced (bind m f).
Proof.
  unfold silent, announced. intros Hm Hf. cbv zeta.
  rewrite fst_bind, snd_bind.
  destruct (fst m) as [a| | |]; try (left; exact Hm).
  rewrite stdout_of_app, Hm. exact (Hf a).
Qed.

Section Announced.
Context {platform : Platform}.

Lemma announced_output (assignment : BufferAssignment) (table : list text)
  (pointee : Z -> option text) :
  announced
    (print (cout (str "Output:" ++ endl));;
     let* shown :=
       TupleShapeToString (shape_at assignment (output_idx assignment)) in
     Log false (str "Output shape: " ++ shown);;
     let* block := at_index table (output_idx assignment) in
     DisplayTuple pointee block (shape_at assignment (output_idx assignment));;
     ret 0).
Proof.
  unfold announced. cbv zeta. rewrite fst_bind, snd_bind. cbn [print fst snd].
  match goal with
  | |- context [fst ?rest] =>
      assert (Hzero : forall r, fst rest = Ret r -> r = 0)
  end.
  { intros r Hr.
    apply bind_Ret_inv in Hr as (shown & _ & Hr).
    apply bind_Ret_inv in Hr as (u & _ & Hr).
    apply bind_Ret_inv in Hr as (block & _ & Hr).
    apply bind_Ret_inv in Hr as (u' & _ & Hr).
    cbn in Hr. now injection Hr. }
  match goal with
  | |- context [fst ?rest] =>
      destruct (fst rest) as [r| | |] eqn:Hrest
  end.
  - split; [now apply Hzero|]. right. cbn [stdout_of app]. eauto.
  - right. cbn [stdout_of app]. eauto.
  - right. cbn [stdout_of app]. eauto.
  - right. cbn [stdout_of app]. eauto.
Qed.

(** X21.  The standard output of a run without VERBOSE.  A run that
    returns, returns 0 and has printed either the usage text or the line
    "Output:" followed by the output; a run that ends in another way has
    printed nothing, or the line "Output:" and what the printer wrote
    before it stopped.  Nothing is printed before the module has run. *)
Theorem stdout_is_announced (argv : list text) (fs : text -> option text) :
  let out := stdout_of (snd (main false argv fs)) in
  match fst (main false argv fs) with
  | Ret r => r = 0 /\ (out = kUsageString ++ endl \/
                       exists body, out = str "Output:" ++ endl ++ body)
  | _ => out = [] \/ exists body, out = str "Output:" ++ endl ++ body
  end.
Proof.
  change (announced (main false argv fs)).
  unfold main. destruct argv as [|arg argv]; [left; reflexivity|].
  destruct (text_eqb arg (str "--help")).
  { unfold announced. cbv zeta. rewrite fst_bind, snd_bind.
    cbn [print ret fst snd app stdout_of].
    split; [reflexivity|left; apply app_nil_r]. }
  apply announced_bind; [apply quiet_ParseBufferAssignment|]. intros assignment.
  apply announced_bind.
  { apply (one_sided_foldM (FillParameter true assignment)
                           (FillParameter false assignment)).
    intros s x. apply one_sided_FillParameter. }
  intros table.
  apply announced_bind; [reflexivity|]. intros _.
  destruct (EntryModule table) as [table' pointee].
  apply announced_output.
Qed.

(** ** The layout of a tuple *)

Lemma display_elements_out (pointee : Z -> option text) (buffer : text)
  (size : nat) : forall shapes idx outs,
  size = (idx + length shapes)%nat ->
  length outs = length shapes ->
  (forall i array_shape, shapes !! i = Some array_shape ->
     exists p element,
       load 8 (idx + i) buffer = ret p /\ pointee p = Some element /\
       fst (Display element array_shape) = Ret tt /\
       outs !! i = Some (stdout_of (snd (Display element array_shape)))) ->
  fst (display_elements pointee buffer size idx shapes) = Ret tt /\
  stdout_of (snd (display_elements pointee buffer size idx shapes))
  = join (str ", " ++ endl) outs.
Proof.
  induction shapes as [|array_shape shapes IH]; intros idx outs Hsize Hlen Hall.
  - destruct outs; [|discriminate Hlen]. split; reflexivity.
  - destruct outs as [|out outs]; [discriminate Hlen|].
    destruct (Hall 0%nat array_shape eq_refl) as (p & element & Hload & Hp & HD & Hout).
    rewrite Nat.add_0_r in Hload. cbn in Hout. injection Hout as Hout.
    destruct (IH (S idx) outs) as [IHr IHo].
    { cbn [length] in Hsize. lia. }
    { cbn [length] in Hlen. lia. }
    { intros i sh Hi. destruct (Hall (S i) sh Hi) as (p' & e' & H1 & H2 & H3 & H4).
      exists p', e'. rewrite Nat.add_succ_comm. auto. }
    cbn [display_elements]. rewrite Hload, bind_ret_l, Hp.
    cbn [of_option]. rewrite bind_ret_l.
    rewrite fst_bind, snd_bind, HD, fst_bind, snd_bind.
    assert (Hlast : (idx =? size - 1)%nat = match shapes with [] => true | _ => false end).
    { cbn [length] in Hsize. destruct shapes; cbn [length] in Hsize.
      - apply Nat.eqb_eq. lia.
      - apply Nat.eqb_neq. lia. }
    rewrite Hlast. destruct shapes as [|sh' shapes'].
    + destruct outs; [|discriminate Hlen]. cbn [negb ret fst snd].
      split; [exact IHr|]. rewrite !stdout_of_app, IHo. cbn [stdout_of join app].
      now rewrite app_nil_r, Hout.
    + destruct outs as [|out' outs']; [discriminate Hlen|].
      cbn [negb print fst snd]. split; [exact IHr|].
      rewrite !stdout_of_app, IHo. cbn [stdout_of]. rewrite app_nil_r.
      change (join (str ", " ++ endl) (out :: out' :: outs'))
        with (out ++ (str ", " ++ endl) ++ join (str ", " ++ endl) (out' :: outs')).
      now rewrite Hout.
Qed.

(** X22.  The layout of a tuple.  A tuple shape whose number of elements
    is not one is printed as an opening parenthesis on a line of its own,
    the elements, each one printed as an array and followed, except the
    last, by a comma, a space and a line break, and a closing parenthesis
    on a line of its own; element [i] is read through the pointer held
    at bytes [8 i .. 8 i + 7] of the tuple's block. *)
Theorem tuple_layout (pointee : Z -> option text) (buffer : text)
  (shape : TupleShape) (outs : list text) :
  length (elements shape) <> 1%nat ->
  length outs = length (elements shape) ->
  (forall i array_shape, elements shape !! i = Some array_shape ->
     exists p element,
       load 8 i buffer = ret p /\ pointee p = Some element /\
       fst (Display element array_shape) = Ret tt /\
       outs !! i = Some (stdout_of (snd (Display element array_shape)))) ->
  fst (DisplayTuple pointee buffer shape) = Ret tt /\
  stdout_of (snd (DisplayTuple pointee buffer shape))
  = str "(" ++ endl ++ join (str ", " ++ endl) outs ++ str ")" ++ endl.
Proof.
  intros Hne Hlen Hall.
  destruct (display_elements_out pointee buffer (length (elements shape))
              (elements shape) 0 outs eq_refl Hlen Hall) as [Hr Ho].
  assert (HD : DisplayTuple pointee buffer shape
               = (print (cout (str "(" ++ endl));;
                  display_elements pointee buffer (length (elements shape)) 0
                                   (elements shape);;
                  print (cout (str ")" ++ endl)))).
  { unfold DisplayTuple. destruct (elements shape) as [|e [|e' es]];
      [reflexivity|now contradiction Hne|reflexivity]. }
  rewrite HD, fst_bind, snd_bind. cbn [print fst snd].
  rewrite fst_bind, snd_bind, Hr. cbn [fst snd]. split; [reflexivity|].
  rewrite !stdout_of_app, Ho. cbn [stdout_of].
  rewrite !app_nil_r, <- !app_assoc. reflexivity.
Qed.

End Announced.

Lemma tuple_layout_witness :
  fst (@DisplayTuple sample_platform
         (fun p => if p =? 1 then Some (str "abcd") else
                   if p =? 2 then Some (str "efgh") else None)
         (encode_le 8 1 ++ encode_le 8 2)
         {| elements := [ {| type := enum_value U16; dimensions := [2] |};
                          {| type := enum_value U8; dimensions := [3] |} ] |})
  = Ret tt.
Proof.
  refine (proj1 (@tuple_layout sample_platform _ _ _
     [str "25185, 25699" ++ endl; str "e, f, g" ++ endl] _ _ _)).
  - cbn. lia.
  - reflexivity.
  - intros [|[|i]] sh Hi; cbn in Hi; try discriminate Hi; injection Hi as <-.
    + exists 1, (str "abcd"). vm_compute. auto.
    + exists 2, (str "efgh"). vm_compute. auto.
Defined.
